(** * grt: a Redis-based lock and job queue

    A shallow embedding of package [grt] (the lock and the job queue, in their
    version on a connection pool) and the properties of the lock and of the
    job queue that are established on it.

    Layout:
    - [Redis]: the store the package talks to (the commands the package issues,
      with their documented behaviour), the connection and its failures;
    - [JobQueue]: [jobQueueMarshal], [IsQueued], [Submit], [Get], [Cleanup],
      [Len], [Work.Complete], [Work.Resubmit];
    - [Lock]: [NewLock], [LockWait], [heartbeat], [Unlock], the goroutines of
      one lock handle as a transition system, several clients of one store;
    - the vocabulary of the statements, with the callers of one queue taken
      round trip by round trip;
    - the properties. *)

From Stdlib Require Import ZArith Lia.
From stdpp Require Import gmap strings list fin_maps.

(** ** Go results *)

(** A call either returns, panics, or waits for something that only another
    participant can provide (a push on an empty list, a free mutex). *)
Inductive outcome (A : Type) : Type :=
| Returns (a : A)
| Panics (msg : string)
| Blocks.
Arguments Returns {A} a.
Arguments Panics {A} msg.
Arguments Blocks {A}.

(** The values of Go's [error] that occur; [option error] is an [error] that
    may be [nil]. *)
Inductive error : Type :=
| ErrLockTimeout              (* errors.New("lock timeout") *)
| ErrAlreadyQueued            (* errors.New("job already queued") *)
| ErrNil                      (* redis.ErrNil *)
| NetError (msg : string)     (* the connection failed *)
| ServerError (msg : string)  (* the server answered with an error reply *)
| ConvError (msg : string)    (* redis.Int / redis.Bytes on an unexpected reply *)
| JSONError (msg : string).   (* encoding/json *)

#[global] Instance error_eq_dec : EqDecision error.
Proof. solve_decision. Defined.

(** ** The store *)

Module Redis.

#[warnings="-register-all"]
Inductive reply : Type :=
| Nil
| Status (s : string)
| Error (msg : string)
| Integer (n : Z)
| Bulk (b : string)
| Array (rs : list reply).

(** Three kinds of keys are used by the package: string keys written with
    [SET ... PX] (kept as the instant, in nanoseconds, at which the key
    expires), lists and hashes.  A list or hash that becomes empty is removed,
    as in Redis. *)
Record store : Type := Store {
  leases : gmap string Z;
  lists : gmap string (list string);
  hashes : gmap string (gmap string string) }.

Definition empty : store := Store ∅ ∅ ∅.

Definition lrange (k : string) (s : store) : list string :=
  default [] (lists s !! k).

Definition hgetall (k : string) (s : store) : gmap string string :=
  default ∅ (hashes s !! k).

Definition put_list (k : string) (l : list string) (s : store) : store :=
  Store (leases s)
        (match l with [] => delete k (lists s) | _ => <[k:=l]> (lists s) end)
        (hashes s).

Definition put_hash (k : string) (h : gmap string string) (s : store) : store :=
  Store (leases s) (lists s)
        (if decide (h = ∅) then delete k (hashes s) else <[k:=h]> (hashes s)).

Definition put_lease (k : string) (deadline : Z) (s : store) : store :=
  Store (<[k:=deadline]> (leases s)) (lists s) (hashes s).

(** A string key exists at instant [t] when it was set and has not expired. *)
Definition live (t : Z) (k : string) (s : store) : bool :=
  match leases s !! k with
  | Some deadline => (t <? deadline)%Z
  | None => false
  end.

Inductive cond : Type := NX | XX.

Inductive command : Type :=
| SET (key value : string) (c : cond) (px : Z)
| LPUSH (key value : string)
| LREM (key : string) (count : Z) (value : string)
| RPOPLPUSH (src dst : string)
| BRPOPLPUSH (src dst : string) (timeout : Z)
| HSET (key field value : string)
| HDEL (key field : string)
| HEXISTS (key field : string)
| HGET (key field : string)
| HLEN (key : string).

(** [LREM key count value]: all occurrences for [count = 0], the first
    [count] from the head for [count > 0], the last [-count] otherwise. *)
Fixpoint remove_first (n : nat) (v : string) (l : list string) : list string :=
  match l with
  | [] => []
  | x :: l' =>
      if decide (x = v)
      then match n with O => x :: l' | S n' => remove_first n' v l' end
      else x :: remove_first n v l'
  end.

Definition lrem (count : Z) (v : string) (l : list string) : list string :=
  if (count =? 0)%Z then filter (λ x, x ≠ v) l
  else if (0 <? count)%Z then remove_first (Z.to_nat count) v l
  else reverse (remove_first (Z.to_nat (- count)) v (reverse l)).

Definition nanos_per_milli : Z := 1000000.

(** One command, executed at instant [t].  [None]: the client is made to
    wait ([BRPOPLPUSH] with timeout 0 on an empty list). *)
Definition exec (t : Z) (c : command) (s : store) : option reply * store :=
  match c with
  | SET k _ cnd px =>
      if (px <=? 0)%Z then (Some (Error "ERR invalid expire time in set"), s)
      else
        let present := live t k s in
        let wanted := match cnd with NX => negb present | XX => present end in
        if wanted
        then (Some (Status "OK"), put_lease k (t + px * nanos_per_milli) s)
        else (Some Nil, s)
  | LPUSH k v =>
      let l := v :: lrange k s in
      (Some (Integer (Z.of_nat (length l))), put_list k l s)
  | LREM k count v =>
      let l := lrange k s in
      let l' := lrem count v l in
      (Some (Integer (Z.of_nat (length l - length l'))), put_list k l' s)
  | RPOPLPUSH src dst =>
      match last (lrange src s) with
      | None => (Some Nil, s)
      | Some x =>
          let s1 := put_list src (removelast (lrange src s)) s in
          (Some (Bulk x), put_list dst (x :: lrange dst s1) s1)
      end
  | BRPOPLPUSH src dst timeout =>
      match last (lrange src s) with
      | None => (if (timeout =? 0)%Z then None else Some Nil, s)
      | Some x =>
          let s1 := put_list src (removelast (lrange src s)) s in
          (Some (Bulk x), put_list dst (x :: lrange dst s1) s1)
      end
  | HSET k f v =>
      let h := hgetall k s in
      (Some (Integer (if h !! f is Some _ then 0 else 1)), put_hash k (<[f:=v]> h) s)
  | HDEL k f =>
      let h := hgetall k s in
      (Some (Integer (if h !! f is Some _ then 1 else 0)), put_hash k (delete f h) s)
  | HEXISTS k f =>
      (Some (Integer (if hgetall k s !! f is Some _ then 1 else 0)), s)
  | HGET k f =>
      (Some (match hgetall k s !! f with Some v => Bulk v | None => Nil end), s)
  | HLEN k =>
      (Some (Integer (Z.of_nat (size (hgetall k s)))), s)
  end.

(** [MULTI; c1; ...; cn; EXEC]: the queued commands run one after the other
    with nothing in between; a blocking command inside a transaction does not
    wait and answers [Nil]. *)
Fixpoint exec_batch (t : Z) (cs : list command) (s : store) : list reply * store :=
  match cs with
  | [] => ([], s)
  | c :: cs' =>
      let '(r, s1) := exec t c s in
      let '(rs, s2) := exec_batch t cs' s1 in
      (default Nil r :: rs, s2)
  end.

(** *** The connection

    A round trip can fail in two ways: the request never reaches the server
    ([Refused]), or the server executes it and the answer is lost
    ([Severed]).  [wire] lists what happens to the coming round trips; when
    it is exhausted the connection is healthy. *)
Inductive fault : Type :=
| Refused (msg : string)
| Severed (msg : string).

Record World : Type := mkWorld {
  now : Z;
  db : store;
  wire : list (option fault) }.

Definition next_fault (w : World) : option fault :=
  match wire w with
  | f :: _ => f
  | [] => None
  end.

Definition sent (w : World) : list (option fault) := tail (wire w).

(** [r.Do(cmd, args...)]: the reply, or the error. *)
Definition Do (c : command) (w : World) : outcome (reply + error) * World :=
  match next_fault w with
  | Some (Refused msg) => (Returns (inr (NetError msg)), mkWorld (now w) (db w) (sent w))
  | Some (Severed msg) =>
      (Returns (inr (NetError msg)), mkWorld (now w) (exec (now w) c (db w)).2 (sent w))
  | None =>
      match exec (now w) c (db w) with
      | (None, _) => (Blocks, w)
      | (Some (Error msg), s) => (Returns (inr (ServerError msg)), mkWorld (now w) s (sent w))
      | (Some r, s) => (Returns (inl r), mkWorld (now w) s (sent w))
      end
  end.

(** [r.Send("MULTI"); r.Send(c1); ...; r.Do("EXEC")]: [Send] only fills the
    output buffer, so the whole transaction is one round trip. *)
Definition DoExec (cs : list command) (w : World) : (reply + error) * World :=
  match next_fault w with
  | Some (Refused msg) => (inr (NetError msg), mkWorld (now w) (db w) (sent w))
  | Some (Severed msg) =>
      (inr (NetError msg), mkWorld (now w) (exec_batch (now w) cs (db w)).2 (sent w))
  | None =>
      let '(rs, s) := exec_batch (now w) cs (db w) in
      (inl (Array rs), mkWorld (now w) s (sent w))
  end.

(** [redis.Int(reply, err)].  Parsing a bulk string as a number is not
    needed for any command issued here and is left as a conversion error. *)
Definition Int (r : reply + error) : Z * option error :=
  match r with
  | inr e => (0%Z, Some e)
  | inl (Integer n) => (n, None)
  | inl Nil => (0%Z, Some ErrNil)
  | inl (Error msg) => (0%Z, Some (ServerError msg))
  | inl _ => (0%Z, Some (ConvError "redigo: unexpected type for Int"))
  end.

(** [redis.Bytes(reply, err)]. *)
Definition Bytes (r : reply + error) : string * option error :=
  match r with
  | inr e => ("", Some e)
  | inl (Bulk b) => (b, None)
  | inl (Status s) => (s, None)
  | inl Nil => ("", Some ErrNil)
  | inl (Error msg) => ("", Some (ServerError msg))
  | inl _ => ("", Some (ConvError "redigo: unexpected type for Bytes"))
  end.

End Redis.

Import Redis.

(** ** jobqueue.go *)

Module JobQueue.

(** A job is any Go value; what the queue uses of it is the result of
    [json.Marshal] and, when its type implements [JobQueueKeyer], the result
    of [JobQueueKey()]. *)
Record Job : Type := mkJob {
  marshal : string + string;      (* payload, or the message of the error *)
  keyer : option string }.

Record JobQueue : Type := NewJobQueue { Queue : string }.

Record Work : Type := mkWork { WQueue : string; key : string }.

Definition processing (q : string) : string := q +:+ ":processing".
Definition payloads (q : string) : string := q +:+ ":payload".
Arguments processing : simpl never.
Arguments payloads : simpl never.

Definition jobQueueRawMarshal (v : Job) : string * option error :=
  match marshal v with
  | inr msg => ("", Some (JSONError msg))
  | inl payload => (payload, None)
  end.

(** Results are [(key, payload, err)]. *)
Definition jobQueueMarshal (job : Job) : string * string * option error :=
  match jobQueueRawMarshal job with
  | (payload, Some err) => ("", payload, Some err)
  | (payload, None) =>
      let key := payload in
      match keyer job with
      | Some k => (key, k, None)
      | None => (key, payload, None)
      end
  end.

(** [json.Unmarshal(payload, v)]: the destination [v] decides which payloads
    decode; it is represented by that decision. *)
Definition Decoder : Type := string → option error.

Definition jobQueueUnmarshal (payload : string) (v : Decoder) : option error :=
  v payload.

(** Go code running against the store. *)
Definition Go (A : Type) : Type := World → outcome A * World.

Definition ret {A} (a : A) : Go A := λ w, (Returns a, w).

Definition panic {A} (msg : string) : Go A := λ w, (Panics msg, w).

Definition bind {A B} (m : Go A) (k : A → Go B) : Go B :=
  λ w, match m w with
       | (Returns a, w') => k a w'
       | (Panics msg, w') => (Panics msg, w')
       | (Blocks, w') => (Blocks, w')
       end.

Notation "x <~ m ;; k" := (bind m (λ x, k))
  (at level 100, m at next level, right associativity, only parsing).

Definition exec_err (r : reply + error) : option error :=
  match r with inr e => Some e | inl _ => None end.

(** [err.Error()] *)
Definition error_text (e : error) : string :=
  match e with
  | ErrLockTimeout => "lock timeout"
  | ErrAlreadyQueued => "job already queued"
  | ErrNil => "redigo: nil returned"
  | NetError msg | ServerError msg | ConvError msg | JSONError msg => msg
  end.

(** [Len] returns the length of the queue. *)
Definition Len (c : JobQueue) : Go (Z * option error) :=
  r <~ Do (HLEN (payloads (Queue c))) ;;
  let '(l, err) := Int r in
  if decide (err = Some ErrNil) then ret (0%Z, None) else ret (l, err).

(** [IsQueued] checks whether a job is currently queued for processing, or
    in progress. *)
Definition IsQueued (c : JobQueue) (job : Job) : Go (bool * option error) :=
  let '(key, _, err) := jobQueueMarshal job in
  match err with
  | Some e => ret (false, Some e)
  | None =>
      r <~ Do (HEXISTS (payloads (Queue c)) key) ;;
      let '(v, err) := Int r in
      match err with
      | Some e => ret (false, Some e)
      | None => ret (negb (v =? 0)%Z, None)
      end
  end.

(** The transaction that ends [Submit]:
    [MULTI; LPUSH queue key; HSET queue:payload key payload; EXEC]. *)
Definition Submit_exec (c : JobQueue) (key payload : string) : Go (option error) :=
  λ w, let '(r, w') := DoExec [LPUSH (Queue c) key;
                               HSET (payloads (Queue c)) key payload] w in
       (Returns (exec_err r), w').

(** [Submit] a job for processing.  The [err] of [jobQueueMarshal] is not
    looked at; the one of [IsQueued] is local to the [if]. *)
Definition Submit (c : JobQueue) (job : Job) : Go (option error) :=
  let '(key, payload, _) := jobQueueMarshal job in
  qe <~ IsQueued c job ;;
  let '(queued, err) := qe in
  if bool_decide (err ≠ None) || queued then ret (Some ErrAlreadyQueued)
  else Submit_exec c key payload.

(** [Complete] a job and remove it from the in-progress queue. *)
Definition Complete (w : Work) : Go (option error) :=
  λ world, let '(r, world') := DoExec [LREM (processing (WQueue w)) 0 (key w);
                                       HDEL (payloads (WQueue w)) (key w)] world in
           (Returns (exec_err r), world').

(** [Resubmit] a job and return it to the job queue. *)
Definition Resubmit (w : Work) : Go (option error) :=
  λ world, let '(r, world') := DoExec [LREM (processing (WQueue w)) 0 (key w);
                                       LPUSH (WQueue w) (key w)] world in
           (Returns (exec_err r), world').

(** [Get] some work: [(work, err)]. *)
Definition Get (c : JobQueue) (v : Decoder) : Go (option Work * option error) :=
  r <~ Do (BRPOPLPUSH (Queue c) (processing (Queue c)) 0) ;;
  let '(key, err) := Bytes r in
  match err with
  | Some e => ret (None, Some e)
  | None =>
      r' <~ Do (HGET (payloads (Queue c)) key) ;;
      let '(d, err) := Bytes r' in
      let err := match err with None => jobQueueUnmarshal d v | Some _ => err end in
      let work := mkWork (Queue c) key in
      match err with
      | Some e =>
          rerr <~ Resubmit work ;;
          match rerr with
          | Some re => panic ("could not resubmit job: " +:+ error_text re)
          | None => ret (None, Some e)
          end
      | None => ret (Some work, None)
      end
  end.

(** [Cleanup] returns the in-progress jobs to the queue.  The loop is bounded
    by [fuel]; [None] when it is exhausted. *)
Fixpoint Cleanup_loop (fuel : nat) (c : JobQueue) (w : World)
  : option (outcome (option error) * World) :=
  match fuel with
  | O => None
  | S fuel' =>
      match Do (RPOPLPUSH (processing (Queue c)) (Queue c)) w with
      | (Returns (inr err), w') => Some (Returns (Some err), w')
      | (Returns (inl Nil), w') => Some (Returns None, w')
      | (Returns (inl _), w') => Cleanup_loop fuel' c w'
      | (Panics msg, w') => Some (Panics msg, w')
      | (Blocks, w') => Some (Blocks, w')
      end
  end.

Definition Cleanup (fuel : nat) (c : JobQueue) (w : World)
  : option (outcome (option error) * World) :=
  Cleanup_loop fuel c w.

End JobQueue.

Import JobQueue.

(** ** lock.go *)

Module Lock.

(** [time.Duration] and instants are counted in nanoseconds ([int64] in Go;
    the divisions below cannot leave its range). *)
Definition Millisecond : Z := 1000000.
Definition Second : Z := 1000 * Millisecond.
Definition Hour : Z := 3600 * Second.

(** The handle: the key, the lease duration, the mutex (is it held?) and the
    three channels of capacity one as their buffers. *)
Record Lock : Type := mkLock {
  Key : string;
  Expiry : Z;
  lock : bool;
  errors : list error;
  stop : list bool;
  stopped : list bool }.

Definition NewLock (key : string) : Lock :=
  mkLock key (2 * Second) false [] [] [].

Definition set_lock (b : bool) (l : Lock) : Lock :=
  mkLock (Key l) (Expiry l) b (errors l) (stop l) (stopped l).
Definition set_errors (c : list error) (l : Lock) : Lock :=
  mkLock (Key l) (Expiry l) (lock l) c (stop l) (stopped l).
Definition set_stop (c : list bool) (l : Lock) : Lock :=
  mkLock (Key l) (Expiry l) (lock l) (errors l) c (stopped l).
Definition set_stopped (c : list bool) (l : Lock) : Lock :=
  mkLock (Key l) (Expiry l) (lock l) (errors l) (stop l) c.

(** [l.Expiry.Nanoseconds()/1000000]; Go's division truncates. *)
Definition px (l : Lock) : Z := Z.quot (Expiry l) 1000000.

(** [r.Do("SET", l.Key, 1, "NX", "PX", ...)]: one attempt of [LockWait]. *)
Definition attempt (l : Lock) : World → outcome (reply + error) * World :=
  Do (SET (Key l) "1" NX (px l)).

(** [r.Do("SET", l.Key, 1, "XX", "PX", ...)]: one renewal of [heartbeat]. *)
Definition renew (l : Lock) : World → outcome (reply + error) * World :=
  Do (SET (Key l) "1" XX (px l)).

(** *** Time, as [LockWait] meets it

    [LockWait] is the one function that reads the clock.  Between two of its
    readings time passes: a command sent at instant [t] reaches the store
    [transit t] later, which is more than nothing, and [time.Sleep(d)] begun
    at [t] lasts [d] and [oversleep t] more.  (The way back of a reply is
    part of what follows it: of the overshoot of the sleep.)  Meanwhile the
    other participants act: [others t s] is what they have made of the store
    [s] by the instant [t]. *)
Record Env : Type := mkEnv {
  others : Z → store → store;
  transit : Z → positive;
  oversleep : Z → N }.

Section LockWait.

Variable E : Env.

(** Time passes by [d]. *)
Definition Lapse (d : Z) (w : World) : World :=
  let t := (now w + d)%Z in
  mkWorld t (others E t (db w)) (wire w).

(** The command is under way to the store. *)
Definition Send (w : World) : World :=
  Lapse (Z.pos (transit E (now w))) w.

(** [time.Sleep(d)] *)
Definition Sleep (d : Z) (w : World) : World :=
  Lapse (Z.max d 0 + Z.of_N (oversleep E (now w))) w.

(** The loop of [LockWait], entered with the mutex held.  The result is the
    error returned, the handle, whether [go l.heartbeat()] was reached, and the
    world; [None] when [fuel] is exhausted. *)
Fixpoint LockWait_loop (fuel : nat) (l : Lock) (expire : Z) (w : World)
  : option (outcome (option error) * Lock * bool * World) :=
  match fuel with
  | O => None
  | S fuel' =>
      match attempt l (Send w) with
      | (Returns (inr err), w') =>
          Some (Returns (Some err), set_lock false l, false, w')
      | (Returns (inl Nil), w') =>
          let w'' := Sleep (Expiry l) w' in
          if (expire <? now w'')%Z
          then Some (Returns (Some ErrLockTimeout), set_lock false l, false, w'')
          else LockWait_loop fuel' l expire w''
      | (Returns (inl _), w') => Some (Returns None, l, true, w')
      | (Panics msg, w') => Some (Panics msg, l, false, w')
      | (Blocks, w') => Some (Blocks, l, false, w')
      end
  end.

(** [LockWait]: waits for the mutex when it is held. *)
Definition LockWait (fuel : nat) (wait : Z) (l : Lock) (w : World)
  : option (outcome (option error) * Lock * bool * World) :=
  if lock l then Some (Blocks, l, false, w)
  else LockWait_loop fuel (set_lock true l) (now w + wait)%Z w.

(** [Lock] is [LockWait(time.Hour * 100000)]. *)
Definition Lock_ (fuel : nat) (l : Lock) (w : World)
  : option (outcome (option error) * Lock * bool * World) :=
  LockWait fuel (Hour * 100000) l w.

End LockWait.

(** *** The goroutine [heartbeat]

    [time.Tick(d)] is a channel of capacity one that the runtime fills every
    [d]; it is [nil] for [d <= 0]. *)
Record Ticker : Type := mkTicker {
  every : Z;
  next_tick : Z;
  buffered : bool }.

Definition Tick (d : Z) (t : Z) : option Ticker :=
  if (d <=? 0)%Z then None else Some (mkTicker d (t + d) false).

(** Where the goroutine is: before [time.Tick]; at [r.Do]; at
    [l.errors <- err]; at [select]; at [l.stopped <- true]; returned. *)
Inductive hb_pc : Type :=
| HbStart
| HbRenew
| HbReport (err : error)
| HbSelect
| HbAck
| HbExit.

Record Heartbeat : Type := mkHb { pc : hb_pc; wait : option Ticker }.

Definition tick_ready (hb : Heartbeat) : bool :=
  match wait hb with
  | Some tk => buffered tk
  | None => false
  end.

Definition take_tick (hb : Heartbeat) : option Ticker :=
  match wait hb with
  | Some tk => Some (mkTicker (every tk) (next_tick tk) false)
  | None => None
  end.

(** One step of the goroutine; [None] when it waits or has returned.  When
    both cases of the [select] are ready, [prefer_stop] is the choice made. *)
Definition heartbeat_step (prefer_stop : bool) (hb : Heartbeat) (l : Lock) (w : World)
  : option (Heartbeat * Lock * World) :=
  match pc hb with
  | HbStart => Some (mkHb HbRenew (Tick (Z.quot (Expiry l) 4) (now w)), l, w)
  | HbRenew =>
      match renew l w with
      | (Returns (inr err), w') => Some (mkHb (HbReport err) (wait hb), l, w')
      | (Returns (inl _), w') => Some (mkHb HbSelect (wait hb), l, w')
      | _ => None
      end
  | HbReport err =>
      match errors l with
      | [] => Some (mkHb HbExit (wait hb), set_errors [err] l, w)
      | _ => None
      end
  | HbSelect =>
      match stop l with
      | _ :: rest =>
          if prefer_stop || negb (tick_ready hb)
          then Some (mkHb HbAck (wait hb), set_stop rest l, w)
          else Some (mkHb HbRenew (take_tick hb), l, w)
      | [] =>
          if tick_ready hb then Some (mkHb HbRenew (take_tick hb), l, w) else None
      end
  | HbAck =>
      match stopped l with
      | [] => Some (mkHb HbExit (wait hb), set_stopped [true] l, w)
      | _ => None
      end
  | HbExit => None
  end.

(** The runtime fills the ticker's channel when its instant has come. *)
Definition fire (t : Z) (hb : Heartbeat) : option Heartbeat :=
  match wait hb with
  | Some tk =>
      if (next_tick tk <=? t)%Z
      then Some (mkHb (pc hb) (Some (mkTicker (every tk) (next_tick tk + every tk) true)))
      else None
  | None => None
  end.

(** *** [Unlock]

    Where a call is: at [l.stop <- true]; at [<-l.stopped]; at the deferred
    [l.lock.Unlock()]; returned; or stopped by the runtime (unlock of an
    unlocked mutex). *)
Inductive unlock_pc : Type :=
| UnSend
| UnWait
| UnRelease
| UnReturned
| UnFatal.

Definition Unlock_step (p : unlock_pc) (l : Lock) : option (unlock_pc * Lock) :=
  match p with
  | UnSend =>
      match stop l with
      | [] => Some (UnWait, set_stop [true] l)
      | _ => None
      end
  | UnWait =>
      match stopped l with
      | _ :: rest => Some (UnRelease, set_stopped rest l)
      | [] => None
      end
  | UnRelease =>
      if lock l then Some (UnReturned, set_lock false l) else Some (UnFatal, l)
  | UnReturned | UnFatal => None
  end.

(** *** One handle and its goroutines

    The calls of [Unlock] under way, the heartbeats started, and the world.
    A call of [LockWait] that returns takes one step (it involves no other
    goroutine of the handle); a call that finds the mutex held takes none. *)
Record System : Type := mkSystem {
  world : World;
  handle : Lock;
  beats : list Heartbeat;
  unlocks : list unlock_pc }.

Inductive step : System → System → Prop :=
| step_env (s : System) (w' : World) :
    (now (world s) <= now w')%Z →
    step s (mkSystem w' (handle s) (beats s) (unlocks s))
| step_fire (s : System) (i : nat) (hb hb' : Heartbeat) :
    beats s !! i = Some hb →
    fire (now (world s)) hb = Some hb' →
    step s (mkSystem (world s) (handle s) (<[i:=hb']> (beats s)) (unlocks s))
| step_heartbeat (s : System) (i : nat) (choice : bool) (hb hb' : Heartbeat)
    (l' : Lock) (w' : World) :
    beats s !! i = Some hb →
    heartbeat_step choice hb (handle s) (world s) = Some (hb', l', w') →
    step s (mkSystem w' l' (<[i:=hb']> (beats s)) (unlocks s))
| step_LockWait (s : System) (E : Env) (fuel : nat) (wait : Z)
    (r : option error) (l' : Lock) (started : bool) (w' : World) :
    LockWait E fuel wait (handle s) (world s) = Some (Returns r, l', started, w') →
    step s (mkSystem w' l'
              (beats s ++ if started then [mkHb HbStart None] else [])
              (unlocks s))
| step_call_Unlock (s : System) :
    step s (mkSystem (world s) (handle s) (beats s) (unlocks s ++ [UnSend]))
| step_Unlock (s : System) (i : nat) (p p' : unlock_pc) (l' : Lock) :
    unlocks s !! i = Some p →
    Unlock_step p (handle s) = Some (p', l') →
    step s (mkSystem (world s) l' (beats s) (<[i:=p']> (unlocks s))).

(** *** Several clients of one store

    What the callers of [LockWait], the heartbeats and the clock do to the
    store, one round trip at a time, in any order. *)
Inductive event : Type :=
| Attempt (l : Lock)
| Beat (l : Lock)
| Release (l : Lock)
| Pass (d : N).

Definition run_event (w : World) (e : event) : World :=
  match e with
  | Attempt l => (attempt l w).2
  | Beat l => (renew l w).2
  | Release _ => w
  | Pass d => mkWorld (now w + Z.of_N d) (db w) (wire w)
  end.

Definition run (es : list event) (w : World) : World :=
  fold_left run_event es w.

(** [v != nil] with [err == nil]: the caller has the lock. *)
Definition acquired (r : outcome (reply + error)) : bool :=
  match r with
  | Returns (inl Nil) => false
  | Returns (inl _) => true
  | _ => false
  end.

End Lock.

Import Lock.

(** * Vocabulary of the statements *)

(** The [n]-th coming round trip. *)
Definition fault_at (n : nat) (w : World) : option fault :=
  default None (wire w !! n).

(** A connection on which no coming round trip fails. *)
Definition healthy (w : World) : Prop := ∀ n, fault_at n w = None.

(** [n] calls of [Get], one after the other, all of which return. *)
Fixpoint Gets (n : nat) (c : JobQueue) (v : Decoder) (w : World) : option World :=
  match n with
  | O => Some w
  | S n' =>
      match Get c v w with
      | (Returns _, w') => Gets n' c v w'
      | _ => None
      end
  end.

(** Effects of the queue's round trips on the three keys of queue [q]:
    the tail of the waiting list moved to the head of the processing list. *)
Definition popped (q k : string) (s s' : store) : Prop :=
  last (lrange q s) = Some k
  ∧ lrange q s' = removelast (lrange q s)
  ∧ lrange (processing q) s' = k :: lrange (processing q) s
  ∧ hashes s' = hashes s.

(** Key [k] taken out of the processing list and pushed on the waiting list. *)
Definition requeued (q k : string) (s s' : store) : Prop :=
  lrange q s' = k :: lrange q s
  ∧ lrange (processing q) s' = filter (λ x, x ≠ k) (lrange (processing q) s)
  ∧ hashes s' = hashes s.

(** The handle a call of [Get] returned, if any. *)
Definition handle_of (r : outcome (option Work * option error)) : option Work :=
  match r with
  | Returns (Some h, _) => Some h
  | _ => None
  end.

(** A key that was not indexed, pushed and indexed. *)
Definition enqueued (q p stored : string) (s s' : store) : Prop :=
  hgetall (payloads q) s !! p = None
  ∧ lrange q s' = p :: lrange q s
  ∧ lrange (processing q) s' = lrange (processing q) s
  ∧ hgetall (payloads q) s' = <[p:=stored]> (hgetall (payloads q) s).

(** Key [k] taken out of the processing list and of the index. *)
Definition completed (q k : string) (s s' : store) : Prop :=
  lrange q s' = lrange q s
  ∧ lrange (processing q) s' = filter (λ x, x ≠ k) (lrange (processing q) s)
  ∧ hgetall (payloads q) s' = delete k (hgetall (payloads q) s).

(** No key twice in the two lists together, and the keys of the lists are
    the keys of the index. *)
Definition tidy (q : string) (s : store) : Prop :=
  NoDup (lrange q s ++ lrange (processing q) s)
  ∧ ∀ k, k ∈ lrange q s ++ lrange (processing q) s
         ↔ is_Some (hgetall (payloads q) s !! k).

(** The users of a queue, taken together, when their operations run one at a
    time and each handle is finished at most once: [OpComplete i] and
    [OpResubmit i] use up the [i]-th handle still held (and do nothing when
    there is none). *)
Inductive op : Type :=
| OpSubmit (job : Job)
| OpGet (v : Decoder)
| OpComplete (i : nat)
| OpResubmit (i : nat).

Record client : Type := mkClient { cl_world : World; cl_handles : list Work }.

Definition apply_op (c : JobQueue) (st : client) (o : op) : client :=
  match o with
  | OpSubmit job => mkClient (Submit c job (cl_world st)).2 (cl_handles st)
  | OpGet v =>
      match Get c v (cl_world st) with
      | (Returns (Some h, _), w') => mkClient w' (h :: cl_handles st)
      | (_, w') => mkClient w' (cl_handles st)
      end
  | OpComplete i =>
      match cl_handles st !! i with
      | Some h => mkClient (Complete h (cl_world st)).2 (delete i (cl_handles st))
      | None => st
      end
  | OpResubmit i =>
      match cl_handles st !! i with
      | Some h => mkClient (Resubmit h (cl_world st)).2 (delete i (cl_handles st))
      | None => st
      end
  end.

Definition run_ops (c : JobQueue) (ops : list op) (st : client) : client :=
  fold_left (apply_op c) ops st.

(** The invariant of such use: a tidy store, and handles with different
    keys, all in the processing list. *)
Definition conserved (c : JobQueue) (st : client) : Prop :=
  tidy (Queue c) (db (cl_world st))
  ∧ NoDup (key <$> cl_handles st)
  ∧ ∀ h, h ∈ cl_handles st →
         WQueue h = Queue c ∧ key h ∈ lrange (processing (Queue c)) (db (cl_world st)).

(** Where a key is: how often in each list, and whether it is indexed. *)
Inductive place : Type := Absent | Waiting | InProgress.

Definition times (k : string) (l : list string) : nat :=
  length (filter (λ x, x = k) l).

Definition placed (c : JobQueue) (s : store) (k : string) (pl : place) : Prop :=
  let W := times k (lrange (Queue c) s) in
  let P := times k (lrange (processing (Queue c)) s) in
  let indexed := is_Some (hgetall (payloads (Queue c)) s !! k) in
  match pl with
  | Absent => W = 0 ∧ P = 0 ∧ ¬ indexed
  | Waiting => W = 1 ∧ P = 0 ∧ indexed
  | InProgress => W = 0 ∧ P = 1 ∧ indexed
  end.

(** ** Several callers of one queue, round trip by round trip

    [JobQueue] is documented as not thread-safe, and its users are several
    processes with a connection each.  Between two of its round trips a caller
    is in no call at all; inside [Submit], after the membership check has
    answered that the job is not queued and before the transaction; inside
    [Get], after the pop and before the payload is fetched, or after the
    payload was rejected and before the key is resubmitted; or it has
    panicked. *)
Inductive task : Type :=
| Ready
| Submitting (job : Job)
| Loading (k : string) (v : Decoder)
| Returning (k : string) (e : error)
| Panicked (msg : string).

Record caller : Type := mkCaller { conn : list (option fault); doing : task }.

(** The callers, the store they share, and the handles that [Get] has
    returned and that are not finished yet. *)
Record Crowd : Type := mkCrowd {
  at_time : Z;
  stored : store;
  callers : list caller;
  held : list Work }.

(** A caller in no call calls an operation and makes its first round trip
    ([OpComplete i] and [OpResubmit i] take the [i]-th handle not yet
    finished); a caller inside [Submit] or [Get] makes its next round trip;
    time passes. *)
Inductive move : Type :=
| Call (o : op)
| Next
| Pause (d : N).

(** One round trip of one caller: the lines of [Submit] up to the [if] and
    from [r.Send("MULTI")] on; the lines of [Get] up to the first [if], from
    there to [work := ...], and the rest; [Complete]; [Resubmit].  A [Get] that
    finds nothing to pop waits: its round trip takes place later. *)
Definition caller_move (c : JobQueue) (m : move) (u : caller) (t : Z) (s : store)
    (hs : list Work) : caller * store * list Work :=
  let w := mkWorld t s (conn u) in
  let q := Queue c in
  match doing u, m with
  | Ready, Call (OpSubmit job) =>
      match IsQueued c job w with
      | (Returns (queued, err), w') =>
          (mkCaller (wire w')
             (if bool_decide (err ≠ None) || queued then Ready else Submitting job),
           db w', hs)
      | _ => (u, s, hs)
      end
  | Submitting job, Next =>
      let '(key, payload, _) := jobQueueMarshal job in
      let w' := (Submit_exec c key payload w).2 in
      (mkCaller (wire w') Ready, db w', hs)
  | Ready, Call (OpGet v) =>
      match Do (BRPOPLPUSH q (processing q) 0) w with
      | (Returns r, w') =>
          let '(key, err) := Bytes r in
          (mkCaller (wire w') (if err is Some _ then Ready else Loading key v), db w', hs)
      | _ => (u, s, hs)
      end
  | Loading key v, Next =>
      match Do (HGET (payloads q) key) w with
      | (Returns r, w') =>
          let '(d, err) := Bytes r in
          let err := match err with None => jobQueueUnmarshal d v | Some _ => err end in
          match err with
          | Some e => (mkCaller (wire w') (Returning key e), db w', hs)
          | None => (mkCaller (wire w') Ready, db w', mkWork q key :: hs)
          end
      | _ => (u, s, hs)
      end
  | Returning key e, Next =>
      match Resubmit (mkWork q key) w with
      | (Returns (Some re), w') =>
          (mkCaller (wire w') (Panicked ("could not resubmit job: " +:+ error_text re)),
           db w', hs)
      | (Returns None, w') => (mkCaller (wire w') Ready, db w', hs)
      | _ => (u, s, hs)
      end
  | Ready, Call (OpComplete i) =>
      match hs !! i with
      | Some h =>
          let w' := (Complete h w).2 in (mkCaller (wire w') Ready, db w', delete i hs)
      | None => (u, s, hs)
      end
  | Ready, Call (OpResubmit i) =>
      match hs !! i with
      | Some h =>
          let w' := (Resubmit h w).2 in (mkCaller (wire w') Ready, db w', delete i hs)
      | None => (u, s, hs)
      end
  | _, _ => (u, s, hs)
  end.

(** A move of caller [im.1]. *)
Definition crowd_move (c : JobQueue) (S : Crowd) (im : nat * move) : Crowd :=
  match im.2 with
  | Pause d => mkCrowd (at_time S + Z.of_N d) (stored S) (callers S) (held S)
  | m =>
      match callers S !! im.1 with
      | Some u =>
          let '(u', s', hs') := caller_move c m u (at_time S) (stored S) (held S) in
          mkCrowd (at_time S) s' (<[im.1:=u']> (callers S)) hs'
      | None => S
      end
  end.

Definition crowd_run (c : JobQueue) (ms : list (nat * move)) (S : Crowd) : Crowd :=
  fold_left (crowd_move c) ms S.

(** The discipline of a run: no transaction of [Submit] runs on a key that is
    indexed by then. *)
Definition in_order (c : JobQueue) (S : Crowd) (im : nat * move) : bool :=
  match callers S !! im.1, im.2 with
  | Some u, Next =>
      match doing u with
      | Submitting job =>
          if hgetall (payloads (Queue c)) (stored S) !! (jobQueueMarshal job).1.1
          is Some _ then false else true
      | _ => true
      end
  | _, _ => true
  end.

Fixpoint disciplined (c : JobQueue) (ms : list (nat * move)) (S : Crowd) : bool :=
  match ms with
  | [] => true
  | im :: ms' => in_order c S im && disciplined c ms' (crowd_move c S im)
  end.

(** The key that a [Get] under way has popped. *)
Definition inflight (u : caller) : option string :=
  match doing u with
  | Loading k _ | Returning k _ => Some k
  | _ => None
  end.

(** The keys of the handles not yet finished and of the calls of [Get] under
    way. *)
Definition claimed (S : Crowd) : list string :=
  (key <$> held S) ++ omap inflight (callers S).

(** What a round trip does to the three keys of queue [q]: nothing, or one of
    the transitions of one key. *)
Definition transition (q : string) (s s' : store) : Prop :=
  s' = s
  ∨ ∃ k, (∃ p, enqueued q k p s s') ∨ popped q k s s' ∨ requeued q k s s'
         ∨ completed q k s s'.

(** The invariant of such runs. *)
Definition kept (c : JobQueue) (S : Crowd) : Prop :=
  tidy (Queue c) (stored S)
  ∧ NoDup (claimed S)
  ∧ (∀ x, x ∈ claimed S → x ∈ lrange (processing (Queue c)) (stored S))
  ∧ (∀ h, h ∈ held S → WQueue h = Queue c).

(** The error a failed round trip is reported as. *)
Definition fault_error (f : fault) : error :=
  match f with Refused msg | Severed msg => NetError msg end.

(** A competitor that keeps the key alive: whenever one looks, the key has
    [ttl] left. *)
Definition rival (key : string) (ttl : Z) : Z → store → store :=
  λ t s, put_lease key (t + ttl) s.

(** A handle on which nothing can move any more: the mutex is held, nobody
    will ever send on [stopped], every heartbeat has returned, and every call
    of [Unlock] is at its send or at its receive. *)
Definition wedged (s : System) : Prop :=
  lock (handle s) = true
  ∧ stopped (handle s) = []
  ∧ Forall (λ hb, pc hb = HbExit) (beats s)
  ∧ Forall (λ p, p = UnSend ∨ p = UnWait) (unlocks s).

(** The phases of a handle: nobody has it; heartbeat [i] runs; the heartbeat
    has acknowledged a stop; call [j] of [Unlock] is about to release the
    mutex; the heartbeat has reported [e] and returned. *)
Inductive phase : Type :=
| Idle
| Beating (i : nat)
| Acked
| Releasing (j : nat)
| Lost (e : error).

(** All heartbeats but [i] have returned; no call of [Unlock] but [j] is at
    the release of the mutex. *)
Definition exited_but (i : option nat) (bs : list Heartbeat) : Prop :=
  ∀ j hb, bs !! j = Some hb → Some j ≠ i → pc hb = HbExit.

Definition releasing_only (j : option nat) (us : list unlock_pc) : Prop :=
  ∀ i p, us !! i = Some p → Some i ≠ j → p ≠ UnRelease.

Definition in_phase (ph : phase) (s : System) : Prop :=
  let l := handle s in
  match ph with
  | Idle =>
      lock l = false ∧ errors l = [] ∧ stopped l = []
      ∧ exited_but None (beats s) ∧ releasing_only None (unlocks s)
  | Beating i =>
      lock l = true ∧ errors l = [] ∧ stopped l = []
      ∧ (∃ hb, beats s !! i = Some hb ∧ pc hb ≠ HbExit)
      ∧ exited_but (Some i) (beats s) ∧ releasing_only None (unlocks s)
  | Acked =>
      lock l = true ∧ errors l = [] ∧ stopped l = [true]
      ∧ exited_but None (beats s) ∧ releasing_only None (unlocks s)
  | Releasing j =>
      lock l = true ∧ errors l = [] ∧ stopped l = []
      ∧ unlocks s !! j = Some UnRelease
      ∧ exited_but None (beats s) ∧ releasing_only (Some j) (unlocks s)
  | Lost e =>
      lock l = true ∧ errors l = [e] ∧ stopped l = []
      ∧ exited_but None (beats s) ∧ releasing_only None (unlocks s)
  end.

(** Jobs submitted one after the other, and the results of [n] calls of
    [Get] one after the other. *)
Fixpoint Submits (c : JobQueue) (jobs : list Job) (w : World) : World :=
  match jobs with
  | [] => w
  | job :: jobs' => Submits c jobs' (Submit c job w).2
  end.

Fixpoint Gets_out (n : nat) (c : JobQueue) (v : Decoder) (w : World)
  : list (outcome (option Work * option error)) :=
  match n with
  | O => []
  | S n' => (Get c v w).1 :: Gets_out n' c v (Get c v w).2
  end.

(** A job that serializes to [pk.1], with the key [pk.2] when it is a
    [JobQueueKeyer]. *)
Definition plain_job (pk : string * option string) : Job := mkJob (inl pk.1) pk.2.

(** Nobody else touches the store while the caller of [LockWait] sleeps. *)
Definition idle : Z → store → store := λ _ s, s.

(** The others being [o], commands reach the store after a nanosecond and
    sleeps end on time. *)
Definition prompt (o : Z → store → store) : Env :=
  mkEnv o (λ _, 1%positive) (λ _, 0%N).

(** At instant [t] (not before [t0]) the store [s] holds a lease of [k] that
    ends after [t0]. *)
Definition leased (t0 : Z) (k : string) (t : Z) (s : store) : Prop :=
  (t0 <= t)%Z ∧ ∃ dl, leases s !! k = Some dl ∧ (t0 < dl)%Z.

(** A turn of the loop of [LockWait] in which the key is not obtained: the
    attempt and the sleep; and [n] of them. *)
Definition turn (E : Env) (l : Lock) (w : World) : World :=
  Sleep E (Expiry l) (attempt l (Send E w)).2.

Fixpoint turns (E : Env) (l : Lock) (n : nat) (w : World) : World :=
  match n with
  | O => w
  | S n' => turns E l n' (turn E l w)
  end.

(** A schedule that leaves a lease of [key] with [left] nanoseconds to live
    no chance to expire: no passing of time reaches the expiry, and a renewal
    of [key] that the server accepts starts the lease afresh. *)
Fixpoint paced (key : string) (left : Z) (es : list event) : bool :=
  match es with
  | [] => true
  | Pass d :: es' => (Z.of_N d <? left)%Z && paced key (left - Z.of_N d) es'
  | Beat l :: es' =>
      if decide (Key l = key)
      then if (px l <=? 0)%Z then paced key left es'
           else paced key (px l * nanos_per_milli) es'
      else paced key left es'
  | _ :: es' => paced key left es'
  end.

(** * Properties *)

(** ** The store: reading back what was written *)

Section store_facts.
Implicit Types (s : store) (k f v : string) (l : list string).

Lemma lrange_put_list_eq k l s : lrange k (put_list k l s) = l.
Proof.
  unfold lrange, put_list; simpl. destruct l.
  - by rewrite lookup_delete_eq.
  - by rewrite lookup_insert_eq.
Qed.

Lemma lrange_put_list_ne k k' l s : k ≠ k' → lrange k' (put_list k l s) = lrange k' s.
Proof.
  intros Hne. unfold lrange, put_list; simpl. destruct l.
  - by rewrite lookup_delete_ne.
  - by rewrite lookup_insert_ne.
Qed.

Lemma hgetall_put_hash_eq k (h : gmap string string) s : hgetall k (put_hash k h s) = h.
Proof.
  unfold hgetall, put_hash; simpl. case_decide.
  - subst h. by rewrite lookup_delete_eq.
  - by rewrite lookup_insert_eq.
Qed.

Lemma hgetall_put_list k k' l s : hgetall k (put_list k' l s) = hgetall k s.
Proof. reflexivity. Qed.

Lemma lrange_put_hash k k' (h : gmap string string) s : lrange k (put_hash k' h s) = lrange k s.
Proof. reflexivity. Qed.

Lemma length_append (a b : string) :
  String.length (a +:+ b) = String.length a + String.length b.
Proof. induction a as [|c a IH]; simpl; [done | by rewrite IH]. Qed.

Lemma processing_ne q : processing q ≠ q.
Proof.
  intros E. apply (f_equal String.length) in E.
  unfold processing in E. rewrite length_append in E. simpl in E. lia.
Qed.

End store_facts.

(** ** Connections *)

Lemma next_fault_at w : next_fault w = fault_at 0 w.
Proof. unfold next_fault, fault_at. by destruct (wire w). Qed.

Lemma fault_at_sent n t s w : fault_at n (mkWorld t s (sent w)) = fault_at (S n) w.
Proof. unfold fault_at, sent; simpl. by destruct (wire w). Qed.

Lemma healthy_sent t s w : healthy w → healthy (mkWorld t s (sent w)).
Proof. intros H n. rewrite fault_at_sent. apply H. Qed.

Lemma healthy_next w : healthy w → next_fault w = None.
Proof. intros H. rewrite next_fault_at. apply H. Qed.

(** ** Transactions of the queue, as seen on the three keys *)

Section batches.
Implicit Types (s : store) (q k p : string).

Lemma submit_batch t q k p s :
  let s' := (exec_batch t [LPUSH q k; HSET (payloads q) k p] s).2 in
  lrange q s' = k :: lrange q s
  ∧ lrange (processing q) s' = lrange (processing q) s
  ∧ hgetall (payloads q) s' = <[k:=p]> (hgetall (payloads q) s)
  ∧ leases s' = leases s.
Proof.
  simpl. rewrite lrange_put_hash, hgetall_put_hash_eq, lrange_put_hash.
  rewrite lrange_put_list_eq, hgetall_put_list.
  rewrite lrange_put_list_ne by (apply not_eq_sym, processing_ne). done.
Qed.

Lemma resubmit_batch t q k s :
  let s' := (exec_batch t [LREM (processing q) 0 k; LPUSH q k] s).2 in
  lrange q s' = k :: lrange q s
  ∧ lrange (processing q) s' = filter (λ x, x ≠ k) (lrange (processing q) s)
  ∧ hashes s' = hashes s
  ∧ leases s' = leases s.
Proof.
  simpl. rewrite lrange_put_list_eq.
  rewrite !(lrange_put_list_ne (processing q) q) by apply processing_ne.
  rewrite lrange_put_list_ne by (apply not_eq_sym, processing_ne).
  by rewrite lrange_put_list_eq.
Qed.

Lemma complete_batch t q k s :
  let s' := (exec_batch t [LREM (processing q) 0 k; HDEL (payloads q) k] s).2 in
  lrange q s' = lrange q s
  ∧ lrange (processing q) s' = filter (λ x, x ≠ k) (lrange (processing q) s)
  ∧ hgetall (payloads q) s' = delete k (hgetall (payloads q) s)
  ∧ leases s' = leases s.
Proof.
  simpl. rewrite !lrange_put_hash, hgetall_put_hash_eq, hgetall_put_list.
  rewrite lrange_put_list_eq.
  rewrite lrange_put_list_ne by apply processing_ne. done.
Qed.

(** Tail of [src] to head of [dst], for two different keys. *)
Lemma move_tail src dst x s :
  src ≠ dst → last (lrange src s) = Some x →
  let s' := put_list dst (x :: lrange dst (put_list src (removelast (lrange src s)) s))
                     (put_list src (removelast (lrange src s)) s) in
  lrange src s' = removelast (lrange src s)
  ∧ lrange dst s' = x :: lrange dst s
  ∧ hashes s' = hashes s
  ∧ leases s' = leases s.
Proof.
  intros Hne Hlast. simpl.
  rewrite lrange_put_list_eq.
  rewrite (lrange_put_list_ne dst src) by congruence.
  rewrite lrange_put_list_eq.
  by rewrite lrange_put_list_ne by done.
Qed.

End batches.

(** ** Submit *)

(** C4, evaluated: for a job whose type implements [JobQueueKeyer],
    [jobQueueMarshal] returns the JSON text as the key and the custom key as
    the payload, so [Submit] indexes the job under its JSON text and stores the
    custom key where the payload should be: two jobs with the same custom key
    and different JSON texts are both accepted. *)
Theorem jobQueueMarshal_keyer_swapped :
  let a := mkJob (inl "[1,7]") (Some "1") in
  let b := mkJob (inl "[1,8]") (Some "1") in
  let c := NewJobQueue "jobs" in
  let w := mkWorld 0 Redis.empty [] in
  jobQueueMarshal a = ("[1,7]", "1", None)
  ∧ (Submit c a w).1 = Returns None
  ∧ (Submit c b (Submit c a w).2).1 = Returns None
  ∧ lrange "jobs" (db (Submit c b (Submit c a w).2).2) = ["[1,8]"; "[1,7]"]
  ∧ hgetall "jobs:payload" (db (Submit c a w).2) !! "[1,7]" = Some "1"
  ∧ hgetall "jobs:payload" (db (Submit c a w).2) !! "1" = None.
Proof. vm_compute. repeat split. Qed.

(** The part of C4 that holds: without [JobQueueKeyer] the key is the
    serialized payload. *)
Lemma jobQueueMarshal_plain payload :
  jobQueueMarshal (mkJob (inl payload) None) = (payload, payload, None).
Proof. reflexivity. Qed.

Lemma jobQueueMarshal_keyer payload k :
  jobQueueMarshal (mkJob (inl payload) (Some k)) = (payload, k, None).
Proof. reflexivity. Qed.

(** C3, as stated, fails: when the membership check meets a store error,
    [Submit] answers [ErrAlreadyQueued] although the key is not in the index,
    and the store error (which [IsQueued] reports) is not what the caller
    gets. *)
Lemma Submit_store_error_reported_as_queued :
  let job := mkJob (inl "[1,7]") None in
  let c := NewJobQueue "jobs" in
  let w := mkWorld 0 Redis.empty [Some (Refused "EOF")] in
  (IsQueued c job w).1 = Returns (false, Some (NetError "EOF"))
  ∧ hgetall (payloads (Queue c)) (db w) !! "[1,7]" = None
  ∧ (Submit c job w).1 = Returns (Some ErrAlreadyQueued)
  ∧ (Submit c job w).1 ≠ Returns (Some (NetError "EOF")).
Proof. vm_compute. repeat split; discriminate. Qed.

(** What [Submit] does for a job that serializes, by connection behaviour. *)
Lemma Submit_cases (c : JobQueue) (p : string) (ky : option string) (w : World) :
  let job := mkJob (inl p) ky in
  let q := Queue c in
  let idx := hgetall (payloads q) (db w) in
  let r := (Submit c job w).1 in
  let w' := (Submit c job w).2 in
  (r = Returns (Some ErrAlreadyQueued) ↔ is_Some (idx !! p) ∨ fault_at 0 w ≠ None)
  ∧ (r = Returns (Some ErrAlreadyQueued) → db w' = db w)
  ∧ (idx !! p = None → fault_at 0 w = None →
       match fault_at 1 w with
       | Some (Refused msg) => r = Returns (Some (NetError msg)) ∧ db w' = db w
       | other =>
           r = Returns (match other with Some (Severed msg) => Some (NetError msg) | _ => None end)
           ∧ lrange q (db w') = p :: lrange q (db w)
           ∧ hgetall (payloads q) (db w') = <[p:=(jobQueueMarshal job).1.2]> idx
           ∧ lrange (processing q) (db w') = lrange (processing q) (db w)
       end).
Proof.
  intros job q idx r w'.
  assert (Hm : jobQueueMarshal job = (p, default p ky, None)) by (by destruct ky).
  subst r w'. unfold Submit, IsQueued, bind, Do. rewrite Hm. simpl.
  rewrite next_fault_at. fold q. fold idx.
  destruct (fault_at 0 w) as [[m|m]|] eqn:F0; simpl.
  - split_and!; [split; [right; done | done] | done | done].
  - split_and!; [split; [right; done | done] | done | done].
  - destruct (idx !! p) as [d|] eqn:Hidx; simpl.
    + split_and!; [split; [left; eauto | done] | done | done].
    + unfold Submit_exec, DoExec. rewrite next_fault_at, fault_at_sent.
      pose proof (submit_batch (now w) q p (default p ky) (db w)) as (H1 & H2 & H3 & _).
      fold idx in H3.
      destruct (fault_at 1 w) as [[m|m]|] eqn:F1; simpl in *.
      * split_and!; [split; [done | intros [[? ?]|?]; congruence] | done | done].
      * split_and!; [split; [done | intros [[? ?]|?]; congruence] | done | done].
      * split_and!; [split; [done | intros [[? ?]|?]; congruence] | done | done].
Qed.

(** C3, amended: for a job that serializes, [Submit] answers
    [ErrAlreadyQueued] exactly when the key is in the index or the membership
    check fails, and then changes nothing in the store; otherwise the key is
    pushed on the head of the waiting list and added to the index in one
    transaction, whose error (if any) is returned; a transaction that never
    reached the server changes nothing. *)
Theorem Submit_rejects_or_enqueues (c : JobQueue) (p : string) (ky : option string) (w : World) :
  let job := mkJob (inl p) ky in
  let q := Queue c in
  let idx := hgetall (payloads q) (db w) in
  let r := (Submit c job w).1 in
  let w' := (Submit c job w).2 in
  (r = Returns (Some ErrAlreadyQueued) ↔ is_Some (idx !! p) ∨ fault_at 0 w ≠ None)
  ∧ (r = Returns (Some ErrAlreadyQueued) → db w' = db w)
  ∧ (idx !! p = None → fault_at 0 w = None →
       match fault_at 1 w with
       | Some (Refused msg) => r = Returns (Some (NetError msg)) ∧ db w' = db w
       | other =>
           r = Returns (match other with Some (Severed msg) => Some (NetError msg) | _ => None end)
           ∧ lrange q (db w') = p :: lrange q (db w)
           ∧ hgetall (payloads q) (db w') = <[p:=(jobQueueMarshal job).1.2]> idx
           ∧ lrange (processing q) (db w') = lrange (processing q) (db w)
       end).
Proof. apply Submit_cases. Qed.

Lemma Submit_queued (c : JobQueue) (p : string) (ky : option string) (w : World) :
  is_Some (hgetall (payloads (Queue c)) (db w) !! p) →
  (Submit c (mkJob (inl p) ky) w).1 = Returns (Some ErrAlreadyQueued)
  ∧ db (Submit c (mkJob (inl p) ky) w).2 = db w.
Proof.
  intros Hin. destruct (Submit_cases c p ky w) as (H1 & H2 & _). simpl in *.
  assert (E : (Submit c (mkJob (inl p) ky) w).1 = Returns (Some ErrAlreadyQueued))
    by (apply H1; by left).
  split; [done | by apply H2].
Qed.

Lemma IsQueued_indexed (c : JobQueue) (p : string) (ky : option string) (w : World) :
  fault_at 0 w = None →
  (IsQueued c (mkJob (inl p) ky) w).1
  = Returns (bool_decide (is_Some (hgetall (payloads (Queue c)) (db w) !! p)), None).
Proof.
  intros F0.
  assert (Hm : jobQueueMarshal (mkJob (inl p) ky) = (p, default p ky, None)) by (by destruct ky).
  unfold IsQueued, bind, Do. rewrite Hm. simpl. rewrite next_fault_at, F0. simpl.
  destruct (hgetall (payloads (Queue c)) (db w) !! p) eqn:E; simpl; done.
Qed.


(** ** Get *)

(** The pop of [Get] on a healthy round trip. *)
Lemma Get_pop (c : JobQueue) (w : World) (k : string) :
  fault_at 0 w = None →
  last (lrange (Queue c) (db w)) = Some k →
  ∃ s1, Do (BRPOPLPUSH (Queue c) (processing (Queue c)) 0) w
        = (Returns (inl (Bulk k)), mkWorld (now w) s1 (sent w))
      ∧ lrange (Queue c) s1 = removelast (lrange (Queue c) (db w))
      ∧ lrange (processing (Queue c)) s1 = k :: lrange (processing (Queue c)) (db w)
      ∧ hashes s1 = hashes (db w)
      ∧ leases s1 = leases (db w).
Proof.
  intros F0 Hlast. unfold Do. rewrite next_fault_at, F0. simpl. rewrite Hlast.
  eexists. split; [reflexivity |].
  apply move_tail; [apply not_eq_sym, processing_ne | done].
Qed.

(** ** Resubmit *)

Lemma Resubmit_cases (q k : string) (w : World) :
  ∃ s', (Resubmit (mkWork q k) w).2 = mkWorld (now w) s' (sent w)
  ∧ hashes s' = hashes (db w)
  ∧ leases s' = leases (db w)
  ∧ match fault_at 0 w with
    | Some (Refused msg) =>
        (Resubmit (mkWork q k) w).1 = Returns (Some (NetError msg)) ∧ s' = db w
    | other =>
        (Resubmit (mkWork q k) w).1
        = Returns (match other with Some (Severed msg) => Some (NetError msg) | _ => None end)
        ∧ lrange q s' = k :: lrange q (db w)
        ∧ lrange (processing q) s' = filter (λ x, x ≠ k) (lrange (processing q) (db w))
    end.
Proof.
  unfold Resubmit, DoExec. rewrite next_fault_at.
  pose proof (resubmit_batch (now w) q k (db w)) as (R1 & R2 & R3 & R4).
  destruct (fault_at 0 w) as [[m|m]|]; simpl in *; eexists; split_and!; try done.
Qed.


(** The failure branch of [Get]. *)
Lemma resubmit_or_panic (q k : string) (e' : error) (w1 : World) :
  let m : Go (option Work * option error) :=
    bind (Resubmit (mkWork q k)) (λ rerr,
      match rerr with
      | Some re => panic ("could not resubmit job: " +:+ error_text re)
      | None => ret (None, Some e')
      end) in
  match fault_at 0 w1 with
  | None =>
      ∃ s', m w1 = (Returns (None, Some e'), mkWorld (now w1) s' (sent w1))
          ∧ lrange q s' = k :: lrange q (db w1)
          ∧ lrange (processing q) s' = filter (λ x, x ≠ k) (lrange (processing q) (db w1))
          ∧ hashes s' = hashes (db w1)
  | Some (Refused msg) | Some (Severed msg) =>
      (m w1).1 = Panics ("could not resubmit job: " +:+ msg)
  end.
Proof.
  intros m. subst m. unfold bind.
  destruct (Resubmit_cases q k w1) as (s' & E & Hh & _ & Hc).
  destruct (Resubmit (mkWork q k) w1) as [o w2]. simpl in *. subst w2.
  destruct (fault_at 0 w1) as [[msg|msg]|]; destruct Hc as [-> Hc]; simpl; try done.
  destruct Hc as [? ?]. by exists s'.
Qed.

(** C5: when the payload of the popped key cannot be fetched or decoded, [Get]
    puts the key back (one transaction: out of the processing list, onto the
    head of the waiting list, index untouched) and returns that error and no
    handle; when this transaction fails, [Get] panics. *)
Theorem Get_resubmits_undecodable (c : JobQueue) (v : Decoder) (w : World)
    (k : string) (e : error) :
  let q := Queue c in
  let r := (Get c v w).1 in
  let w' := (Get c v w).2 in
  fault_at 0 w = None →
  last (lrange q (db w)) = Some k →
  match fault_at 1 w with
  | Some (Refused msg) | Some (Severed msg) => e = NetError msg
  | None => match hgetall (payloads q) (db w) !! k with
            | None => e = ErrNil
            | Some d => v d = Some e
            end
  end →
  match fault_at 2 w with
  | None =>
      r = Returns (None, Some e)
      ∧ lrange q (db w') = k :: removelast (lrange q (db w))
      ∧ lrange (processing q) (db w') = filter (λ x, x ≠ k) (lrange (processing q) (db w))
      ∧ hashes (db w') = hashes (db w)
  | Some (Refused msg) | Some (Severed msg) =>
      r = Panics ("could not resubmit job: " +:+ msg)
  end.
Proof.
  intros q r w' F0 Hlast He. subst r w'.
  destruct (Get_pop c w k F0 Hlast) as (s1 & Hpop & Hq & Hp & Hh & _).
  unfold Get, bind. rewrite Hpop. simpl.
  assert (Hidx : hgetall (payloads q) s1 = hgetall (payloads q) (db w))
    by (unfold hgetall; by rewrite Hh).
  unfold Do. rewrite next_fault_at, fault_at_sent. simpl. fold q. rewrite Hidx.
  set (w1 := mkWorld (now w) s1 (sent (mkWorld (now w) s1 (sent w)))).
  assert (Hres : ∀ e' : error,
    let m := bind (Resubmit (mkWork q k)) (λ rerr,
               match rerr with
               | Some re => panic ("could not resubmit job: " +:+ error_text re)
               | None => ret (None : option Work, Some e')
               end) w1 in
    match fault_at 2 w with
    | None =>
        m.1 = Returns (None, Some e')
        ∧ lrange q (db m.2) = k :: removelast (lrange q (db w))
        ∧ lrange (processing q) (db m.2)
          = filter (λ x, x ≠ k) (lrange (processing q) (db w))
        ∧ hashes (db m.2) = hashes (db w)
    | Some (Refused msg) | Some (Severed msg) =>
        m.1 = Panics ("could not resubmit job: " +:+ msg)
    end).
  { intros e'. pose proof (resubmit_or_panic q k e' w1) as H. simpl in H.
    unfold w1 in H at 1. rewrite !fault_at_sent in H.
    destruct (fault_at 2 w) as [[msg|msg]|]; try done.
    destruct H as (s' & -> & H2 & H3 & H4). simpl in *.
    rewrite H2, H3, H4. fold q in Hq, Hp. rewrite Hq, Hp, Hh.
    rewrite filter_cons_False by (intros ?; congruence). done. }
  destruct (fault_at 1 w) as [[m|m]|] eqn:F1; simpl.
  - subst e. apply (Hres (NetError m)).
  - subst e. apply (Hres (NetError m)).
  - destruct (hgetall (payloads q) (db w) !! k) as [d|]; simpl.
    + unfold jobQueueUnmarshal. rewrite He. apply (Hres e).
    + subst e. apply (Hres ErrNil).
Qed.

Lemma Get_resubmits_undecodable_witness :
  let c := NewJobQueue "jobs" in
  let v : Decoder := λ d, if decide (d = "[1,7]") then None else Some (JSONError "invalid character") in
  let w := (Submit c (mkJob (inl "[1,7]") (Some "1")) (mkWorld 0 Redis.empty [])).2 in
  (Get c v w).1 = Returns (None, Some (JSONError "invalid character"))
  ∧ lrange "jobs" (db (Get c v w).2) = ["[1,7]"]
  ∧ lrange "jobs:processing" (db (Get c v w).2) = []
  ∧ hashes (db (Get c v w).2) = hashes (db w).
Proof.
  intros c v w.
  exact (Get_resubmits_undecodable c v w "[1,7]" (JSONError "invalid character")
           eq_refl eq_refl eq_refl).
Defined.

(** C9: [Resubmit] takes the key of the handle out of the processing list and
    pushes it on the head of the waiting list in one transaction (all of it or,
    when the request never arrives, none of it), and never touches the index:
    for a handle whose key is indexed, [IsQueued] on the job still reports true
    and [Submit] of the job, before or after, is rejected with
    [ErrAlreadyQueued] and changes nothing. *)
Theorem Resubmit_keeps_index (c : JobQueue) (k : string) (ky : option string) (w : World) :
  let q := Queue c in
  let h := mkWork q k in
  let job := mkJob (inl k) ky in
  let r := (Resubmit h w).1 in
  let w' := (Resubmit h w).2 in
  is_Some (hgetall (payloads q) (db w) !! k) →
  hashes (db w') = hashes (db w)
  ∧ match fault_at 0 w with
    | Some (Refused msg) => r = Returns (Some (NetError msg)) ∧ db w' = db w
    | other =>
        r = Returns (match other with Some (Severed msg) => Some (NetError msg) | _ => None end)
        ∧ lrange (processing q) (db w') = filter (λ x, x ≠ k) (lrange (processing q) (db w))
        ∧ lrange q (db w') = k :: lrange q (db w)
    end
  ∧ (fault_at 1 w = None → (IsQueued c job w').1 = Returns (true, None))
  ∧ (Submit c job w).1 = Returns (Some ErrAlreadyQueued)
  ∧ (Submit c job w').1 = Returns (Some ErrAlreadyQueued)
  ∧ db (Submit c job w').2 = db w'.
Proof.
  intros q h job r w' Hin. subst r w' h.
  destruct (Resubmit_cases q k w) as (s' & E & Hh & _ & Hc).
  assert (Hin' : is_Some (hgetall (payloads q) (db (Resubmit (mkWork q k) w).2) !! k)).
  { rewrite E. unfold hgetall. simpl. by rewrite Hh. }
  split_and!.
  - by rewrite E.
  - rewrite E. simpl.
    destruct (fault_at 0 w) as [[m|m]|]; destruct Hc as [-> Hc]; try done;
      destruct Hc as [-> ->]; done.
  - intros F1. unfold job. rewrite IsQueued_indexed.
    + by rewrite bool_decide_eq_true_2.
    + rewrite E. by rewrite fault_at_sent.
  - by apply Submit_queued.
  - by apply Submit_queued.
  - by apply Submit_queued.
Qed.

Lemma Resubmit_keeps_index_witness :
  let c := NewJobQueue "jobs" in
  let job := mkJob (inl "[1,7]") None in
  let w := (Get c (λ _, None) (Submit c job (mkWorld 0 Redis.empty [])).2).2 in
  let h := mkWork "jobs" "[1,7]" in
  lrange "jobs:processing" (db w) = ["[1,7]"]
  ∧ hashes (db (Resubmit h w).2) = hashes (db w)
  ∧ ((Resubmit h w).1 = Returns None
     ∧ lrange "jobs:processing" (db (Resubmit h w).2) = []
     ∧ lrange "jobs" (db (Resubmit h w).2) = ["[1,7]"])
  ∧ (fault_at 1 w = None → (IsQueued c job (Resubmit h w).2).1 = Returns (true, None))
  ∧ (Submit c job w).1 = Returns (Some ErrAlreadyQueued)
  ∧ (Submit c job (Resubmit h w).2).1 = Returns (Some ErrAlreadyQueued)
  ∧ db (Submit c job (Resubmit h w).2).2 = db (Resubmit h w).2.
Proof.
  intros c job w h. split; [reflexivity |].
  exact (Resubmit_keeps_index c "[1,7]" None w (ex_intro _ "[1,7]" eq_refl)).
Defined.

Lemma healthy_nil t s : healthy (mkWorld t s []).
Proof. intros n. unfold fault_at. simpl. by destruct n. Qed.

Lemma Do_healthy (cmd : command) (w : World) (r : reply) (s' : store) :
  healthy w → exec (now w) cmd (db w) = (Some r, s') → (∀ msg, r ≠ Error msg) →
  Do cmd w = (Returns (inl r), mkWorld (now w) s' (sent w)).
Proof.
  intros H E Hr. unfold Do. rewrite (healthy_next w H), E.
  destruct r; try done. by destruct (Hr msg).
Qed.

(** ** Cleanup *)

Section cleanup.
Variable c : JobQueue.
Let q := Queue c.

Lemma Cleanup_step (fuel : nat) (w : World) (x : string) :
  healthy w → last (lrange (processing q) (db w)) = Some x →
  ∃ s', Cleanup (S fuel) c w = Cleanup fuel c (mkWorld (now w) s' (sent w))
      ∧ lrange (processing q) s' = removelast (lrange (processing q) (db w))
      ∧ lrange q s' = x :: lrange q (db w)
      ∧ hashes s' = hashes (db w)
      ∧ leases s' = leases (db w).
Proof.
  intros Hw Hlast. eexists. split.
  - unfold Cleanup. simpl. fold q.
    erewrite Do_healthy; [| done | simpl; rewrite Hlast; reflexivity | done].
    reflexivity.
  - by apply move_tail; [apply processing_ne |].
Qed.

Lemma Cleanup_stop (fuel : nat) (w : World) :
  healthy w → lrange (processing q) (db w) = [] →
  Cleanup (S fuel) c w = Some (Returns None, mkWorld (now w) (db w) (sent w)).
Proof.
  intros Hw Hnil. unfold Cleanup. simpl. fold q.
  erewrite Do_healthy; [| done | simpl; rewrite Hnil; reflexivity | done].
  reflexivity.
Qed.

Lemma Cleanup_drains (fuel : nat) : ∀ w,
  healthy w → length (lrange (processing q) (db w)) < fuel →
  ∃ w', Cleanup fuel c w = Some (Returns None, w')
      ∧ healthy w'
      ∧ lrange (processing q) (db w') = []
      ∧ lrange q (db w') = lrange (processing q) (db w) ++ lrange q (db w)
      ∧ hashes (db w') = hashes (db w)
      ∧ leases (db w') = leases (db w)
      ∧ (lrange (processing q) (db w) = [] → db w' = db w).
Proof.
  induction fuel as [|fuel IH]; intros w Hw Hlen; [lia |].
  destruct (last (lrange (processing q) (db w))) as [x|] eqn:Hlast.
  - destruct (Cleanup_step fuel w x Hw Hlast) as (s' & E & M1 & M2 & M3 & M4).
    apply last_Some in Hlast as [P' HP].
    rewrite HP, removelast_last in M1.
    destruct (IH (mkWorld (now w) s' (sent w))) as (w' & E' & Hh & E1 & E2 & E3 & E4 & _).
    { by apply healthy_sent. }
    { simpl. rewrite M1. rewrite HP, length_app in Hlen. simpl in Hlen. lia. }
    exists w'. simpl in *. rewrite E, E'. split_and!; try done.
    + rewrite E2, M1, M2, HP. by rewrite <- app_assoc.
    + by rewrite E3.
    + by rewrite E4.
    + rewrite HP. by destruct P'.
  - apply last_None in Hlast. rewrite Cleanup_stop by done.
    eexists. split_and!; try done.
    + by apply healthy_sent.
    + simpl. by rewrite Hlast.
Qed.

Lemma Get_healthy (v : Decoder) (w : World) (x : string) :
  healthy w → last (lrange q (db w)) = Some x →
  ∃ r w', Get c v w = (Returns r, w')
      ∧ healthy w'
      ∧ hashes (db w') = hashes (db w)
      ∧ (lrange q (db w') = removelast (lrange q (db w))
         ∨ lrange q (db w') = x :: removelast (lrange q (db w)))
      ∧ (∀ d, hgetall (payloads q) (db w) !! x = Some d → v d = None →
           r = (Some (mkWork q x), None)
           ∧ lrange q (db w') = removelast (lrange q (db w))
           ∧ lrange (processing q) (db w') = x :: lrange (processing q) (db w)).
Proof.
  intros Hw Hlast.
  destruct (Get_pop c w x (Hw 0) Hlast) as (s1 & Hpop & Hq & Hp & Hh & _).
  assert (Hidx : hgetall (payloads q) s1 = hgetall (payloads q) (db w))
    by (unfold hgetall; by rewrite Hh).
  unfold Get, bind. rewrite Hpop. simpl.
  unfold Do. rewrite next_fault_at, fault_at_sent, (Hw 1). simpl. fold q. rewrite Hidx.
  set (w1 := mkWorld (now w) s1 (sent (mkWorld (now w) s1 (sent w)))).
  assert (Hw1 : healthy w1) by (by apply healthy_sent, healthy_sent).
  assert (Hres : ∀ e' : error,
    ∃ w', bind (Resubmit (mkWork q x)) (λ rerr,
           match rerr with
           | Some re => panic ("could not resubmit job: " +:+ error_text re)
           | None => ret (None : option Work, Some e')
           end) w1 = (Returns (None, Some e'), w')
        ∧ healthy w' ∧ hashes (db w') = hashes (db w)
        ∧ lrange q (db w') = x :: removelast (lrange q (db w))).
  { intros e'. pose proof (resubmit_or_panic q x e' w1) as H. simpl in H.
    rewrite (Hw1 0) in H. destruct H as (s2 & E & H2 & _ & H4).
    eexists. split; [exact E |]. simpl. split_and!.
    - by apply healthy_sent.
    - by rewrite H4.
    - rewrite H2. fold q in Hq. by rewrite Hq. }
  destruct (hgetall (payloads q) (db w) !! x) as [d|] eqn:Hd; simpl.
  - unfold jobQueueUnmarshal. destruct (v d) as [e|] eqn:Hv.
    + destruct (Hres e) as (w' & E & H1 & H2 & H3).
      exists (None, Some e), w'. split_and!; [done | done | done | by right |].
      intros d' [= <-] Hv'. congruence.
    + eexists _, _. split_and!; [done | by apply healthy_sent, healthy_sent | done | by left |].
      intros d' [= <-] _. done.
  - destruct (Hres ErrNil) as (w' & E & H1 & H2 & H3).
    exists (None, Some ErrNil), w'. split_and!; [done | done | done | by right | done].
Qed.

Lemma Gets_reach (v : Decoder) (J : string) (suf : list string) : ∀ pre w,
  healthy w → lrange q (db w) = pre ++ J :: suf →
  ∃ w' pre', Gets (length suf) c v w = Some w'
      ∧ healthy w'
      ∧ hashes (db w') = hashes (db w)
      ∧ lrange q (db w') = pre' ++ [J].
Proof.
  induction suf as [|x suf IH] using rev_ind; intros pre w Hw Hq.
  - exists w, pre. done.
  - assert (Hlast : last (lrange q (db w)) = Some x).
    { rewrite Hq. rewrite app_comm_cons, app_assoc. apply last_snoc. }
    assert (Hrem : removelast (lrange q (db w)) = pre ++ J :: suf).
    { rewrite Hq. rewrite app_comm_cons, app_assoc. apply removelast_last. }
    destruct (Get_healthy v w x Hw Hlast) as (r & w1 & E & Hw1 & Hh & Hl & _).
    rewrite length_app, Nat.add_comm. simpl. rewrite E.
    destruct Hl as [Hl|Hl]; rewrite Hrem in Hl.
    + destruct (IH pre w1 Hw1 Hl) as (w' & pre' & G & ? & ? & ?).
      exists w', pre'. split_and!; try done. congruence.
    + destruct (IH (x :: pre) w1 Hw1 Hl) as (w' & pre' & G & ? & ? & ?).
      exists w', pre'. split_and!; try done. congruence.
Qed.


(** C7: once [Get] has moved [J] to the processing list and the consumer is
    gone, [Cleanup] (with fuel for one round trip more than there are entries)
    returns [nil] with the processing list empty and its entries, in order, in
    front of the waiting list, each moved from the tail of the one to the head
    of the other; the index is as it was, and after some further calls of
    [Get] a [Get] hands out [J] again.  With nothing in the processing list,
    [Cleanup] returns [nil] and leaves the store as it is. *)
Theorem Cleanup_recovers (v : Decoder) (w : World) (J d : string) :
  let w1 := (Get c v w).2 in
  healthy w →
  last (lrange q (db w)) = Some J →
  hgetall (payloads q) (db w) !! J = Some d →
  v d = None →
  (Get c v w).1 = Returns (Some (mkWork q J), None)
  ∧ lrange (processing q) (db w1) = J :: lrange (processing q) (db w)
  ∧ (∀ fuel, length (lrange (processing q) (db w1)) < fuel →
      ∃ w2, Cleanup fuel c w1 = Some (Returns None, w2)
        ∧ lrange (processing q) (db w2) = []
        ∧ lrange q (db w2) = lrange (processing q) (db w1) ++ lrange q (db w1)
        ∧ hashes (db w2) = hashes (db w1)
        ∧ ∃ n w3, Gets n c v w2 = Some w3
            ∧ (Get c v w3).1 = Returns (Some (mkWork q J), None))
  ∧ (∀ w0 fuel, healthy w0 → lrange (processing q) (db w0) = [] → 0 < fuel →
      ∃ w', Cleanup fuel c w0 = Some (Returns None, w') ∧ db w' = db w0).
Proof.
  intros w1 Hw Hlast Hd Hv. subst w1.
  destruct (Get_healthy v w J Hw Hlast) as (r & w1 & E & Hw1 & Hh & _ & Hok).
  destruct (Hok d Hd Hv) as (-> & Hq1 & Hp1). rewrite E. simpl.
  split_and!; [done | done | |].
  - intros fuel Hfuel.
    destruct (Cleanup_drains fuel w1 Hw1 Hfuel) as (w2 & C & Hw2 & C1 & C2 & C3 & _).
    exists w2. split_and!; [done | done | done | done |].
    rewrite Hp1 in C2. simpl in C2.
    destruct (Gets_reach v J _ [] w2 Hw2 C2) as (w3 & pre' & G & Hw3 & Hh3 & Hq3).
    eexists. exists w3. split; [exact G |].
    assert (Hlast3 : last (lrange q (db w3)) = Some J) by (rewrite Hq3; apply last_snoc).
    destruct (Get_healthy v w3 J Hw3 Hlast3) as (r3 & w4 & E3 & _ & _ & _ & Hok3).
    rewrite E3. simpl. f_equal. apply (Hok3 d); [| done].
    unfold hgetall. by rewrite Hh3, C3, Hh.
  - intros w0 fuel Hw0 Hnil Hfuel.
    destruct (Cleanup_drains fuel w0 Hw0) as (w' & C & _ & _ & _ & _ & _ & Hsame).
    { rewrite Hnil. simpl. lia. }
    exists w'. split; [done | by apply Hsame].
Qed.

End cleanup.

Lemma Cleanup_recovers_witness :
  let c := NewJobQueue "jobs" in
  let v : Decoder := λ _, None in
  let w := (Submit c (mkJob (inl "[1,7]") None) (mkWorld 0 Redis.empty [])).2 in
  (Get c v w).1 = Returns (Some (mkWork "jobs" "[1,7]"), None)
  ∧ (∃ w2, Cleanup 2 c (Get c v w).2 = Some (Returns None, w2)
       ∧ lrange "jobs:processing" (db w2) = []
       ∧ lrange "jobs" (db w2) = ["[1,7]"]).
Proof.
  intros c v w.
  destruct (Cleanup_recovers c v w "[1,7]" "[1,7]" (healthy_nil _ _) eq_refl eq_refl eq_refl)
    as (H1 & _ & H3 & _).
  split; [exact H1 |].
  destruct (H3 2) as (w2 & C & P & Q & _); [vm_compute; lia |].
  exists w2. split_and!; [exact C | exact P | exact Q].
Defined.

(** ** Conservation *)

Lemma pop_cases (c : JobQueue) (w : World) :
  let q := Queue c in
  let m := Do (BRPOPLPUSH q (processing q) 0) w in
  (db m.2 = db w ∧ (m.1 = Blocks ∨ ∃ e, m.1 = Returns (inr e)))
  ∨ (∃ k, popped q k (db w) (db m.2)
        ∧ (m.1 = Returns (inl (Bulk k)) ∧ m.2 = mkWorld (now w) (db m.2) (sent w)
           ∨ ∃ msg, m.1 = Returns (inr (NetError msg)))).
Proof.
  intros q m. subst m. unfold Do.
  destruct (last (lrange q (db w))) as [k|] eqn:Hlast.
  - pose proof (move_tail q (processing q) k (db w) (not_eq_sym (processing_ne q)) Hlast)
      as (M1 & M2 & M3 & _).
    destruct (next_fault w) as [[m|m]|]; simpl; rewrite ?Hlast; simpl.
    + left. eauto.
    + right. exists k. split; [done | right; eauto].
    + right. exists k. split; [done | left; done].
  - destruct (next_fault w) as [[m|m]|]; simpl; rewrite ?Hlast; simpl; left; eauto.
Qed.

Lemma hget_world (k f : string) (w : World) :
  ∃ x, Do (HGET k f) w = (Returns x, mkWorld (now w) (db w) (sent w)).
Proof.
  unfold Do. destruct (next_fault w) as [[m|m]|]; simpl; eauto.
  destruct (hgetall k (db w) !! f); eauto.
Qed.

Lemma Get_effect (c : JobQueue) (v : Decoder) (w : World) :
  let q := Queue c in
  let r := (Get c v w).1 in
  let s' := db (Get c v w).2 in
  (s' = db w ∧ handle_of r = None)
  ∨ (∃ k, popped q k (db w) s'
        ∧ (handle_of r = None ∨ handle_of r = Some (mkWork q k)))
  ∨ (∃ k s1, popped q k (db w) s1 ∧ requeued q k s1 s' ∧ handle_of r = None).
Proof.
  intros q r s'. subst r s'. unfold Get, bind.
  pose proof (pop_cases c w) as Hpop. simpl in Hpop. fold q in Hpop |- *.
  destruct (Do (BRPOPLPUSH q (processing q) 0) w) as [o w1]. simpl in Hpop.
  destruct Hpop as [[Hs Hno] | (k & Hp & [[-> Hw1] | [msg ->]])].
  - left. destruct Hno as [-> | [e ->]]; done.
  - simpl.
    destruct (hget_world (payloads q) k w1) as (x & ->).
    set (w2 := mkWorld (now w1) (db w1) (sent w1)).
    assert (Hres : ∀ e' : error,
      let m := bind (Resubmit (mkWork q k)) (λ rerr,
           match rerr with
           | Some re => panic ("could not resubmit job: " +:+ error_text re)
           | None => ret (None : option Work, Some e')
           end) w2 in
      handle_of m.1 = None ∧ (db m.2 = db w1 ∨ requeued q k (db w1) (db m.2))).
    { intros e'. simpl. unfold bind.
      destruct (Resubmit_cases q k w2) as (s2 & E & Hh & _ & Hc).
      destruct (Resubmit (mkWork q k) w2) as [o2 w3]. simpl in *. subst w3.
      destruct (fault_at 0 w2) as [[m|m]|]; destruct Hc as [-> Hc]; simpl.
      - split; [done | left; done].
      - split; [done | right; by destruct Hc].
      - split; [done | right; by destruct Hc]. }
    assert (Hfin : ∀ e' : error,
      let m := bind (Resubmit (mkWork q k)) (λ rerr,
           match rerr with
           | Some re => panic ("could not resubmit job: " +:+ error_text re)
           | None => ret (None : option Work, Some e')
           end) w2 in
      (db m.2 = db w ∧ handle_of m.1 = None)
      ∨ (∃ k, popped q k (db w) (db m.2)
           ∧ (handle_of m.1 = None ∨ handle_of m.1 = Some (mkWork q k)))
      ∨ (∃ k s1, popped q k (db w) s1 ∧ requeued q k s1 (db m.2) ∧ handle_of m.1 = None)).
    { intros e' m. destruct (Hres e') as [Hn [Hs|Hr]]; fold m in Hn |- *.
      - fold m in Hs. right; left. exists k. rewrite Hs. eauto.
      - fold m in Hr. right; right. exists k, (db w1). eauto. }
    destruct (Bytes x) as [d [e|]] eqn:HB; simpl.
    + apply Hfin.
    + unfold jobQueueUnmarshal. destruct (v d) as [e|].
      * apply Hfin.
      * right; left. exists k. simpl. eauto.
  - right; left. exists k. simpl. eauto.
Qed.

Lemma Submit_effect (c : JobQueue) (job : Job) (w : World) :
  let s' := db (Submit c job w).2 in
  s' = db w ∨ ∃ p stored, enqueued (Queue c) p stored (db w) s'.
Proof.
  destruct job as [[p|msg] ky]; simpl.
  - destruct (Submit_cases c p ky w) as (H1 & H2 & H3). simpl in *.
    destruct (hgetall (payloads (Queue c)) (db w) !! p) as [d|] eqn:Hd.
    { left. apply H2, H1. left. eauto. }
    destruct (fault_at 0 w) as [f|] eqn:F0.
    { left. apply H2, H1. right. done. }
    specialize (H3 eq_refl eq_refl).
    destruct (fault_at 1 w) as [[m|m]|].
    + left. apply H3.
    + right. destruct H3 as (_ & ? & ? & ?). eexists _, _. split_and!; eauto.
    + right. destruct H3 as (_ & ? & ? & ?). eexists _, _. split_and!; eauto.
  - left. reflexivity.
Qed.

Lemma Complete_effect (q k : string) (w : World) :
  let s' := db (Complete (mkWork q k) w).2 in
  s' = db w ∨ completed q k (db w) s'.
Proof.
  unfold Complete, DoExec.
  pose proof (complete_batch (now w) q k (db w)) as (R1 & R2 & R3 & _).
  destruct (next_fault w) as [[m|m]|]; simpl in *; [by left | by right | by right].
Qed.

Lemma Resubmit_effect (q k : string) (w : World) :
  let s' := db (Resubmit (mkWork q k) w).2 in
  s' = db w ∨ requeued q k (db w) s'.
Proof.
  simpl. destruct (Resubmit_cases q k w) as (s2 & -> & Hh & _ & Hc). simpl.
  destruct (fault_at 0 w) as [[m|m]|]; destruct Hc as [_ Hc];
    [by left | right; by destruct Hc | right; by destruct Hc].
Qed.

Section tidy.
Variable q : string.
Implicit Types (s : store) (k : string).

Lemma hgetall_same k' s s' : hashes s' = hashes s → hgetall k' s' = hgetall k' s.
Proof. unfold hgetall. by intros ->. Qed.

Lemma tidy_enqueued p stored s s' :
  tidy q s → enqueued q p stored s s' → tidy q s'.
Proof.
  intros [Hnd Hidx] (Hnone & E1 & E2 & E3). unfold tidy. rewrite E1, E2, E3. split.
  - simpl. apply NoDup_cons. split; [| done].
    rewrite Hidx, Hnone. by intros [? ?].
  - intros k. simpl. rewrite elem_of_cons, Hidx.
    destruct (decide (k = p)) as [->|Hne].
    + rewrite lookup_insert_eq. split; eauto.
    + rewrite lookup_insert_ne by done. intuition (subst; eauto; congruence).
Qed.

Lemma popped_same_entries k s s' :
  popped q k s s' →
  lrange q s' ++ lrange (processing q) s' = lrange q s ++ lrange (processing q) s
  ∧ k ∈ lrange q s.
Proof.
  intros (Hlast & E1 & E2 & _). rewrite E1, E2. apply last_Some in Hlast as [W' ->].
  rewrite removelast_last, <- app_assoc. split; [done |]. set_solver.
Qed.

Lemma tidy_popped k s s' : tidy q s → popped q k s s' → tidy q s'.
Proof.
  intros [Hnd Hidx] Hp. destruct (popped_same_entries k s s' Hp) as [E _].
  destruct Hp as (_ & _ & _ & Hh). unfold tidy. rewrite E, (hgetall_same _ s s' Hh). done.
Qed.

Lemma tidy_not_both k s :
  tidy q s → k ∈ lrange q s → k ∈ lrange (processing q) s → False.
Proof. intros [Hnd _] H1 H2. apply NoDup_app in Hnd as (_ & Hd & _). by apply (Hd k). Qed.

Lemma tidy_requeued k s s' :
  tidy q s → k ∈ lrange (processing q) s → requeued q k s s' → tidy q s'.
Proof.
  intros Ht Hk (E1 & E2 & Hh). pose proof Ht as [Hnd Hidx].
  apply NoDup_app in Hnd as (HW & Hd & HP). unfold tidy. rewrite E1, E2. split.
  - simpl. apply NoDup_cons. split.
    + rewrite elem_of_app, list_elem_of_filter. intros [?|[? _]]; [| done].
      by apply (tidy_not_both k s).
    + apply NoDup_app. split_and!; [done | | by apply NoDup_filter].
      intros x Hx. rewrite list_elem_of_filter. intros [_ ?]. by apply (Hd x).
  - intros x. rewrite (hgetall_same _ s s' Hh), <- Hidx. simpl.
    rewrite elem_of_cons, !elem_of_app, list_elem_of_filter.
    destruct (decide (x = k)) as [->|Hne]; intuition (subst; eauto; congruence).
Qed.

Lemma tidy_completed k s s' :
  tidy q s → k ∈ lrange (processing q) s → completed q k s s' → tidy q s'.
Proof.
  intros Ht Hk (E1 & E2 & E3). pose proof Ht as [Hnd Hidx].
  apply NoDup_app in Hnd as (HW & Hd & HP). unfold tidy. rewrite E1, E2, E3. split.
  - apply NoDup_app. split_and!; [done | | by apply NoDup_filter].
    intros x Hx. rewrite list_elem_of_filter. intros [_ ?]. by apply (Hd x).
  - intros x. rewrite elem_of_app, list_elem_of_filter.
    destruct (decide (x = k)) as [->|Hne].
    + rewrite lookup_delete_eq. split; [| by intros [? ?]].
      intros [?|[? _]]; [| done]. destruct (tidy_not_both k s); done.
    + rewrite lookup_delete_ne by done. rewrite <- Hidx, elem_of_app. intuition (subst; eauto; congruence).
Qed.

Lemma filter_other k x (l : list string) : x ∈ l → x ≠ k → x ∈ filter (λ y, y ≠ k) l.
Proof. intros. by apply list_elem_of_filter. Qed.

End tidy.

Section conservation.
Variable c : JobQueue.
Let q := Queue c.

Lemma conserved_same_store (st : client) (w' : World) :
  conserved c st → db w' = db (cl_world st) → conserved c (mkClient w' (cl_handles st)).
Proof. intros (H1 & H2 & H3) E. unfold conserved. simpl. rewrite E. done. Qed.

Lemma handles_delete (i : nat) (h : Work) (st : client) :
  conserved c st → cl_handles st !! i = Some h →
  WQueue h = q ∧ key h ∈ lrange (processing q) (db (cl_world st))
  ∧ NoDup (key <$> delete i (cl_handles st))
  ∧ ∀ h', h' ∈ delete i (cl_handles st) →
          h' ∈ cl_handles st ∧ key h' ≠ key h.
Proof.
  intros (_ & Hnd & Hin) Hi.
  destruct (Hin h) as [Hq Hk]; [by eapply list_elem_of_lookup_2 |].
  pose proof (take_drop_middle _ _ _ Hi) as Hsplit.
  assert (Hdel : delete i (cl_handles st) = take i (cl_handles st) ++ drop (S i) (cl_handles st)).
  { apply delete_take_drop. }
  rewrite <- Hsplit in Hnd. rewrite fmap_app, fmap_cons in Hnd.
  apply NoDup_app in Hnd as (N1 & N2 & N3). apply NoDup_cons in N3 as [N3 N4].
  split_and!; [done | done | |].
  - rewrite Hdel, fmap_app. apply NoDup_app. split_and!; [done | | done].
    intros x Hx Hx'. apply (N2 x Hx). by right.
  - intros h' Hh'. rewrite Hdel in Hh'. apply elem_of_app in Hh' as [Hh'|Hh'].
    + split; [rewrite <- Hsplit, elem_of_app; by left |].
      intros E. apply (N2 (key h')); [by apply list_elem_of_fmap_2 | rewrite E; by left].
    + split; [rewrite <- Hsplit, elem_of_app, elem_of_cons; by right; right |].
      intros E. apply N3. rewrite <- E. by apply list_elem_of_fmap_2.
Qed.

Lemma apply_op_conserved (st : client) (o : op) :
  conserved c st → conserved c (apply_op c st o).
Proof.
  intros Hc. pose proof Hc as (Ht & Hnd & Hin). destruct o as [job|v|i|i]; simpl.
  - destruct (Submit_effect c job (cl_world st)) as [E | (p & stored & He)].
    + by apply conserved_same_store.
    + split_and!; simpl; [by eapply tidy_enqueued | done |].
      intros h Hh. destruct (Hin h Hh) as [? ?]. destruct He as (_ & _ & -> & _). done.
  - pose proof (Get_effect c v (cl_world st)) as Hg. simpl in Hg. fold q in Hg.
    destruct (Get c v (cl_world st)) as [r w'] eqn:E. simpl in Hg.
    destruct Hg as [[Hs Hn] | [(k & Hp & Hh) | (k & s1 & Hp & Hr & Hn)]].
    + destruct r as [[[h|] e]| |]; try done; by apply (conserved_same_store st w').
    + assert (Ht' : tidy q (db w')) by (by eapply tidy_popped).
      destruct (popped_same_entries q k _ _ Hp) as [_ HkW].
      destruct Hp as (_ & _ & HP & _).
      assert (Hold : ∀ h, h ∈ cl_handles st →
                WQueue h = q ∧ key h ∈ lrange (processing q) (db w')).
      { intros h Hh'. destruct (Hin h Hh') as [? ?]. rewrite HP. split; [done | by right]. }
      destruct r as [[[h|] e]| |]; simpl in Hh; try (split_and!; done).
      destruct Hh as [? | [= ->]]; [done |].
      split_and!; simpl; [done | |].
      * apply NoDup_cons. split; [| done].
        intros Hk. apply list_elem_of_fmap in Hk as (h & Ek & Hh').
        destruct (Hin h Hh') as [_ HkP]. rewrite <- Ek in HkP.
        by apply (tidy_not_both q k (db (cl_world st))).
      * intros h Hh'. apply elem_of_cons in Hh' as [-> | Hh'].
        -- fold q. rewrite HP. split; [done | by left].
        -- by apply Hold.
    + assert (Ht1 : tidy q s1) by (by eapply tidy_popped).
      destruct (popped_same_entries q k _ _ Hp) as [_ HkW].
      destruct Hp as (_ & _ & HP & _).
      assert (Ht' : tidy q (db w')).
      { eapply tidy_requeued; [exact Ht1 | | exact Hr]. rewrite HP. by left. }
      assert (Hold : ∀ h, h ∈ cl_handles st →
                WQueue h = q ∧ key h ∈ lrange (processing q) (db w')).
      { intros h Hh'. destruct (Hin h Hh') as [? HkP]. split; [done |].
        destruct Hr as (_ & -> & _). rewrite HP. apply filter_other; [by right |].
        intros Ek. rewrite Ek in HkP. by apply (tidy_not_both q k (db (cl_world st))). }
      destruct r as [[[h|] e]| |]; simpl in Hn; try done; split_and!; done.
  - destruct (cl_handles st !! i) as [h|] eqn:Hi; [| done].
    destruct (handles_delete i h st Hc Hi) as (Hq & Hk & Hnd' & Hin').
    destruct h as [hq k]. simpl in *. subst hq.
    pose proof (Complete_effect q k (cl_world st)) as He. simpl in He. destruct He as [E | He].
    + split_and!; simpl; [by rewrite E | done |].
      intros h' Hh'. destruct (Hin' h' Hh') as [? _]. rewrite E. by apply Hin.
    + split_and!; simpl; [by eapply tidy_completed | done |].
      intros h' Hh'. destruct (Hin' h' Hh') as [Hh Hne]. destruct (Hin h' Hh) as [? ?].
      split; [done |]. fold q. destruct He as (_ & -> & _). by apply filter_other.
  - destruct (cl_handles st !! i) as [h|] eqn:Hi; [| done].
    destruct (handles_delete i h st Hc Hi) as (Hq & Hk & Hnd' & Hin').
    destruct h as [hq k]. simpl in *. subst hq.
    pose proof (Resubmit_effect q k (cl_world st)) as He. simpl in He. destruct He as [E | He].
    + split_and!; simpl; [by rewrite E | done |].
      intros h' Hh'. destruct (Hin' h' Hh') as [? _]. rewrite E. by apply Hin.
    + split_and!; simpl; [by eapply tidy_requeued | done |].
      intros h' Hh'. destruct (Hin' h' Hh') as [Hh Hne]. destruct (Hin h' Hh) as [? ?].
      split; [done |]. fold q. destruct He as (_ & -> & _). by apply filter_other.
Qed.

Lemma run_ops_conserved (ops : list op) : ∀ st,
  conserved c st → conserved c (run_ops c ops st).
Proof.
  induction ops as [|o ops IH]; intros st Hc; [done |].
  simpl. apply IH. by apply apply_op_conserved.
Qed.

End conservation.

Lemma times_absent k l : k ∉ l → times k l = 0.
Proof.
  unfold times. induction l as [|x l IH]; intros Hk; [done |].
  apply not_elem_of_cons in Hk as [Hx Hl].
  rewrite filter_cons_False by congruence. by apply IH.
Qed.

Lemma times_once k l : NoDup l → k ∈ l → times k l = 1.
Proof.
  unfold times. induction l as [|x l IH]; intros Hnd Hk; [by apply elem_of_nil in Hk |].
  apply NoDup_cons in Hnd as [Hx Hnd]. destruct (decide (x = k)) as [->|Hne].
  - rewrite filter_cons_True by done. simpl. f_equal. by apply times_absent.
  - rewrite filter_cons_False by done. apply IH; [done |].
    apply elem_of_cons in Hk as [?|?]; [congruence | done].
Qed.

Lemma tidy_placed (c : JobQueue) (s : store) (k : string) :
  tidy (Queue c) s →
  ∃ pl, placed c s k pl
      ∧ (∀ pl', placed c s k pl' → pl' = pl)
      ∧ (k ∈ lrange (processing (Queue c)) s → pl = InProgress).
Proof.
  intros [Hnd Hidx]. specialize (Hidx k). rewrite elem_of_app in Hidx.
  apply NoDup_app in Hnd as (HW & Hd & HP).
  destruct (decide (k ∈ lrange (Queue c) s)) as [Hw|Hw];
    destruct (decide (k ∈ lrange (processing (Queue c)) s)) as [Hp|Hp].
  - destruct (Hd k Hw Hp).
  - exists Waiting. unfold placed.
    rewrite (times_once _ _ HW Hw), (times_absent _ _ Hp).
    split_and!; [done | done | tauto | | done].
    intros [| |]; simpl; intros (? & ? & ?); done.
  - exists InProgress. unfold placed.
    rewrite (times_once _ _ HP Hp), (times_absent _ _ Hw).
    split_and!; [done | done | tauto | | done].
    intros [| |]; simpl; intros (? & ? & ?); done.
  - exists Absent. unfold placed.
    rewrite (times_absent _ _ Hp), (times_absent _ _ Hw).
    split_and!; [done | done | tauto | | done].
    intros [| |]; simpl; intros (? & ? & ?); try done; tauto.
Qed.

Lemma conserved_fresh (c : JobQueue) (w0 : World) :
  lrange (Queue c) (db w0) = [] →
  lrange (processing (Queue c)) (db w0) = [] →
  hgetall (payloads (Queue c)) (db w0) = ∅ →
  conserved c (mkClient w0 []).
Proof.
  intros Hw Hp Hi. unfold conserved, tidy. simpl. rewrite Hw, Hp, Hi. simpl.
  split_and!.
  - apply NoDup_nil_2.
  - intros k. rewrite lookup_empty. split; [by intros ?%elem_of_nil | by intros [? ?]].
  - apply NoDup_nil_2.
  - by intros h ?%elem_of_nil.
Qed.

(** *** Callers whose round trips interleave *)

Lemma omap_insert_perm {A B} (f : A → option B) (us : list A) : ∀ (i : nat) (u u' : A),
  us !! i = Some u →
  option_list (f u) ++ omap f (<[i:=u']> us) ≡ₚ option_list (f u') ++ omap f us.
Proof.
  induction us as [|x us IH]; intros i u u' Hi; [done |].
  destruct i as [|i]; simpl in Hi.
  - injection Hi as ->. cbn [insert list_insert omap list_omap].
    destruct (f u) as [y|], (f u') as [y'|]; cbn; try done. apply perm_swap.
  - cbn [insert list_insert omap list_omap]. specialize (IH i u u' Hi).
    destruct (f x) as [z|]; [| exact IH].
    rewrite <- !Permutation_middle. by f_equiv.
Qed.

Lemma claimed_move (t t' : Z) (s s' : store) (hs : list Work) (us : list caller)
    (i : nat) (u u' : caller) :
  us !! i = Some u →
  option_list (inflight u) ++ claimed (mkCrowd t' s' (<[i:=u']> us) hs)
  ≡ₚ option_list (inflight u') ++ claimed (mkCrowd t s us hs).
Proof.
  intros Hi. unfold claimed. cbn [held callers].
  rewrite !(Permutation_app_swap_app _ (key <$> hs)).
  f_equiv. by apply omap_insert_perm.
Qed.

Lemma claimed_held (t t' : Z) (s s' : store) (hs hs' : list Work) (us : list caller) :
  key <$> hs' ≡ₚ key <$> hs →
  claimed (mkCrowd t' s' us hs') ≡ₚ claimed (mkCrowd t s us hs).
Proof. intros H. unfold claimed. cbn [held callers]. by rewrite H. Qed.

Lemma NoDup_among {A} (l k : list A) : l ⊆+ k → NoDup k → NoDup l.
Proof.
  intros Hsub Hnd. apply submseteq_Permutation in Hsub as [k' Hk].
  rewrite Hk in Hnd. by apply NoDup_app in Hnd as (? & _).
Qed.

Section kept.
Variable c : JobQueue.
Let q := Queue c.

(** The claims are among the old ones, and the processing list has lost
    nothing. *)
Lemma kept_among (S S' : Crowd) :
  kept c S →
  tidy q (stored S') →
  (∀ x, x ∈ lrange (processing q) (stored S) → x ∈ lrange (processing q) (stored S')) →
  claimed S' ⊆+ claimed S →
  (∀ h, h ∈ held S' → WQueue h = q) →
  kept c S'.
Proof.
  intros (Ht & Hnd & Hin & Hq) Ht' HP Hsub Hq'. split_and!; [done | | | done].
  - by eapply NoDup_among.
  - intros x Hx. apply HP, Hin. by eapply elem_of_submseteq.
Qed.

(** A key that was waiting is popped and claimed. *)
Lemma kept_claim (S S' : Crowd) (k : string) :
  kept c S →
  popped q k (stored S) (stored S') →
  claimed S' ≡ₚ k :: claimed S →
  (∀ h, h ∈ held S' → WQueue h = q) →
  kept c S'.
Proof.
  intros (Ht & Hnd & Hin & Hq) Hp Hcl Hq'.
  destruct (popped_same_entries q k _ _ Hp) as [_ HkW].
  pose proof (tidy_popped q k _ _ Ht Hp) as Ht'.
  destruct Hp as (_ & _ & HP & _).
  split_and!; [done | | | done].
  - rewrite Hcl. apply NoDup_cons. split; [| done].
    intros Hk. by apply (tidy_not_both q k (stored S) Ht HkW), Hin.
  - intros x Hx. rewrite Hcl in Hx. fold q. rewrite HP.
    apply elem_of_cons in Hx as [-> | Hx]; [by left | right; by apply Hin].
Qed.

(** A claimed key leaves the processing list. *)
Lemma kept_release (S S' : Crowd) (k : string) :
  kept c S →
  tidy q (stored S') →
  lrange (processing q) (stored S')
  = filter (λ x, x ≠ k) (lrange (processing q) (stored S)) →
  claimed S ≡ₚ k :: claimed S' →
  (∀ h, h ∈ held S' → WQueue h = q) →
  kept c S'.
Proof.
  intros (Ht & Hnd & Hin & Hq) Ht' HP Hcl Hq'.
  rewrite Hcl in Hnd. apply NoDup_cons in Hnd as [Hk Hnd].
  split_and!; [done | done | | done].
  intros x Hx. fold q. rewrite HP. apply filter_other.
  - apply Hin. rewrite Hcl. by right.
  - intros ->. done.
Qed.

End kept.

Lemma claimed_same (t t' : Z) (s s' : store) (hs : list Work) (us : list caller)
    (i : nat) (u u' : caller) :
  us !! i = Some u → inflight u' = inflight u →
  claimed (mkCrowd t' s' (<[i:=u']> us) hs) ≡ₚ claimed (mkCrowd t s us hs).
Proof.
  intros Hi Hf. pose proof (claimed_move t t' s s' hs us i u u' Hi) as H.
  rewrite Hf in H. by apply Permutation_app_inv_l in H.
Qed.

Lemma claimed_add (t t' : Z) (s s' : store) (hs : list Work) (us : list caller)
    (i : nat) (u u' : caller) (k : string) :
  us !! i = Some u → inflight u = None → inflight u' = Some k →
  claimed (mkCrowd t' s' (<[i:=u']> us) hs) ≡ₚ k :: claimed (mkCrowd t s us hs).
Proof.
  intros Hi Hf Hf'. pose proof (claimed_move t t' s s' hs us i u u' Hi) as H.
  by rewrite Hf, Hf' in H.
Qed.

Lemma claimed_drop (t t' : Z) (s s' : store) (hs : list Work) (us : list caller)
    (i : nat) (u u' : caller) (k : string) :
  us !! i = Some u → inflight u = Some k → inflight u' = None →
  claimed (mkCrowd t s us hs) ≡ₚ k :: claimed (mkCrowd t' s' (<[i:=u']> us) hs).
Proof.
  intros Hi Hf Hf'. pose proof (claimed_move t t' s s' hs us i u u' Hi) as H.
  by rewrite Hf, Hf' in H.
Qed.

Lemma claimed_hand (t t' : Z) (s s' : store) (hs : list Work) (us : list caller)
    (i : nat) (u u' : caller) (q k : string) :
  us !! i = Some u → inflight u = Some k → inflight u' = None →
  claimed (mkCrowd t' s' (<[i:=u']> us) (mkWork q k :: hs)) ≡ₚ claimed (mkCrowd t s us hs).
Proof.
  intros Hi Hf Hf'. rewrite (claimed_drop t t' s s' hs us i u u' k Hi Hf Hf').
  unfold claimed. cbn [held callers]. by rewrite fmap_cons.
Qed.

Lemma claimed_finish (t t' : Z) (s s' : store) (hs : list Work) (us : list caller)
    (i j : nat) (u u' : caller) (h : Work) :
  us !! i = Some u → inflight u' = inflight u → hs !! j = Some h →
  claimed (mkCrowd t s us hs)
  ≡ₚ key h :: claimed (mkCrowd t' s' (<[i:=u']> us) (delete j hs)).
Proof.
  intros Hi Hf Hj.
  rewrite (claimed_same t t' s s' (delete j hs) us i u u' Hi Hf).
  unfold claimed. cbn [held callers].
  rewrite (delete_Permutation hs j h Hj) at 1. by rewrite fmap_cons.
Qed.

Lemma hexists_world (k f : string) (w : World) :
  ∃ x, Do (HEXISTS k f) w = (Returns x, mkWorld (now w) (db w) (sent w)).
Proof.
  unfold Do. destruct (next_fault w) as [[m|m]|]; simpl; eauto.
Qed.

Lemma IsQueued_world (c : JobQueue) (job : Job) (w : World) :
  ∃ x, (IsQueued c job w).1 = Returns x ∧ db (IsQueued c job w).2 = db w.
Proof.
  unfold IsQueued. destruct (jobQueueMarshal job) as [[key payload] [e|]]; [by eexists |].
  unfold bind. destruct (hexists_world (payloads (Queue c)) key w) as (x & ->).
  destruct (Int x) as [n [e|]]; by eexists.
Qed.

Lemma Submit_exec_effect (c : JobQueue) (k p : string) (w : World) :
  let s' := db (Submit_exec c k p w).2 in
  s' = db w
  ∨ lrange (Queue c) s' = k :: lrange (Queue c) (db w)
    ∧ lrange (processing (Queue c)) s' = lrange (processing (Queue c)) (db w)
    ∧ hgetall (payloads (Queue c)) s' = <[k:=p]> (hgetall (payloads (Queue c)) (db w)).
Proof.
  unfold Submit_exec, DoExec.
  pose proof (submit_batch (now w) (Queue c) k p (db w)) as (H1 & H2 & H3 & _).
  destruct (next_fault w) as [[m|m]|]; [by left | right; done |].
  destruct (exec_batch _ _ _) as [rs s1] eqn:Eb. right. done.
Qed.

Section moves.
Variable c : JobQueue.
Let q := Queue c.

Lemma kept_stay (t t' : Z) (s : store) (us : list caller) (hs : list Work)
    (i : nat) (u : caller) :
  us !! i = Some u →
  kept c (mkCrowd t s us hs) → kept c (mkCrowd t' s (<[i:=u]> us) hs).
Proof. intros Hi H. by rewrite list_insert_id. Qed.

Lemma crowd_move_kept (S : Crowd) (im : nat * move) :
  kept c S → in_order c S im = true →
  kept c (crowd_move c S im)
  ∧ transition q (stored S) (stored (crowd_move c S im)).
Proof.
  intros HS Hord. destruct S as [t s us hs]. destruct im as [i m].
  unfold crowd_move, in_order in *. cbn [fst snd at_time stored callers held] in *.
  assert (Hstay : ∀ u, us !! i = Some u →
            kept c (mkCrowd t s (<[i:=u]> us) hs)
            ∧ transition q s (stored (mkCrowd t s (<[i:=u]> us) hs))).
  { intros u Hi. split; [by apply (kept_stay t) | by left]. }
  pose proof HS as (Ht & Hnd & Hin & Hq). cbn [stored held] in Ht, Hq.
  destruct m as [o| |d]; [| | split; [done | by left]].
  - (* a call *)
    destruct (us !! i) as [u|] eqn:Hi; [| split; [done | by left]].
    unfold caller_move. destruct (doing u) eqn:Hdo; try by apply Hstay.
    assert (Hfu : inflight u = None) by (unfold inflight; by rewrite Hdo).
    destruct o as [job|v|j|j].
    + (* Submit: the membership check *)
      destruct (IsQueued_world c job (mkWorld t s (conn u))) as (x & Hx & Hdb).
      destruct (IsQueued c job (mkWorld t s (conn u))) as [r w'].
      cbn [fst snd] in Hx, Hdb. subst r. destruct x as [queued err].
      cbn [db] in Hdb. rewrite Hdb. split; [| by left].
      apply (kept_among c (mkCrowd t s us hs)); cbn [stored held]; [done | done | done | | done].
      apply Permutation_submseteq, claimed_same with (u := u); [done |].
      rewrite Hfu. unfold inflight. cbn [doing]. by destruct (_ || _).
    + (* Get: the pop *)
      pose proof (pop_cases c (mkWorld t s (conn u))) as Hpop. cbn zeta in Hpop.
      fold q in Hpop |- *.
      destruct (Do (BRPOPLPUSH q (processing q) 0) (mkWorld t s (conn u))) as [r w'].
      cbn [fst snd db] in Hpop.
      destruct Hpop as [[Hs Hno] | (k & Hp & [[-> Hw'] | [msg ->]])].
      * destruct Hno as [-> | [e ->]]; [by apply Hstay |]. cbn [Bytes].
        rewrite Hs. split; [| by left].
        apply (kept_among c (mkCrowd t s us hs)); cbn [stored held];
          [done | done | done | | done].
        by apply Permutation_submseteq, claimed_same with (u := u).
      * cbn [Bytes]. split; [| right; exists k; eauto].
        apply (kept_claim c (mkCrowd t s us hs) _ k); cbn [stored held]; [done | done | | done].
        by apply claimed_add with (u := u).
      * cbn [Bytes]. split; [| right; exists k; eauto].
        pose proof (tidy_popped q k _ _ Ht Hp) as Ht'.
        apply (kept_among c (mkCrowd t s us hs)); cbn [stored held]; [done | done | | | done].
        -- intros x Hx. destruct Hp as (_ & _ & HP & _). fold q. rewrite HP. by right.
        -- by apply Permutation_submseteq, claimed_same with (u := u).
    + (* Complete *)
      destruct (hs !! j) as [h|] eqn:Hj; [| by apply Hstay].
      assert (Hh : h ∈ hs) by (by eapply list_elem_of_lookup_2).
      pose proof (Hq h Hh) as Hhq. destruct h as [hq k]. cbn [WQueue] in Hhq. subst hq.
      pose proof (claimed_finish t t s
                    (db (Complete (mkWork (Queue c) k) (mkWorld t s (conn u))).2) hs us
                    i j u
                    (mkCaller (wire (Complete (mkWork (Queue c) k) (mkWorld t s (conn u))).2)
                       Ready)
                    (mkWork (Queue c) k) Hi) as Hcl.
      cbn [key] in Hcl. specialize (Hcl ltac:(by rewrite Hfu) Hj).
      assert (Hq' : ∀ h', h' ∈ delete j hs → WQueue h' = Queue c).
      { intros h' Hh'. apply Hq. rewrite (delete_Permutation hs j _ Hj). by right. }
      assert (HkP : k ∈ lrange (processing q) s).
      { apply (Hin k). unfold claimed. cbn [held callers]. apply elem_of_app. left.
        by apply (list_elem_of_fmap_2 key _ (mkWork (Queue c) k)). }
      pose proof (Complete_effect q k (mkWorld t s (conn u))) as He.
      cbn zeta in He. cbn [db] in He. fold q in Hcl |- *.
      destruct He as [E | He].
      * rewrite E in *. split; [| by left].
        apply (kept_among c (mkCrowd t s us hs)); cbn [stored held]; [done | done | done | | done].
        rewrite Hcl. apply submseteq_cons.
        reflexivity.
      * split; [| right; exists k; eauto].
        apply (kept_release c (mkCrowd t s us hs) _ k); cbn [stored held];
          [done | by eapply tidy_completed | exact (proj1 (proj2 He)) | done | done].
    + (* Resubmit *)
      destruct (hs !! j) as [h|] eqn:Hj; [| by apply Hstay].
      assert (Hh : h ∈ hs) by (by eapply list_elem_of_lookup_2).
      pose proof (Hq h Hh) as Hhq. destruct h as [hq k]. cbn [WQueue] in Hhq. subst hq.
      pose proof (claimed_finish t t s
                    (db (Resubmit (mkWork (Queue c) k) (mkWorld t s (conn u))).2) hs us
                    i j u
                    (mkCaller (wire (Resubmit (mkWork (Queue c) k) (mkWorld t s (conn u))).2)
                       Ready)
                    (mkWork (Queue c) k) Hi) as Hcl.
      cbn [key] in Hcl. specialize (Hcl ltac:(by rewrite Hfu) Hj).
      assert (Hq' : ∀ h', h' ∈ delete j hs → WQueue h' = Queue c).
      { intros h' Hh'. apply Hq. rewrite (delete_Permutation hs j _ Hj). by right. }
      assert (HkP : k ∈ lrange (processing q) s).
      { apply (Hin k). unfold claimed. cbn [held callers]. apply elem_of_app. left.
        by apply (list_elem_of_fmap_2 key _ (mkWork (Queue c) k)). }
      pose proof (Resubmit_effect q k (mkWorld t s (conn u))) as He.
      cbn zeta in He. cbn [db] in He. fold q in Hcl |- *.
      destruct He as [E | He].
      * rewrite E in *. split; [| by left].
        apply (kept_among c (mkCrowd t s us hs)); cbn [stored held]; [done | done | done | | done].
        rewrite Hcl. apply submseteq_cons.
        reflexivity.
      * split; [| right; exists k; eauto].
        apply (kept_release c (mkCrowd t s us hs) _ k); cbn [stored held];
          [done | by eapply tidy_requeued | exact (proj1 (proj2 He)) | done | done].
  - (* the next round trip of a call under way *)
    destruct (us !! i) as [u|] eqn:Hi; [| split; [done | by left]].
    unfold caller_move. destruct (doing u) as [|job|k v|k e|msg] eqn:Hdo;
      try by apply Hstay.
    + (* Submit: the transaction *)
      destruct (jobQueueMarshal job) as [[key payload] err] eqn:Hm.
      cbn [fst snd] in Hord.
      pose proof (Submit_exec_effect c key payload (mkWorld t s (conn u))) as He.
      cbn zeta in He. cbn [db] in He. fold q in He.
      assert (Hcl : ∀ s' cn, claimed (mkCrowd t s' (<[i:=mkCaller cn Ready]> us) hs)
                             ≡ₚ claimed (mkCrowd t s us hs)).
      { intros s' cn. apply claimed_same with (u := u); [done |].
        unfold inflight. cbn [doing]. by rewrite Hdo. }
      destruct He as [E | (E1 & E2 & E3)].
      * rewrite E. split; [| by left].
        apply (kept_among c (mkCrowd t s us hs)); cbn [stored held]; [done | done | done | | done].
        apply Permutation_submseteq, Hcl.
      * assert (Hen : enqueued q key payload s
                        (db (Submit_exec c key payload (mkWorld t s (conn u))).2)).
        { split_and!; [| done | done | done].
          fold q in Hord. by destruct (hgetall (payloads q) s !! key). }
        split; [| right; exists key; left; eauto].
        apply (kept_among c (mkCrowd t s us hs)); cbn [stored held];
          [done | by eapply tidy_enqueued | | | done].
        -- intros x Hx. fold q. by rewrite E2.
        -- apply Permutation_submseteq, Hcl.
    + (* Get: the payload *)
      destruct (hget_world (payloads (Queue c)) k (mkWorld t s (conn u))) as (x & ->).
      cbn [now db wire]. destruct (Bytes x) as [d err].
      destruct (match err with None => jobQueueUnmarshal d v | Some _ => err end) as [e|].
      * split; [| by left].
        apply (kept_among c (mkCrowd t s us hs)); cbn [stored held]; [done | done | done | | done].
        apply Permutation_submseteq, claimed_same with (u := u); [done |].
        unfold inflight. cbn [doing]. by rewrite Hdo.
      * split; [| by left].
        apply (kept_among c (mkCrowd t s us hs)); cbn [stored held]; [done | done | done | |].
        -- apply Permutation_submseteq, claimed_hand with (u := u); [done | | done].
           unfold inflight. by rewrite Hdo.
        -- intros h Hh. apply elem_of_cons in Hh as [-> | Hh]; [done | by apply Hq].
    + (* Get: the resubmission of a job it cannot decode *)
      assert (Hfu : inflight u = Some k) by (unfold inflight; by rewrite Hdo).
      assert (HkP : k ∈ lrange (processing q) s).
      { apply (Hin k). unfold claimed. cbn [held callers]. apply elem_of_app. right.
        apply list_elem_of_omap. exists u. split; [by eapply list_elem_of_lookup_2 | done]. }
      pose proof (Resubmit_effect q k (mkWorld t s (conn u))) as He.
      cbn zeta in He. cbn [db] in He. fold q.
      destruct (Resubmit (mkWork q k) (mkWorld t s (conn u))) as [r w'] eqn:Er.
      cbn [snd] in He.
      assert (Hr : ∃ ro, r = Returns ro).
      { unfold Resubmit in Er. destruct (DoExec _ _) in Er. injection Er as <- _. eauto. }
      destruct Hr as [ro ->].
      assert (Hgoal : ∀ tk, inflight (mkCaller (wire w') tk) = None →
                kept c (mkCrowd t (db w') (<[i:=mkCaller (wire w') tk]> us) hs)
                ∧ transition q s (db w')).
      { intros tk Htk.
        pose proof (claimed_drop t t s (db w') hs us i u (mkCaller (wire w') tk) k
                      Hi Hfu Htk) as Hcl.
        destruct He as [E | He].
        - rewrite E in *. split; [| by left].
          apply (kept_among c (mkCrowd t s us hs)); cbn [stored held];
            [done | done | done | | done].
          rewrite Hcl. apply submseteq_cons. reflexivity.
        - split; [| right; exists k; eauto].
          apply (kept_release c (mkCrowd t s us hs) _ k); cbn [stored held];
            [done | by eapply tidy_requeued | exact (proj1 (proj2 He)) | done | done]. }
      destruct ro as [re|]; by apply Hgoal.
Qed.

End moves.

Lemma crowd_run_app (c : JobQueue) (ms1 ms2 : list (nat * move)) (S : Crowd) :
  crowd_run c (ms1 ++ ms2) S = crowd_run c ms2 (crowd_run c ms1 S).
Proof. apply fold_left_app. Qed.

Lemma disciplined_app (c : JobQueue) (ms1 ms2 : list (nat * move)) : ∀ S,
  disciplined c (ms1 ++ ms2) S = true →
  disciplined c ms1 S = true ∧ disciplined c ms2 (crowd_run c ms1 S) = true.
Proof.
  induction ms1 as [|im ms1 IH]; intros S H; [done |].
  cbn [app disciplined] in H. apply andb_true_iff in H as [H1 H2].
  destruct (IH _ H2) as [H3 H4]. cbn [disciplined]. by rewrite H1, H3.
Qed.

Lemma run_kept (c : JobQueue) (ms : list (nat * move)) : ∀ S,
  kept c S → disciplined c ms S = true → kept c (crowd_run c ms S).
Proof.
  induction ms as [|im ms IH]; intros S HS H; [done |].
  cbn [disciplined] in H. apply andb_true_iff in H as [H1 H2].
  apply (IH (crowd_move c S im)); [| done]. by apply crowd_move_kept.
Qed.

Lemma kept_fresh (c : JobQueue) (t0 : Z) (s0 : store) (conns : list (list (option fault))) :
  lrange (Queue c) s0 = [] →
  lrange (processing (Queue c)) s0 = [] →
  hgetall (payloads (Queue c)) s0 = ∅ →
  kept c (mkCrowd t0 s0 ((λ cn, mkCaller cn Ready) <$> conns) []).
Proof.
  intros Hw Hp Hi.
  assert (Hc : claimed (mkCrowd t0 s0 ((λ cn, mkCaller cn Ready) <$> conns) []) = []).
  { unfold claimed. cbn [held callers fmap list_fmap app].
    induction conns as [|cn conns IH]; [done | exact IH]. }
  unfold kept, tidy. rewrite Hc. cbn [stored held]. rewrite Hw, Hp, Hi. split_and!.
  - apply NoDup_nil_2.
  - intros k. rewrite lookup_empty. split; [by intros ?%elem_of_nil | by intros [? ?]].
  - apply NoDup_nil_2.
  - by intros x ?%elem_of_nil.
  - by intros h ?%elem_of_nil.
Qed.

(** C2, amended: any number of callers run [Submit], [Get], [Complete] and
    [Resubmit] on a queue that starts empty, their round trips interleaved in
    any order, whatever their connections do; each handle that [Get] returns
    is finished at most once, and no transaction of [Submit] runs on a key that
    is indexed by then.  Then between any two round trips each key is in
    exactly one place: absent (in no list, not indexed), once in the waiting
    list, or once in the processing list (and then indexed); the key of a
    handle not yet finished, and the key that a [Get] under way has popped, is
    in the processing list.  And every round trip takes the store from one
    such state to the next in one step: it changes nothing, or it enqueues one
    key, moves one from the waiting to the processing list, requeues one, or
    completes one. *)
Theorem queue_conservation (c : JobQueue) (ms : list (nat * move)) (t0 : Z) (s0 : store)
    (conns : list (list (option fault))) :
  let S0 := mkCrowd t0 s0 ((λ cn, mkCaller cn Ready) <$> conns) [] in
  lrange (Queue c) s0 = [] →
  lrange (processing (Queue c)) s0 = [] →
  hgetall (payloads (Queue c)) s0 = ∅ →
  disciplined c ms S0 = true →
  ∀ ms1 ms2, ms = ms1 ++ ms2 →
    let S := crowd_run c ms1 S0 in
    (∀ k, ∃ pl, placed c (stored S) k pl
        ∧ (∀ pl', placed c (stored S) k pl' → pl' = pl)
        ∧ (∀ h, h ∈ held S → key h = k → pl = InProgress)
        ∧ (∀ u, u ∈ callers S → inflight u = Some k → pl = InProgress))
    ∧ (∀ im ms3, ms2 = im :: ms3 →
         transition (Queue c) (stored S) (stored (crowd_move c S im))).
Proof.
  intros S0 Hw Hp Hi Hd ms1 ms2 -> S.
  apply disciplined_app in Hd as [Hd1 Hd2]. fold S in Hd2.
  assert (HS : kept c S) by (apply run_kept; [by apply kept_fresh | done]).
  split.
  - intros k. destruct HS as (Ht & _ & Hin & _).
    destruct (tidy_placed c _ k Ht) as (pl & H1 & H2 & H3).
    exists pl. split_and!; [done | done | |].
    + intros h Hh <-. apply H3, Hin. unfold claimed. apply elem_of_app. left.
      by apply list_elem_of_fmap_2.
    + intros u Hu Hf. apply H3, Hin. unfold claimed. apply elem_of_app. right.
      apply list_elem_of_omap. eauto.
  - intros im ms3 ->. cbn [disciplined] in Hd2. apply andb_true_iff in Hd2 as [Ho _].
    by apply crowd_move_kept.
Qed.

Lemma queue_conservation_witness :
  let c := NewJobQueue "jobs" in
  let a := mkJob (inl "[1,7]") None in
  let b := mkJob (inl "[2,8]") None in
  let v : Decoder := λ _, None in
  let ms := [(0, Call (OpSubmit a)); (1, Call (OpSubmit b)); (2, Call (OpGet v));
             (1, Next); (2, Call (OpGet v)); (0, Next); (2, Next); (1, Call (OpGet v));
             (2, Call (OpResubmit 0)); (1, Next)] in
  let S0 := mkCrowd 0 Redis.empty [mkCaller [] Ready; mkCaller [] Ready; mkCaller [] Ready] [] in
  let S := crowd_run c ms S0 in
  lrange "jobs" (stored S) = ["[2,8]"]
  ∧ lrange "jobs:processing" (stored S) = ["[1,7]"]
  ∧ held S = [mkWork "jobs" "[1,7]"]
  ∧ ∀ k, ∃ pl, placed c (stored S) k pl
        ∧ (∀ pl', placed c (stored S) k pl' → pl' = pl)
        ∧ (∀ h, h ∈ held S → key h = k → pl = InProgress)
        ∧ (∀ u, u ∈ callers S → inflight u = Some k → pl = InProgress).
Proof.
  intros c a b v ms S0 S.
  split; [reflexivity |]. split; [reflexivity |]. split; [reflexivity |].
  exact (proj1 (queue_conservation c ms 0 Redis.empty [[]; []; []]
                  eq_refl eq_refl eq_refl eq_refl ms [] eq_refl)).
Defined.

Lemma Do_now (cmd : command) (w : World) : now (Do cmd w).2 = now w.
Proof.
  unfold Do. destruct (next_fault w) as [[m|m]|]; [done | done |].
  destruct (exec (now w) cmd (db w)) as [[r|] s]; [| done]. by destruct r.
Qed.

Lemma DoExec_now (cs : list command) (w : World) : now (DoExec cs w).2 = now w.
Proof.
  unfold DoExec. destruct (next_fault w) as [[m|m]|]; [done | done |].
  by destruct (exec_batch (now w) cs (db w)).
Qed.

Lemma Do_outcome (cmd : command) (w : World) :
  (Do cmd w).1 = Blocks ∧ (Do cmd w).2 = w ∨ ∃ r, (Do cmd w).1 = Returns r.
Proof.
  unfold Do. destruct (next_fault w) as [[m|m]|]; [right; eauto | right; eauto |].
  destruct (exec (now w) cmd (db w)) as [[r|] s]; [| by left].
  destruct r; right; eauto.
Qed.

Lemma world_eta (w : World) : mkWorld (now w) (db w) (wire w) = w.
Proof. by destruct w. Qed.

Lemma IsQueued_now (c : JobQueue) (job : Job) (w : World) :
  now (IsQueued c job w).2 = now w.
Proof.
  unfold IsQueued. destruct (jobQueueMarshal job) as [[key payload] [e|]]; [done |].
  unfold bind. pose proof (Do_now (HEXISTS (payloads (Queue c)) key) w) as Hn.
  destruct (Do (HEXISTS (payloads (Queue c)) key) w) as [[r| |] w1]; try done.
  by destruct (Int r) as [n [e|]].
Qed.

(** Alone, a caller who makes the round trips of [Submit] one after the
    other does what [Submit] does. *)
Lemma Submit_in_round_trips (c : JobQueue) (job : Job) (t : Z) (s : store)
    (cn : list (option fault)) (hs : list Work) :
  let w' := (Submit c job (mkWorld t s cn)).2 in
  let '(u1, s1, hs1) := caller_move c (Call (OpSubmit job)) (mkCaller cn Ready) t s hs in
  let '(u2, s2, hs2) := caller_move c Next u1 t s1 hs1 in
  u2 = mkCaller (wire w') Ready ∧ s2 = db w' ∧ hs2 = hs.
Proof.
  cbn zeta. unfold Submit, bind. cbn [caller_move doing conn].
  pose proof (IsQueued_now c job (mkWorld t s cn)) as Hn.
  destruct (IsQueued_world c job (mkWorld t s cn)) as (x & Hx & _).
  destruct (jobQueueMarshal job) as [[key payload] err] eqn:Hm.
  destruct (IsQueued c job (mkWorld t s cn)) as [r w1]. cbn [fst snd now] in *. subst r.
  destruct x as [queued e]. destruct w1 as [t1 s1 cn1]. cbn [now db wire] in *. subst t1.
  destruct (bool_decide (e ≠ None) || queued); cbn [caller_move doing conn ret snd db wire].
  - done.
  - rewrite Hm. done.
Qed.

(** The same for [Get]: the pop, the payload and, when the payload is
    rejected, the resubmission. *)
Lemma Get_in_round_trips (c : JobQueue) (v : Decoder) (t : Z) (s : store)
    (cn : list (option fault)) (hs : list Work) :
  let r := (Get c v (mkWorld t s cn)).1 in
  let w' := (Get c v (mkWorld t s cn)).2 in
  let '(u1, s1, hs1) := caller_move c (Call (OpGet v)) (mkCaller cn Ready) t s hs in
  let '(u2, s2, hs2) := caller_move c Next u1 t s1 hs1 in
  let '(u3, s3, hs3) := caller_move c Next u2 t s2 hs2 in
  conn u3 = wire w' ∧ s3 = db w'
  ∧ hs3 = match handle_of r with Some h => h :: hs | None => hs end
  ∧ doing u3 = match r with Panics msg => Panicked msg | _ => Ready end.
Proof.
  cbn zeta. unfold Get, bind. cbn [caller_move doing conn].
  pose proof (Do_now (BRPOPLPUSH (Queue c) (processing (Queue c)) 0) (mkWorld t s cn)) as Hn.
  destruct (Do_outcome (BRPOPLPUSH (Queue c) (processing (Queue c)) 0) (mkWorld t s cn))
    as [[Eb Ew] | [r Er]].
  { rewrite (surjective_pairing (Do _ _)), Eb, Ew. done. }
  rewrite (surjective_pairing (Do _ _)), Er.
  destruct (Do (BRPOPLPUSH (Queue c) (processing (Queue c)) 0) (mkWorld t s cn)).2
    as [t1 s1 cn1].
  cbn [now db wire] in *. subst t1.
  destruct (Bytes r) as [k [e|]]; cbn [caller_move doing conn ret snd fst db wire handle_of];
    [done |].
  destruct (hget_world (payloads (Queue c)) k (mkWorld t s1 cn1)) as (x & Ex).
  rewrite Ex. cbn [now db wire].
  destruct (Bytes x) as [d err].
  destruct (match err with None => jobQueueUnmarshal d v | Some _ => err end) as [e|];
    cbn [caller_move doing conn ret snd fst db wire handle_of now]; [| done].
  pose proof (DoExec_now [LREM (processing (Queue c)) 0 k; LPUSH (Queue c) k]
                (mkWorld t s1 (sent (mkWorld t s1 cn1)))) as Hn3.
  unfold Resubmit. cbn [WQueue key].
  destruct (DoExec _ _) as [rr w3]. cbn [snd now] in Hn3.
  destruct (exec_err rr) as [re|]; cbn [panic ret fst snd handle_of doing conn]; done.
Qed.

(** C2, as stated, fails.  (a) After [Submit; Get; Resubmit; Resubmit] on the
    one handle and another [Get], the key is in the waiting list and in the
    processing list at once.  (b) The membership check of [Submit] and its
    transaction are two round trips: when a second client submits the same job
    between them, both are accepted, the key is twice in the waiting list, and
    after a [Get] it is in both lists. *)
Lemma conservation_fails_without_discipline :
  let c := NewJobQueue "jobs" in
  let v : Decoder := λ _, None in
  let job := mkJob (inl "[1,7]") None in
  let h := mkWork "jobs" "[1,7]" in
  let w0 := mkWorld 0 Redis.empty [] in
  (let w1 := (Submit c job w0).2 in
   let w2 := (Get c v w1).2 in
   let w3 := (Resubmit h w2).2 in
   let w4 := (Resubmit h w3).2 in
   let w5 := (Get c v w4).2 in
   (Get c v w1).1 = Returns (Some h, None)
   ∧ lrange "jobs" (db w5) = ["[1,7]"]
   ∧ lrange "jobs:processing" (db w5) = ["[1,7]"]
   ∧ ∀ pl, ¬ placed c (db w5) "[1,7]" pl)
  ∧ (let a1 := IsQueued c job w0 in
     let b := Submit c job a1.2 in
     let a2 := Submit_exec c "[1,7]" "[1,7]" b.2 in
     let g := Get c v a2.2 in
     a1.1 = Returns (false, None)
     ∧ b.1 = Returns None
     ∧ a2.1 = Returns None
     ∧ lrange "jobs" (db a2.2) = ["[1,7]"; "[1,7]"]
     ∧ lrange "jobs" (db g.2) = ["[1,7]"]
     ∧ lrange "jobs:processing" (db g.2) = ["[1,7]"]
     ∧ ∀ pl, ¬ placed c (db g.2) "[1,7]" pl).
Proof.
  vm_compute. split_and!; try done.
  - intros [| |]; intros (? & ? & ?); done.
  - intros [| |]; intros (? & ? & ?); done.
Qed.

Lemma fault_at_drop (j k : nat) (t : Z) (s : store) (w : World) :
  fault_at j (mkWorld t s (drop k (wire w))) = fault_at (k + j) w.
Proof. unfold fault_at. simpl. by rewrite lookup_drop. Qed.

Lemma sent_drop (t : Z) (s : store) (k : nat) (w : World) :
  sent (mkWorld t s (drop k (wire w))) = drop (S k) (wire w).
Proof.
  unfold sent. simpl. replace (tail (drop k (wire w))) with (drop 1 (drop k (wire w)))
    by (by destruct (drop k (wire w))).
  by rewrite drop_drop, Nat.add_1_r.
Qed.

Lemma px_pos (l : Lock) : (Millisecond <= Expiry l)%Z → (0 < px l)%Z.
Proof.
  unfold px, Millisecond. intros H.
  assert (1 <= Expiry l ÷ 1000000)%Z; [| lia].
  apply Z.quot_le_lower_bound; lia.
Qed.

(** ** LockWait *)

Lemma attempt_now (l : Lock) (w : World) : now (attempt l w).2 = now w.
Proof.
  unfold attempt, Do. destruct (next_fault w) as [[m|m]|]; [done | done |].
  destruct (exec (now w) (SET (Key l) "1" NX (px l)) (db w)) as [[r|] s]; [| done].
  by destruct r.
Qed.

Lemma attempt_wire (l : Lock) (w : World) : wire (attempt l w).2 = sent w.
Proof.
  unfold attempt, Do. destruct (next_fault w) as [[m|m]|]; [done | done |].
  simpl. destruct (px l <=? 0)%Z; [done |].
  by destruct (negb (live (now w) (Key l) (db w))).
Qed.

Lemma turn_wire (E : Env) (l : Lock) (w : World) : wire (turn E l w) = sent w.
Proof. unfold turn, Sleep, Lapse. simpl. by rewrite attempt_wire. Qed.

Lemma turns_wire (E : Env) (l : Lock) (n : nat) : ∀ w,
  wire (turns E l n w) = drop n (wire w).
Proof.
  induction n as [|n IH]; intros w; [by rewrite drop_0 |].
  cbn [turns]. rewrite IH, turn_wire. unfold sent.
  destruct (wire w); [cbn [tail]; by rewrite !drop_nil | done].
Qed.

Lemma fault_at_turns (E : Env) (l : Lock) (n j : nat) (w : World) :
  fault_at j (turns E l n w) = fault_at (n + j) w.
Proof. unfold fault_at. by rewrite turns_wire, lookup_drop. Qed.

(** A turn of the loop takes more than [Expiry]. *)
Lemma turn_time (E : Env) (l : Lock) (w : World) :
  (now w + Z.max (Expiry l) 0 < now (turn E l w))%Z.
Proof. unfold turn, Sleep, Lapse. cbn [now]. rewrite attempt_now. cbn [Send Lapse now]. lia. Qed.

Lemma turns_time (E : Env) (l : Lock) (n : nat) : ∀ w,
  (now w + Z.of_nat n * (Z.max (Expiry l) 0 + 1) <= now (turns E l n w))%Z.
Proof.
  induction n as [|n IH]; intros w; cbn [turns]; [lia |].
  pose proof (IH (turn E l w)). pose proof (turn_time E l w). lia.
Qed.

Lemma relock (l0 : Lock) : lock l0 = false → set_lock false (set_lock true l0) = l0.
Proof. destruct l0; simpl; intros ->; reflexivity. Qed.

Section LockWait_facts.
Variable E : Env.
Variable l : Lock.
Hypothesis Hms : (Millisecond <= Expiry l)%Z.
Hypothesis Hheld : ∀ t s, live t (Key l) (others E t s) = true.

Lemma attempt_busy (w : World) :
  fault_at 0 w = None → live (now w) (Key l) (db w) = true →
  attempt l w = (Returns (inl Nil), mkWorld (now w) (db w) (sent w)).
Proof.
  intros F0 Hlive. unfold attempt, Do. rewrite next_fault_at, F0. simpl.
  pose proof (px_pos l Hms). destruct (px l <=? 0)%Z eqn:Ex; [lia |].
  by rewrite Hlive.
Qed.

Lemma attempt_fails (w : World) (f : fault) :
  fault_at 0 w = Some f → live (now w) (Key l) (db w) = true →
  attempt l w = (Returns (inr (fault_error f)), mkWorld (now w) (db w) (sent w)).
Proof.
  intros F0 Hlive. unfold attempt, Do. rewrite next_fault_at, F0.
  destruct f as [msg|msg]; simpl; [done |].
  pose proof (px_pos l Hms). destruct (px l <=? 0)%Z eqn:Ex; [lia |].
  by rewrite Hlive.
Qed.

Lemma Send_held (w : World) : live (now (Send E w)) (Key l) (db (Send E w)) = true.
Proof. unfold Send, Lapse. simpl. apply Hheld. Qed.

(** A turn in which the key is found held and the deadline has not come. *)
Lemma loop_turn (fuel : nat) (l' : Lock) (expire : Z) (w : World) :
  Key l' = Key l → Expiry l' = Expiry l →
  fault_at 0 w = None →
  LockWait_loop E (S fuel) l' expire w
  = if (expire <? now (turn E l w))%Z
    then Some (Returns (Some ErrLockTimeout), set_lock false l', false, turn E l w)
    else LockWait_loop E fuel l' expire (turn E l w).
Proof.
  intros HK HE F0. simpl.
  assert (A : attempt l' (Send E w) = attempt l (Send E w))
    by (unfold attempt, px; by rewrite HK, HE).
  unfold turn. rewrite A, HE.
  by rewrite (attempt_busy (Send E w) F0 (Send_held w)).
Qed.

Lemma loop_fails (fuel : nat) (l' : Lock) (expire : Z) (w : World) (f : fault) :
  Key l' = Key l → Expiry l' = Expiry l →
  fault_at 0 w = Some f →
  LockWait_loop E (S fuel) l' expire w
  = Some (Returns (Some (fault_error f)), set_lock false l', false,
          (attempt l (Send E w)).2).
Proof.
  intros HK HE F0. simpl.
  assert (A : attempt l' (Send E w) = attempt l (Send E w))
    by (unfold attempt, px; by rewrite HK, HE).
  by rewrite A, (attempt_fails (Send E w) f F0 (Send_held w)).
Qed.

(** The deadline has passed after [m] turns at the latest: the loop ends at
    the first turn after which it has. *)
Lemma loop_times_out (m : nat) : ∀ (l' : Lock) (expire : Z) (w : World),
  Key l' = Key l → Expiry l' = Expiry l →
  (∀ j, j < S m → fault_at j w = None) →
  (expire < now (turns E l (S m) w))%Z →
  ∃ n, 1 ≤ n ≤ S m
     ∧ (∀ k, 1 ≤ k < n → (now (turns E l k w) <= expire)%Z)
     ∧ (expire < now (turns E l n w))%Z
     ∧ ∀ fuel, n ≤ fuel →
         LockWait_loop E fuel l' expire w
         = Some (Returns (Some ErrLockTimeout), set_lock false l', false, turns E l n w).
Proof.
  induction m as [|m IH]; intros l' expire w HK HE Hf Hlate.
  - exists 1. split; [lia |]. split; [intros k Hk; lia |]. split; [done |].
    intros [|fuel] Hfuel; [lia |].
    rewrite loop_turn by (auto; apply Hf; lia).
    cbn [turns] in Hlate. by apply Z.ltb_lt in Hlate as ->.
  - destruct (expire <? now (turn E l w))%Z eqn:Ex.
    + exists 1. split; [lia |]. split; [intros k Hk; lia |].
      split; [by apply Z.ltb_lt in Ex |].
      intros [|fuel] Hfuel; [lia |].
      rewrite loop_turn by (auto; apply Hf; lia). by rewrite Ex.
    + destruct (IH l' expire (turn E l w) HK HE) as (n & Hn & Hbefore & Hafter & Hloop).
      { intros j Hj. change (turn E l w) with (turns E l 1 w).
        rewrite fault_at_turns. apply Hf. lia. }
      { exact Hlate. }
      exists (S n). split; [lia |]. split; [| split; [exact Hafter |]].
      * intros [|[|k]] Hk; [lia | cbn [turns]; by apply Z.ltb_ge in Ex |].
        apply (Hbefore (S k)). lia.
      * intros [|fuel] Hfuel; [lia |].
        rewrite loop_turn by (auto; apply Hf; lia). rewrite Ex. apply Hloop. lia.
Qed.

Lemma loop_goes_on (k : nat) : ∀ (fuel : nat) (l' : Lock) (expire : Z) (w : World),
  Key l' = Key l → Expiry l' = Expiry l →
  (∀ j, j < k → fault_at j w = None) →
  (∀ j, 1 ≤ j ≤ k → (now (turns E l j w) <= expire)%Z) →
  LockWait_loop E (k + fuel) l' expire w = LockWait_loop E fuel l' expire (turns E l k w).
Proof.
  induction k as [|k IH]; intros fuel l' expire w HK HE Hf Ht; [done |].
  replace (S k + fuel) with (S (k + fuel)) by lia.
  rewrite loop_turn by (auto; apply Hf; lia).
  pose proof (Ht 1 ltac:(lia)) as H1. cbn [turns] in H1.
  apply Z.ltb_ge in H1 as ->. cbn [turns]. apply IH; [done | done | |].
  - intros j Hj. change (turn E l w) with (turns E l 1 w).
        rewrite fault_at_turns. apply Hf. lia.
  - intros j Hj. apply (Ht (S j)). lia.
Qed.

(** C8: with a lease of at least a millisecond, the mutex free, and the key
    held by someone else whenever a command of the caller reaches the store,
    [LockWait(wait)] on a healthy connection returns [ErrLockTimeout], with the
    mutex released and no heartbeat started, at the end of the first turn of
    its loop -- an attempt and a sleep of [Expiry] -- after which the deadline
    [now + wait] has passed.  That is after [n] attempts, where [n] is at
    least one and at most [wait / Expiry] rounded up, and more than
    [n * Expiry] after the call.  When before that an attempt meets a store
    error, [LockWait] returns this error at once, with the mutex released. *)
Theorem LockWait_times_out (wait : Z) (w : World) :
  lock l = false →
  (healthy w →
     ∃ n, 1 ≤ n
        ∧ (Z.of_nat n <= Z.max 1 ((wait + Expiry l - 1) / Expiry l))%Z
        ∧ (∀ k, 1 ≤ k < n → (now (turns E l k w) <= now w + wait)%Z)
        ∧ (now w + wait < now (turns E l n w))%Z
        ∧ (now w + Z.of_nat n * Expiry l < now (turns E l n w))%Z
        ∧ ∀ fuel, n ≤ fuel →
            LockWait E fuel wait l w
            = Some (Returns (Some ErrLockTimeout), l, false, turns E l n w))
  ∧ (∀ k f, (∀ j, j < k → fault_at j w = None) → fault_at k w = Some f →
       (∀ j, 1 ≤ j ≤ k → (now (turns E l j w) <= now w + wait)%Z) →
       ∀ fuel, k < fuel →
         LockWait E fuel wait l w
         = Some (Returns (Some (fault_error f)), l, false,
                 (attempt l (Send E (turns E l k w))).2)).
Proof.
  intros Hfree.
  assert (HE : (0 < Expiry l)%Z) by (unfold Millisecond in Hms; lia).
  split.
  - intros Hw.
    set (c := ((wait + Expiry l - 1) / Expiry l)%Z).
    set (m := Z.to_nat (Z.max 1 c) - 1).
    assert (Hm : Z.of_nat (S m) = Z.max 1 c) by (unfold m; lia).
    assert (Hc : (wait <= c * Expiry l)%Z).
    { unfold c. pose proof (Z.mul_succ_div_gt (wait + Expiry l - 1) (Expiry l) HE). lia. }
    assert (Hlate : (now w + wait < now (turns E l (S m) w))%Z).
    { pose proof (turns_time E l (S m) w) as Ht. rewrite Z.max_l in Ht by lia.
      assert (wait <= Z.of_nat (S m) * Expiry l)%Z by (rewrite Hm; nia). nia. }
    destruct (loop_times_out m (set_lock true l) (now w + wait)%Z w eq_refl eq_refl)
      as (n & Hn & Hbefore & Hafter & Hloop); [by intros; apply Hw | done |].
    exists n. split; [lia |]. split; [lia |]. split; [done |]. split; [done |].
    split.
    + pose proof (turns_time E l n w) as Ht. rewrite Z.max_l in Ht by lia. nia.
    + intros fuel Hfuel. unfold LockWait. rewrite Hfree, (Hloop fuel Hfuel).
      by rewrite relock.
  - intros k f Hjs Hf Ht fuel Hfuel. unfold LockWait. rewrite Hfree.
    replace fuel with (k + S (fuel - S k)) by lia.
    rewrite loop_goes_on by done.
    rewrite (loop_fails _ _ _ _ f) by
      (auto; rewrite fault_at_turns; by rewrite Nat.add_0_r).
    by rewrite relock.
Qed.

End LockWait_facts.

Lemma rival_holds (key : string) (ttl : Z) (t : Z) (s : store) :
  (0 < ttl)%Z → live t key (rival key ttl t s) = true.
Proof.
  intros H. unfold live, rival, put_lease. simpl. rewrite lookup_insert_eq.
  apply Z.ltb_lt. lia.
Qed.

Lemma LockWait_times_out_witness :
  let l := mkLock "lock" (300 * Millisecond) false [] [] [] in
  let E := prompt (rival "lock" (2 * Second)) in
  let held := put_lease "lock" 100 Redis.empty in
  (∃ n, 1 ≤ n
      ∧ (Z.of_nat n <= 2)%Z
      ∧ (0 + 600 * Millisecond < now (turns E l n (mkWorld 0 held [])))%Z
      ∧ LockWait E 2 (600 * Millisecond) l (mkWorld 0 held [])
        = Some (Returns (Some ErrLockTimeout), l, false, turns E l n (mkWorld 0 held [])))
  ∧ LockWait E 2 (600 * Millisecond) l (mkWorld 0 held [None; Some (Refused "EOF")])
    = Some (Returns (Some (NetError "EOF")), l, false,
            mkWorld 300000002 (rival "lock" (2 * Second) 300000002 held) []).
Proof.
  intros l E held.
  pose proof (LockWait_times_out E l ltac:(vm_compute; discriminate)
                (λ t s, rival_holds "lock" (2 * Second) t s eq_refl)
                (600 * Millisecond)) as H.
  split.
  - destruct (H (mkWorld 0 held []) eq_refl) as [H1 _].
    destruct (H1 (healthy_nil _ _)) as (n & Hn & Hle & _ & Hlate & _ & Hloop).
    exists n. split; [exact Hn |]. split; [exact Hle |]. split; [exact Hlate |].
    apply Hloop. change (Z.of_nat n <= Z.of_nat 2)%Z in Hle. lia.
  - destruct (H (mkWorld 0 held [None; Some (Refused "EOF")]) eq_refl) as [_ H2].
    apply (H2 1 (Refused "EOF")).
    + intros [|j] Hj; [reflexivity | lia].
    + reflexivity.
    + intros [|[|j]] Hj; [lia | vm_compute; discriminate | lia].
    + lia.
Defined.

(** ** Mutual exclusion *)

Lemma live_put_lease (t : Z) (k k' : string) (d : Z) (s : store) :
  live t k (put_lease k' d s) = if decide (k' = k) then (t <? d)%Z else live t k s.
Proof.
  unfold live, put_lease. simpl. case_decide.
  - subst. by rewrite lookup_insert_eq.
  - by rewrite lookup_insert_ne.
Qed.

Lemma acquired_fresh (a : Lock) (w : World) :
  acquired (attempt a w).1 = true →
  live (now w) (Key a) (db w) = false
  ∧ now (attempt a w).2 = now w
  ∧ live (now w) (Key a) (db (attempt a w).2) = true.
Proof.
  unfold attempt, Do. destruct (next_fault w) as [[m|m]|]; [done | done |].
  simpl. destruct (px a <=? 0)%Z eqn:Hp; [done |]. apply Z.leb_gt in Hp.
  destruct (live (now w) (Key a) (db w)) eqn:Hlive; simpl; [done |].
  intros _. split_and!; [done | done |].
  rewrite live_put_lease. rewrite decide_True by done.
  apply Z.ltb_lt. unfold nanos_per_milli. lia.
Qed.

(** What a [SET] with a lease does to the store, whether its reply arrives
    or not. *)
Lemma Do_SET_cases (key v : string) (cnd : cond) (p : Z) (w : World) :
  now (Do (SET key v cnd p) w).2 = now w
  ∧ (db (Do (SET key v cnd p) w).2 = db w
     ∨ (0 < p)%Z
       ∧ db (Do (SET key v cnd p) w).2 = put_lease key (now w + p * nanos_per_milli) (db w)).
Proof.
  unfold Do. destruct (next_fault w) as [[m|m]|]; cbn [exec].
  - split; [done | by left].
  - destruct (p <=? 0)%Z eqn:Hp; [split; [done | by left] |]. apply Z.leb_gt in Hp.
    destruct (match cnd with NX => _ | XX => _ end); split; try done; [right | left]; done.
  - destruct (p <=? 0)%Z eqn:Hp; [split; [done | by left] |]. apply Z.leb_gt in Hp.
    destruct (match cnd with NX => _ | XX => _ end); split; try done; [right | left]; done.
Qed.

Lemma Do_SET_leased (t0 : Z) (k key v : string) (cnd : cond) (p : Z) (w : World) :
  leased t0 k (now w) (db w) →
  leased t0 k (now (Do (SET key v cnd p) w).2) (db (Do (SET key v cnd p) w).2).
Proof.
  intros [Ht (dl & Hdl & Hlt)].
  destruct (Do_SET_cases key v cnd p w) as [-> [-> | [Hp ->]]]; [by split; eauto |].
  split; [done |]. unfold put_lease. cbn [leases].
  destruct (decide (key = k)) as [->|Hne].
  - rewrite lookup_insert_eq. eexists. split; [done |]. unfold nanos_per_milli. lia.
  - rewrite lookup_insert_ne by done. eauto.
Qed.

Lemma event_leased (t0 : Z) (k : string) (e : event) (w : World) :
  leased t0 k (now w) (db w) →
  leased t0 k (now (run_event w e)) (db (run_event w e)).
Proof.
  intros H. destruct e as [l|l|l|d]; cbn [run_event].
  - by apply Do_SET_leased.
  - by apply Do_SET_leased.
  - done.
  - destruct H as [Ht Hdl]. cbn [now db]. split; [lia | done].
Qed.

Lemma run_leased (t0 : Z) (k : string) (es : list event) : ∀ w,
  leased t0 k (now w) (db w) → leased t0 k (now (run es w)) (db (run es w)).
Proof.
  induction es as [|e es IH]; intros w H; [done |].
  apply (IH (run_event w e)). by apply event_leased.
Qed.

(** A call that returns nil has had an attempt of its own accepted by the
    store, and has not touched the store after it; on the way there, what is
    true of the store and the clock whenever the others have acted is still
    true. *)
Lemma LockWait_loop_nil (E : Env) (P : Z → store → Prop) :
  (∀ d w, (0 <= d)%Z → P (now w) (db w) → P (now (Lapse E d w)) (db (Lapse E d w))) →
  ∀ fuel l expire w l' started w',
    P (now w) (db w) →
    LockWait_loop E fuel l expire w = Some (Returns None, l', started, w') →
    l' = l ∧ ∃ wb, P (now wb) (db wb)
           ∧ acquired (attempt l wb).1 = true
           ∧ w' = (attempt l wb).2.
Proof.
  intros HP. induction fuel as [|fuel IH]; intros l expire w l' started w' Hw H; [done |].
  cbn [LockWait_loop] in H.
  assert (Ha : P (now (Send E w)) (db (Send E w))) by (apply HP; [lia | done]).
  destruct (attempt l (Send E w)) as [[[rp|e]|msg|] w1] eqn:Ea; try done.
  destruct rp as [| | | | |]; try (injection H as <- <- <-; split; [done |];
    exists (Send E w); rewrite Ea; done).
  destruct (_ <? _)%Z in H; [done |].
  apply IH in H; [done |].
  pose proof (attempt_now l (Send E w)) as Hn. rewrite Ea in Hn. cbn [snd] in Hn.
  assert (Hs : db w1 = db (Send E w)).
  { destruct (Do_SET_cases (Key l) "1" NX (px l) (Send E w)) as [_ [Hs | [Hp Hs]]];
      fold (attempt l) in Hs; rewrite Ea in Hs; [done |].
    pose proof (acquired_fresh l (Send E w)) as Hf. rewrite Ea in Hf.
    unfold attempt, Do in Ea.
    destruct (next_fault (Send E w)) as [[m|m]|]; [done | done |].
    cbn [exec] in Ea. destruct (px l <=? 0)%Z; [done |].
    destruct (live (now (Send E w)) (Key l) (db (Send E w))); cbn in Ea; [| done].
    by injection Ea as <-. }
  apply HP; [lia |]. by rewrite Hn, Hs.
Qed.

(** C1: [LockWait] on handle [a] and [LockWait] on handle [b], for the same
    key, both return nil; the calls may overlap in time, and each has its own
    environment.  Then both mutexes are held, and each call has returned nil
    because the store accepted one of its own attempts, made during the call
    and followed by no other round trip of the call.  The key was alive in the
    store when [a] was acquired.  And whenever callers of [LockWait],
    heartbeats and calls of [Unlock] of any handles act on the store after
    that, one round trip at a time, in any order, on any connection, while time
    passes, and then at the instant of [b]'s acquisition the store accepts an
    attempt of [b], the lease that the store held for the key had run out:
    its end lies after the acquisition of [a] and not after that of [b].
    Nothing but the expiry of the lease ends the exclusion; [Unlock], which
    sends nothing to the store, does not. *)
Theorem mutual_exclusion (a b : Lock) (EA EB : Env) (fa fb : nat) (waita waitb : Z)
    (wA wB : World) (a' b' : Lock) (sa sb : bool) (w1 w2 : World) :
  Key a = Key b →
  LockWait EA fa waita a wA = Some (Returns None, a', sa, w1) →
  LockWait EB fb waitb b wB = Some (Returns None, b', sb, w2) →
  lock a' = true ∧ lock b' = true
  ∧ (∃ wa, acquired (attempt a wa).1 = true ∧ w1 = (attempt a wa).2
         ∧ (now wA <= now wa)%Z)
  ∧ (∃ wb, acquired (attempt b wb).1 = true ∧ w2 = (attempt b wb).2
         ∧ (now wB <= now wb)%Z)
  ∧ live (now w1) (Key a) (db w1) = true
  ∧ ∀ mid cn,
      let h := run mid (mkWorld (now w1) (db w1) cn) in
      acquired (attempt b h).1 = true →
      now (attempt b h).2 = now w2 →
      ∃ dl, leases (db h) !! Key a = Some dl ∧ (now w1 < dl <= now w2)%Z.
Proof.
  intros HK Ha Hb. unfold LockWait in Ha, Hb.
  destruct (lock a) eqn:Hla; [done |]. destruct (lock b) eqn:Hlb; [done |].
  apply (LockWait_loop_nil EA (λ t _, (now wA <= t)%Z)) in Ha
    as (-> & wa & Hta & Hacq & ->); [| by intros; unfold Lapse; cbn [now]; lia | lia].
  apply (LockWait_loop_nil EB (λ t _, (now wB <= t)%Z)) in Hb
    as (-> & wb & Htb & Hacqb & ->); [| by intros; unfold Lapse; cbn [now]; lia | lia].
  change (attempt (set_lock true a) wa) with (attempt a wa) in *.
  change (attempt (set_lock true b) wb) with (attempt b wb) in *.
  destruct (acquired_fresh a wa Hacq) as (_ & Hnow & Hlive).
  rewrite <- Hnow in Hlive.
  split; [done |]. split; [done |]. split; [by exists wa |]. split; [by exists wb |].
  split; [done |].
  intros mid cn h Hacqh Hn.
  assert (H1 : leased (now (attempt a wa).2) (Key a)
                 (now (mkWorld (now (attempt a wa).2) (db (attempt a wa).2) cn))
                 (db (mkWorld (now (attempt a wa).2) (db (attempt a wa).2) cn))).
  { cbn [now db]. split; [lia |]. unfold live in Hlive.
    destruct (leases (db (attempt a wa).2) !! Key a) as [dl|]; [| done].
    exists dl. split; [done | by apply Z.ltb_lt]. }
  apply (run_leased _ _ mid) in H1. fold h in H1.
  destruct H1 as (_ & dl & Hdl & Hlt). exists dl. split; [done |]. split; [done |].
  destruct (acquired_fresh b h Hacqh) as (Hdead & Hnh & _).
  rewrite <- Hn, Hnh. rewrite <- HK in Hdead. unfold live in Hdead.
  rewrite Hdl in Hdead. by apply Z.ltb_ge in Hdead.
Qed.

Lemma mutual_exclusion_witness :
  let a := NewLock "lock" in
  let b := mkLock "lock" (2 * Second) false [] [] [] in
  let w := mkWorld 0 Redis.empty [] in
  let EB := mkEnv (λ _, put_lease "lock" (1 + 2 * Second)) (λ _, 2%positive) (λ _, 0%N) in
  let w1 := mkWorld 1 (put_lease "lock" (1 + 2 * Second) Redis.empty) [] in
  let w2 := mkWorld (2 * Second + 4) (put_lease "lock" (4 * Second + 4) Redis.empty) [] in
  let mid := [Pass 1; Attempt b; Beat a; Release a; Pass 2000000002] in
  LockWait (prompt idle) 1 0 a w = Some (Returns None, set_lock true a, true, w1)
  ∧ LockWait EB 2 (5 * Second) b w = Some (Returns None, set_lock true b, true, w2)
  ∧ (attempt b (run mid w1)).2 = w2
  ∧ ∃ dl, leases (db (run mid w1)) !! "lock" = Some dl ∧ (now w1 < dl <= now w2)%Z.
Proof.
  intros a b w EB w1 w2 mid.
  split; [reflexivity |]. split; [reflexivity |]. split; [reflexivity |].
  exact (proj2 (proj2 (proj2 (proj2 (proj2
    (mutual_exclusion a b (prompt idle) EB 1 2 0 (5 * Second) w w
       _ _ _ _ w1 w2 eq_refl eq_refl eq_refl))))) mid [] eq_refl eq_refl).
Defined.

(** ** Unlock *)

Lemma fire_pc (t : Z) (hb hb' : Heartbeat) : fire t hb = Some hb' → pc hb' = pc hb.
Proof.
  unfold fire. destruct (wait hb) as [tk|]; [| done].
  destruct (next_tick tk <=? t)%Z; [| done]. by intros [= <-].
Qed.

Lemma wedged_step (s s' : System) : wedged s → step s s' → wedged s'.
Proof.
  intros (Hl & Hs & Hb & Hu) Hstep. destruct Hstep; unfold wedged; simpl.
  - done.
  - split_and!; [done | done | | done].
    apply Forall_insert; [done |]. rewrite (fire_pc _ _ _ H0).
    by eapply (Forall_lookup_1 _ _ _ _ Hb).
  - pose proof (Forall_lookup_1 _ _ _ _ Hb H) as Hd. simpl in Hd.
    unfold heartbeat_step in H0. by rewrite Hd in H0.
  - unfold LockWait in H. by rewrite Hl in H.
  - split_and!; [done | done | done |].
    apply Forall_app. split; [done |]. apply Forall_singleton. by left.
  - pose proof (Forall_lookup_1 _ _ _ _ Hu H) as Hp. simpl in Hp.
    destruct Hp as [-> | ->]; simpl in H0.
    + destruct (stop (handle s)); [| done]. injection H0 as <- <-.
      split_and!; [done | done | done |].
      apply Forall_insert; [done | by right].
    + by rewrite Hs in H0.
Qed.

Lemma wedged_rtc (s s' : System) : wedged s → rtc step s s' → wedged s'.
Proof. intros Hw Hr. induction Hr; [done |]. eauto using wedged_step. Qed.

Lemma first_call_stays (s s' : System) (p : unlock_pc) :
  step s s' → unlocks s !! 0 = Some p →
  ∃ p', unlocks s' !! 0 = Some p'.
Proof.
  intros Hstep H0. destruct Hstep; simpl; eauto.
  - exists p. by rewrite lookup_app_l by (by eapply lookup_lt_Some).
  - destruct (decide (i = 0)) as [->|Hne].
    + exists p'. rewrite list_lookup_insert_eq; [done | by eapply lookup_lt_Some].
    + exists p. by rewrite list_lookup_insert_ne.
Qed.

Lemma first_call_rtc (s s' : System) :
  rtc step s s' → is_Some (unlocks s !! 0) → is_Some (unlocks s' !! 0).
Proof.
  intros Hr. induction Hr as [s|s1 s2 s3 Hs Hr IH]; [done |].
  intros [p Hp]. apply IH. destruct (first_call_stays s1 s2 p Hs Hp) as [p' ?]. eauto.
Qed.

(** C10: the handle is held, its heartbeat has sent a store error on
    [errors] and returned, and [Unlock] is called.  The call can put its value
    in [stop]; after that, whatever the goroutines of the handle and further
    calls of [LockWait] and [Unlock] do, this call is at its send or at its
    receive from [stopped], the receive cannot proceed, and the mutex stays
    held. *)
Theorem Unlock_after_lost_heartbeat_blocks (s0 s : System) (e : error) :
  lock (handle s0) = true →
  errors (handle s0) = [e] →
  stop (handle s0) = [] →
  stopped (handle s0) = [] →
  Forall (λ hb, pc hb = HbExit) (beats s0) →
  unlocks s0 = [UnSend] →
  rtc step s0 s →
  Unlock_step UnSend (handle s0) = Some (UnWait, set_stop [true] (handle s0))
  ∧ (∃ p, unlocks s !! 0 = Some p ∧ (p = UnSend ∨ p = UnWait))
  ∧ Unlock_step UnWait (handle s) = None
  ∧ lock (handle s) = true.
Proof.
  intros Hl He Hst Hsd Hb Hu Hr.
  assert (Hw0 : wedged s0).
  { split_and!; [done | done | done |]. rewrite Hu. apply Forall_singleton. by left. }
  destruct (wedged_rtc s0 s Hw0 Hr) as (Hl' & Hsd' & _ & Hu').
  split_and!.
  - simpl. by rewrite Hst.
  - destruct (first_call_rtc s0 s Hr) as [p Hp]; [rewrite Hu; eauto |].
    exists p. split; [done |]. by apply (Forall_lookup_1 _ _ _ _ Hu' Hp).
  - simpl. by rewrite Hsd'.
  - done.
Qed.

Lemma Unlock_after_lost_heartbeat_blocks_witness :
  let l := mkLock "lock" (2 * Second) true [NetError "EOF"] [] [] in
  let w := mkWorld 0 Redis.empty [] in
  let s0 := mkSystem w l [mkHb HbExit None] [UnSend] in
  let s := mkSystem w (set_stop [true] l) [mkHb HbExit None] [UnWait] in
  rtc step s0 s
  ∧ Unlock_step UnSend l = Some (UnWait, set_stop [true] l)
  ∧ (∃ p, unlocks s !! 0 = Some p ∧ (p = UnSend ∨ p = UnWait))
  ∧ Unlock_step UnWait (handle s) = None
  ∧ lock (handle s) = true.
Proof.
  intros l w s0 s.
  assert (Hr : rtc step s0 s).
  { eapply rtc_l; [| apply rtc_refl].
    exact (step_Unlock s0 0 UnSend UnWait (set_stop [true] l) eq_refl eq_refl). }
  split; [exact Hr |].
  apply (Unlock_after_lost_heartbeat_blocks s0 s (NetError "EOF"));
    [reflexivity | reflexivity | reflexivity | reflexivity | | reflexivity | exact Hr].
  apply Forall_cons_2; [reflexivity | apply Forall_nil_2].
Defined.

(** The state in which C10 starts arises on a fresh handle: [LockWait]
    succeeds, the first renewal of the heartbeat meets a store error, the
    heartbeat sends it on [errors] and returns, and [Unlock] is called. *)
Example lost_heartbeat_reachable :
  let l := NewLock "lock" in
  let w := mkWorld 0 Redis.empty [None; Some (Refused "EOF")] in
  ∃ w' tk,
    rtc step (mkSystem w l [] [])
      (mkSystem w' (set_errors [NetError "EOF"] (set_lock true l))
         [mkHb HbExit tk] [UnSend]).
Proof.
  intros l w. eexists _, _.
  eapply rtc_l.
  { apply (step_LockWait (mkSystem w l [] []) (prompt idle) 1 0 None (set_lock true l) true).
    reflexivity. }
  eapply rtc_l.
  { eapply (step_heartbeat _ 0 true); [reflexivity | reflexivity]. }
  eapply rtc_l.
  { eapply (step_heartbeat _ 0 true); [reflexivity | reflexivity]. }
  eapply rtc_l.
  { eapply (step_heartbeat _ 0 true); [reflexivity | reflexivity]. }
  eapply rtc_l.
  { apply step_call_Unlock. }
  apply rtc_refl.
Qed.

(** ** The phases of a handle *)

Lemma exited_but_insert (i : nat) (o : option nat) (bs : list Heartbeat) (hb : Heartbeat) :
  exited_but o bs → (Some i ≠ o → pc hb = HbExit) → exited_but o (<[i:=hb]> bs).
Proof.
  intros H Hhb j hb' Hj Hne.
  apply list_lookup_insert_Some in Hj as [(-> & -> & _) | (Hji & Hj)]; eauto.
Qed.

Lemma exited_but_live (o : option nat) (bs : list Heartbeat) (i : nat) (hb : Heartbeat) :
  exited_but o bs → bs !! i = Some hb → pc hb ≠ HbExit → o = Some i.
Proof.
  intros H Hi Hpc. destruct (decide (Some i = o)) as [<-|Hne]; [done |].
  destruct Hpc. by eapply H.
Qed.

Lemma exited_step (choice : bool) (hb : Heartbeat) (l : Lock) (w : World) :
  pc hb = HbExit → heartbeat_step choice hb l w = None.
Proof. unfold heartbeat_step. by intros ->. Qed.

Lemma releasing_only_insert (i : nat) (o : option nat) (us : list unlock_pc) (p : unlock_pc) :
  releasing_only o us → (Some i ≠ o → p ≠ UnRelease) → releasing_only o (<[i:=p]> us).
Proof.
  intros H Hp j p' Hj Hne.
  apply list_lookup_insert_Some in Hj as [(-> & -> & _) | (Hji & Hj)]; eauto.
Qed.

Lemma releasing_only_app (o : option nat) (us : list unlock_pc) :
  releasing_only o us → releasing_only o (us ++ [UnSend]).
Proof.
  intros H j p Hj Hne. apply lookup_app_Some in Hj as [Hj | [_ Hj]]; [eauto |].
  apply list_lookup_singleton_Some in Hj as [_ <-]. done.
Qed.

Lemma LockWait_loop_result (E : Env) (fuel : nat) : ∀ l expire w r l' started w',
  LockWait_loop E fuel l expire w = Some (Returns r, l', started, w') →
  (started = true ∧ l' = l) ∨ (started = false ∧ l' = set_lock false l).
Proof.
  induction fuel as [|fuel IH]; intros l expire w r l' started w' H; [done |].
  simpl in H. destruct (attempt l (Send E w)) as [[[rp|e]| |] w1]; try done.
  - destruct rp; try (injection H as <- <- <- <-; by left).
    destruct (_ <? _)%Z in H.
    + injection H as <- <- <- <-. by right.
    + by eapply IH.
  - injection H as <- <- <- <-. by right.
Qed.

Lemma releasing_only_found (o : option nat) (us : list unlock_pc) (i : nat) :
  releasing_only o us → us !! i = Some UnRelease → o = Some i.
Proof.
  intros H Hi. destruct (decide (Some i = o)) as [<-|Hne]; [done |].
  by destruct (H i UnRelease Hi Hne).
Qed.

Lemma phase_env (ph : phase) (s : System) (w' : World) :
  in_phase ph s → in_phase ph (mkSystem w' (handle s) (beats s) (unlocks s)).
Proof. by destruct ph. Qed.

Lemma phase_fire (ph : phase) (s : System) (i : nat) (hb hb' : Heartbeat) :
  beats s !! i = Some hb → fire (now (world s)) hb = Some hb' →
  in_phase ph s →
  in_phase ph (mkSystem (world s) (handle s) (<[i:=hb']> (beats s)) (unlocks s)).
Proof.
  intros Hi Hf Hph. pose proof (fire_pc _ _ _ Hf) as Hpc.
  assert (Hex : ∀ o, exited_but o (beats s) → exited_but o (<[i:=hb']> (beats s))).
  { intros o H. apply exited_but_insert; [done |]. intros Hne. rewrite Hpc. by eapply H. }
  destruct ph as [|i0| |j|e]; simpl in *.
  - destruct Hph as (? & ? & ? & ? & ?). split_and!; auto.
  - destruct Hph as (? & ? & ? & (hb0 & H0 & Hlive) & ? & ?). split_and!; auto.
    destruct (decide (i = i0)) as [->|Hne].
    + exists hb'. rewrite list_lookup_insert_eq by (by eapply lookup_lt_Some).
      split; [done |]. rewrite Hpc. congruence.
    + exists hb0. by rewrite list_lookup_insert_ne.
  - destruct Hph as (? & ? & ? & ? & ?). split_and!; auto.
  - destruct Hph as (? & ? & ? & ? & ? & ?). split_and!; auto.
  - destruct Hph as (? & ? & ? & ? & ?). split_and!; auto.
Qed.

Lemma phase_call_Unlock (ph : phase) (s : System) :
  in_phase ph s →
  in_phase ph (mkSystem (world s) (handle s) (beats s) (unlocks s ++ [UnSend])).
Proof.
  intros Hph. destruct ph as [|i0| |j|e]; simpl in *.
  - destruct Hph as (? & ? & ? & ? & ?). split_and!; auto using releasing_only_app.
  - destruct Hph as (? & ? & ? & ? & ? & ?). split_and!; auto using releasing_only_app.
  - destruct Hph as (? & ? & ? & ? & ?). split_and!; auto using releasing_only_app.
  - destruct Hph as (? & ? & ? & Hj & ? & ?). split_and!; auto using releasing_only_app.
    rewrite lookup_app_l; [done | by eapply lookup_lt_Some].
  - destruct Hph as (? & ? & ? & ? & ?). split_and!; auto using releasing_only_app.
Qed.

Lemma phase_LockWait (ph : phase) (s : System) (E : Env)
    (fuel : nat) (wt : Z) (r : option error) (l' : Lock) (started : bool) (w' : World) :
  LockWait E fuel wt (handle s) (world s) = Some (Returns r, l', started, w') →
  in_phase ph s →
  ∃ ph', in_phase ph'
           (mkSystem w' l' (beats s ++ if started then [mkHb HbStart None] else [])
              (unlocks s)).
Proof.
  unfold LockWait. intros HL Hph.
  destruct (lock (handle s)) eqn:Hlock; [done |].
  destruct ph as [|i0| |j|e]; simpl in Hph; try (destruct Hph as (? & _); congruence).
  destruct Hph as (_ & He & Hs & Hb & Hu).
  destruct (LockWait_loop_result _ _ _ _ _ _ _ _ _ HL) as [[-> ->] | [-> ->]].
  - exists (Beating (length (beats s))). simpl. split_and!; auto.
    + exists (mkHb HbStart None). split; [| done].
      rewrite lookup_app_r by done. by rewrite Nat.sub_diag.
    + intros j hb Hj Hne. apply lookup_app_Some in Hj as [Hj | [Hge Hj]].
      * by eapply Hb.
      * apply list_lookup_singleton_Some in Hj as [Hj _].
        destruct Hne. f_equal. lia.
  - exists Idle. simpl. rewrite app_nil_r. split_and!; auto.
Qed.

Lemma phase_heartbeat (ph : phase) (s : System) (i : nat) (choice : bool)
    (hb hb' : Heartbeat) (l' : Lock) (w' : World) :
  beats s !! i = Some hb →
  heartbeat_step choice hb (handle s) (world s) = Some (hb', l', w') →
  in_phase ph s →
  ph = Beating i
  ∧ (pc hb' ≠ HbExit ∧ in_phase (Beating i) (mkSystem w' l' (<[i:=hb']> (beats s)) (unlocks s))
     ∨ pc hb = HbAck ∧ in_phase Acked (mkSystem w' l' (<[i:=hb']> (beats s)) (unlocks s))
     ∨ ∃ e, pc hb = HbReport e
          ∧ in_phase (Lost e) (mkSystem w' l' (<[i:=hb']> (beats s)) (unlocks s))).
Proof.
  intros Hi Hstep Hph.
  assert (Hlive : pc hb ≠ HbExit).
  { intros E. by rewrite (exited_step _ _ _ _ E) in Hstep. }
  assert (Hlen : i < length (beats s)) by (by eapply lookup_lt_Some).
  destruct ph as [|i0| |j|e]; simpl in Hph.
  - destruct Hph as (_ & _ & _ & Hb & _). by pose proof (exited_but_live _ _ _ _ Hb Hi Hlive).
  - destruct Hph as (Hl & He & Hs & _ & Hb & Hu).
    pose proof (exited_but_live _ _ _ _ Hb Hi Hlive) as [= ->]. split; [done |].
    assert (Hkeep : ∀ p tk l1 w1, p ≠ HbExit →
              lock l1 = true → errors l1 = [] → stopped l1 = [] →
              in_phase (Beating i)
                (mkSystem w1 l1 (<[i:=mkHb p tk]> (beats s)) (unlocks s))).
    { intros p tk l1 w1 Hp H1 H2 H3. simpl. split_and!; auto.
      - exists (mkHb p tk). by rewrite list_lookup_insert_eq.
      - apply exited_but_insert; [done | congruence]. }
    assert (Hend : exited_but None (<[i:=hb']> (beats s)) ↔ pc hb' = HbExit).
    { split.
      - intros H. eapply (H i); [by rewrite list_lookup_insert_eq | done].
      - intros E j hb0 Hj _.
        apply list_lookup_insert_Some in Hj as [(-> & -> & _) | (Hji & Hj)]; [done |].
        eapply Hb; [done | congruence]. }
    unfold heartbeat_step in Hstep.
    destruct (pc hb) as [| |err| | |] eqn:Hpc.
    + injection Hstep as <- <- <-. left. split; [done |]. by apply Hkeep.
    + destruct (renew (handle s) (world s)) as [[[rp|err]| |] w1]; try done;
        injection Hstep as <- <- <-; left; (split; [done |]); by apply Hkeep.
    + rewrite He in Hstep. injection Hstep as <- <- <-. right; right.
      exists err. split; [done |]. simpl. split_and!; auto. by apply Hend.
    + destruct (stop (handle s)) as [|b rest].
      * destruct (tick_ready hb); [| done].
        injection Hstep as <- <- <-. left. split; [done |]. by apply Hkeep.
      * destruct (choice || negb (tick_ready hb));
          injection Hstep as <- <- <-; left; (split; [done |]); by apply Hkeep.
    + rewrite Hs in Hstep. injection Hstep as <- <- <-. right; left.
      split; [done |]. simpl. split_and!; auto. by apply Hend.
    + done.
  - destruct Hph as (_ & _ & _ & Hb & _). by pose proof (exited_but_live _ _ _ _ Hb Hi Hlive).
  - destruct Hph as (_ & _ & _ & _ & Hb & _). by pose proof (exited_but_live _ _ _ _ Hb Hi Hlive).
  - destruct Hph as (_ & _ & _ & Hb & _). by pose proof (exited_but_live _ _ _ _ Hb Hi Hlive).
Qed.

Lemma phase_Unlock (ph : phase) (s : System) (i : nat) (p p' : unlock_pc) (l' : Lock) :
  unlocks s !! i = Some p →
  Unlock_step p (handle s) = Some (p', l') →
  in_phase ph s →
  ∃ ph', in_phase ph' (mkSystem (world s) l' (beats s) (<[i:=p']> (unlocks s))).
Proof.
  intros Hi Hstep Hph.
  assert (Hlen : i < length (unlocks s)) by (by eapply lookup_lt_Some).
  destruct p; simpl in Hstep; try done.
  - destruct (stop (handle s)); [| done]. injection Hstep as <- <-.
    exists ph.
    assert (Hu : ∀ o, releasing_only o (unlocks s) →
                      releasing_only o (<[i:=UnWait]> (unlocks s)))
      by (intros o H; by apply releasing_only_insert).
    destruct ph as [|i0| |j|e]; simpl in *.
    + destruct Hph as (? & ? & ? & ? & ?). split_and!; auto.
    + destruct Hph as (? & ? & ? & ? & ? & ?). split_and!; auto.
    + destruct Hph as (? & ? & ? & ? & ?). split_and!; auto.
    + destruct Hph as (? & ? & ? & Hj & ? & ?). split_and!; auto.
      rewrite list_lookup_insert_ne; [done |]. intros ->. congruence.
    + destruct Hph as (? & ? & ? & ? & ?). split_and!; auto.
  - destruct (stopped (handle s)) as [|b rest] eqn:Hs; [done |].
    injection Hstep as <- <-.
    destruct ph as [|i0| |j|e]; simpl in Hph;
      try (destruct Hph as (_ & _ & ? & _); congruence).
    destruct Hph as (Hl & He & Hs' & Hb & Hu).
    rewrite Hs in Hs'. injection Hs' as -> ->.
    exists (Releasing i). simpl. split_and!; auto.
    + by rewrite list_lookup_insert_eq.
    + intros j q Hj Hne.
      apply list_lookup_insert_Some in Hj as [(-> & _ & _) | (Hji & Hj)]; [done |].
      by eapply Hu.
  - assert (Hph' : ph = Releasing i).
    { destruct ph as [|i0| |j|e]; simpl in Hph.
      - destruct Hph as (_ & _ & _ & _ & Hu). by pose proof (releasing_only_found _ _ _ Hu Hi).
      - destruct Hph as (_ & _ & _ & _ & _ & Hu).
        by pose proof (releasing_only_found _ _ _ Hu Hi).
      - destruct Hph as (_ & _ & _ & _ & Hu). by pose proof (releasing_only_found _ _ _ Hu Hi).
      - destruct Hph as (_ & _ & _ & _ & _ & Hu).
        by pose proof (releasing_only_found _ _ _ Hu Hi) as [= ->].
      - destruct Hph as (_ & _ & _ & _ & Hu). by pose proof (releasing_only_found _ _ _ Hu Hi). }
    subst ph. simpl in Hph. destruct Hph as (Hl & He & Hs & _ & Hb & Hu).
    rewrite Hl in Hstep. injection Hstep as <- <-.
    exists Idle. simpl. split_and!; auto.
    intros j q Hj _.
    apply list_lookup_insert_Some in Hj as [(-> & <- & _) | (Hji & Hj)]; [done |].
    eapply Hu; [done | congruence].
Qed.

Lemma phase_step (s s' : System) :
  (∃ ph, in_phase ph s) → step s s' → ∃ ph', in_phase ph' s'.
Proof.
  intros [ph Hph] Hstep. destruct Hstep.
  - exists ph. by apply phase_env.
  - exists ph. by eapply phase_fire.
  - destruct (phase_heartbeat ph s i choice hb hb' l' w' H H0 Hph)
      as (_ & [[_ ?] | [[_ ?] | (e & _ & ?)]]); eauto.
  - by eapply phase_LockWait.
  - exists ph. by apply phase_call_Unlock.
  - by eapply phase_Unlock.
Qed.

Lemma phase_reachable (s0 s : System) :
  lock (handle s0) = false → errors (handle s0) = [] → stopped (handle s0) = [] →
  beats s0 = [] → unlocks s0 = [] →
  rtc step s0 s → ∃ ph, in_phase ph s.
Proof.
  intros Hl He Hs Hb Hu Hr.
  assert (H0 : ∃ ph, in_phase ph s0).
  { exists Idle. simpl. rewrite Hb, Hu. split_and!; auto.
    - by intros j hb Hj.
    - by intros j p Hj. }
  clear Hl He Hs Hb Hu. induction Hr; eauto using phase_step.
Qed.

(** ** heartbeat *)

(** C6, amended: the heartbeat takes its ticks from [time.Tick(Expiry / 4)],
    which the runtime fills every [Expiry / 4]; a tick received in the
    [select] leads to [SET key 1 XX PX ms]; when this round trip fails with a
    store error, the goroutine sends the error on [errors] (when there is
    room) and returns; when the round trip succeeds it goes back to the
    [select], having pushed the expiry of a key that was alive to [ms] from
    now and left a key that had expired as it was, without sending anything.
    On a handle that started with empty channels and a free mutex there is
    room in [errors] whenever a heartbeat has an error to send. *)
Theorem heartbeat_renews (l : Lock) (tk : option Ticker) (w : World) (choice : bool) :
  heartbeat_step choice (mkHb HbStart None) l w
  = Some (mkHb HbRenew (Tick (Z.quot (Expiry l) 4) (now w)), l, w)
  ∧ (∀ d nxt b t p, (nxt <= t)%Z →
       fire t (mkHb p (Some (mkTicker d nxt b)))
       = Some (mkHb p (Some (mkTicker d (nxt + d) true))))
  ∧ (∀ d nxt, stop l = [] →
       heartbeat_step choice (mkHb HbSelect (Some (mkTicker d nxt true))) l w
       = Some (mkHb HbRenew (Some (mkTicker d nxt false)), l, w))
  ∧ (∀ f, fault_at 0 w = Some f →
       ∃ w', heartbeat_step choice (mkHb HbRenew tk) l w
             = Some (mkHb (HbReport (fault_error f)) tk, l, w')
           ∧ (errors l = [] →
              heartbeat_step choice (mkHb (HbReport (fault_error f)) tk) l w'
              = Some (mkHb HbExit tk, set_errors [fault_error f] l, w'))
           ∧ ∀ l' w'', heartbeat_step choice (mkHb HbExit tk) l' w'' = None)
  ∧ (fault_at 0 w = None → (0 < px l)%Z →
       ∃ s', heartbeat_step choice (mkHb HbRenew tk) l w
             = Some (mkHb HbSelect tk, l, mkWorld (now w) s' (sent w))
           ∧ if live (now w) (Key l) (db w)
             then s' = put_lease (Key l) (now w + px l * nanos_per_milli) (db w)
             else s' = db w)
  ∧ (∀ s0 s i hb e,
       lock (handle s0) = false → errors (handle s0) = [] → stopped (handle s0) = [] →
       beats s0 = [] → unlocks s0 = [] →
       rtc step s0 s →
       beats s !! i = Some hb → pc hb = HbReport e →
       heartbeat_step choice hb (handle s) (Lock.world s)
       = Some (mkHb HbExit (wait hb), set_errors [e] (handle s), Lock.world s)).
Proof.
  split_and!.
  - reflexivity.
  - intros d nxt b t p Ht. unfold fire. simpl.
    destruct (nxt <=? t)%Z eqn:E; [done | apply Z.leb_gt in E; lia].
  - intros d nxt Hs. unfold heartbeat_step. simpl. by rewrite Hs.
  - intros f Hf. unfold heartbeat_step, renew, Do. simpl. rewrite next_fault_at, Hf.
    destruct f as [m|m]; simpl; eexists; (split_and!; [reflexivity | by intros -> | done]).
  - intros Hf Hp. unfold heartbeat_step, renew, Do. simpl. rewrite next_fault_at, Hf.
    simpl. destruct (px l <=? 0)%Z eqn:E; [apply Z.leb_le in E; lia |].
    destruct (live (now w) (Key l) (db w)); eexists; split; reflexivity.
  - intros s0 s i hb e Hl He Hs Hb Hu Hr Hi Hpc.
    destruct (phase_reachable s0 s Hl He Hs Hb Hu Hr) as [ph Hph].
    assert (Hlive : pc hb ≠ HbExit) by (rewrite Hpc; done).
    assert (Herr : errors (handle s) = []).
    { destruct ph as [|i0| |j|e0]; simpl in Hph.
      - destruct Hph as (_ & _ & _ & Hex & _).
        by pose proof (exited_but_live _ _ _ _ Hex Hi Hlive).
      - by destruct Hph as (_ & ? & _).
      - by destruct Hph as (_ & ? & _).
      - by destruct Hph as (_ & ? & _).
      - destruct Hph as (_ & _ & _ & Hex & _).
        by pose proof (exited_but_live _ _ _ _ Hex Hi Hlive). }
    unfold heartbeat_step. by rewrite Hpc, Herr.
Qed.

(** C6, as stated, fails: on a key that has expired the renewal is answered
    with [nil] and no error, and the heartbeat goes on to its [select] with
    nothing sent on [errors]. *)
Lemma heartbeat_survives_expiry :
  let l := mkLock "lock" (2 * Second) true [] [] [] in
  let w := mkWorld (5 * Second) (put_lease "lock" (2 * Second) Redis.empty) [] in
  let hb := mkHb HbRenew (Tick (Z.quot (Expiry l) 4) (now w)) in
  live (now w) "lock" (db w) = false
  ∧ (renew l w).1 = Returns (inl Nil)
  ∧ heartbeat_step true hb l w
    = Some (mkHb HbSelect (wait hb), l, mkWorld (now w) (db w) []).
Proof. vm_compute. done. Qed.

(** * Further properties of the queue *)

(** ** Len *)
Lemma tidy_size (q : string) (s : store) :
  tidy q s →
  size (hgetall (payloads q) s) = length (lrange q s) + length (lrange (processing q) s).
Proof.
  intros [Hnd Hidx]. rewrite <- length_app, <- size_dom.
  rewrite <- (size_list_to_set (C := gset string)) by done.
  f_equal. apply set_eq. intros k.
  rewrite elem_of_dom, elem_of_list_to_set. symmetry. apply Hidx.
Qed.

Lemma Len_cases (c : JobQueue) (w : World) :
  Len c w
  = match fault_at 0 w with
    | None => (Returns (Z.of_nat (size (hgetall (payloads (Queue c)) (db w))), None),
               mkWorld (now w) (db w) (sent w))
    | Some f => (Returns (0%Z, Some (fault_error f)), mkWorld (now w) (db w) (sent w))
    end.
Proof.
  unfold Len, bind, Do. rewrite next_fault_at.
  destruct (fault_at 0 w) as [[m|m]|]; simpl; done.
Qed.

(** X1: [Len] changes nothing in the store.  On a store where the index
    holds exactly the keys of the waiting and the processing list, each of
    them once, it returns the number of jobs waiting or in progress; when its
    round trip fails it returns 0 with the error of the connection. *)
Theorem Len_counts_outstanding (c : JobQueue) (w : World) :
  let q := Queue c in
  tidy q (db w) →
  db (Len c w).2 = db w
  ∧ match fault_at 0 w with
    | None =>
        (Len c w).1
        = Returns (Z.of_nat (length (lrange q (db w)) + length (lrange (processing q) (db w))),
                   None)
    | Some f => (Len c w).1 = Returns (0%Z, Some (fault_error f))
    end.
Proof.
  intros q Ht. subst q. rewrite Len_cases.
  destruct (fault_at 0 w) as [f|]; simpl; [done |].
  by rewrite (tidy_size _ (db w) Ht).
Qed.

Lemma Len_counts_outstanding_witness :
  let c := NewJobQueue "jobs" in
  let ops := [OpSubmit (mkJob (inl "[1,7]") None); OpSubmit (mkJob (inl "[1,8]") None);
              OpGet (λ _, None)] in
  let w := cl_world (run_ops c ops (mkClient (mkWorld 0 Redis.empty []) [])) in
  lrange "jobs" (db w) = ["[1,8]"] ∧ lrange "jobs:processing" (db w) = ["[1,7]"]
  ∧ (Len c w).1 = Returns (2%Z, None).
Proof.
  intros c ops w. split; [reflexivity |]. split; [reflexivity |].
  assert (Ht : tidy (Queue c) (db w)).
  { apply (run_ops_conserved c ops), conserved_fresh; reflexivity. }
  exact (proj2 (Len_counts_outstanding c w Ht)).
Defined.

(** ** Complete *)
Lemma Complete_cases (q k : string) (w : World) :
  ∃ s', (Complete (mkWork q k) w).2 = mkWorld (now w) s' (sent w)
  ∧ leases s' = leases (db w)
  ∧ match fault_at 0 w with
    | Some (Refused msg) =>
        (Complete (mkWork q k) w).1 = Returns (Some (NetError msg)) ∧ s' = db w
    | other =>
        (Complete (mkWork q k) w).1
        = Returns (match other with Some (Severed msg) => Some (NetError msg) | _ => None end)
        ∧ completed q k (db w) s'
    end.
Proof.
  unfold Complete, DoExec. rewrite next_fault_at.
  pose proof (complete_batch (now w) q k (db w)) as (R1 & R2 & R3 & R4).
  destruct (fault_at 0 w) as [[m|m]|]; simpl in *; eexists; split_and!; try done.
Qed.

(** X2: [Complete] on a handle whose key is in progress, when its
    transaction goes through: it returns nil, the key is gone from the
    processing list and from the index, the waiting list is as it was and the
    store stays tidy; from then on, while the connection holds, [IsQueued] of
    a job with this key answers false and [Submit] accepts it again, at the
    head of the waiting list. *)
Theorem Complete_frees_key (c : JobQueue) (k : string) (ky : option string) (w : World) :
  let q := Queue c in
  let job := mkJob (inl k) ky in
  let w' := (Complete (mkWork q k) w).2 in
  tidy q (db w) →
  k ∈ lrange (processing q) (db w) →
  fault_at 0 w = None →
  (Complete (mkWork q k) w).1 = Returns None
  ∧ tidy q (db w')
  ∧ placed c (db w') k Absent
  ∧ lrange q (db w') = lrange q (db w)
  ∧ (fault_at 1 w = None → (IsQueued c job w').1 = Returns (false, None))
  ∧ (fault_at 1 w = None → fault_at 2 w = None →
       (Submit c job w').1 = Returns None
       ∧ lrange q (db (Submit c job w').2) = k :: lrange q (db w)).
Proof.
  intros q job w' Ht Hk F0. subst w'.
  destruct (Complete_cases q k w) as (s' & E & _ & Hc). rewrite F0 in Hc.
  destruct Hc as [Hr Hcomp]. rewrite E. simpl.
  assert (Ht' : tidy q s') by (by eapply tidy_completed).
  pose proof Hcomp as (C1 & C2 & C3).
  assert (Hidx : hgetall (payloads q) s' !! k = None) by (by rewrite C3, lookup_delete_eq).
  assert (HkW : k ∉ lrange q s').
  { rewrite C1. intros ?. by apply (tidy_not_both q k (db w)). }
  assert (HkP : k ∉ lrange (processing q) s').
  { rewrite C2, list_elem_of_filter. tauto. }
  split; [done |]. split; [done |]. split; [| split; [exact C1 | split]].
  - unfold placed. fold q. rewrite (times_absent _ _ HkW), (times_absent _ _ HkP), Hidx.
    split_and!; [done | done | by intros [? ?]].
  - intros F1. unfold job. rewrite IsQueued_indexed by (by rewrite fault_at_sent).
    simpl. fold q. by rewrite Hidx.
  - intros F1 F2.
    destruct (Submit_cases c k ky (mkWorld (now w) s' (sent w))) as (_ & _ & H3).
    simpl in H3. fold q in H3. specialize (H3 Hidx).
    rewrite !fault_at_sent in H3. specialize (H3 F1). rewrite F2 in H3.
    destruct H3 as (H31 & H32 & _). unfold job. split; [exact H31 |]. by rewrite H32, C1.
Qed.

Lemma Complete_frees_key_witness :
  let c := NewJobQueue "jobs" in
  let job := mkJob (inl "[1,7]") None in
  let ops := [OpSubmit job; OpGet (λ _, None)] in
  let w := cl_world (run_ops c ops (mkClient (mkWorld 0 Redis.empty []) [])) in
  let w' := (Complete (mkWork "jobs" "[1,7]") w).2 in
  (Complete (mkWork "jobs" "[1,7]") w).1 = Returns None
  ∧ (IsQueued c job w').1 = Returns (false, None)
  ∧ (Submit c job w').1 = Returns None.
Proof.
  intros c job ops w w'.
  assert (Ht : tidy (Queue c) (db w)).
  { apply (run_ops_conserved c ops), conserved_fresh; reflexivity. }
  assert (Hk : "[1,7]" ∈ lrange (processing (Queue c)) (db w)) by (vm_compute; by left).
  destruct (Complete_frees_key c "[1,7]" None w Ht Hk eq_refl) as (H1 & _ & _ & _ & H5 & H6).
  split; [exact H1 |]. split; [exact (H5 eq_refl) | exact (proj1 (H6 eq_refl eq_refl))].
Defined.

(** ** Repeated calls on one handle *)
Lemma put_list_again (p : string) (L : list string) (h : string)
    (X : gmap string string) (s : store) :
  put_list p L (put_hash h X (put_list p L s)) = put_hash h X (put_list p L s).
Proof.
  unfold put_list, put_hash. simpl. f_equal.
  destruct L; [apply delete_delete_eq | apply insert_insert_eq].
Qed.

Lemma put_hash_again (h : string) (X : gmap string string) (s : store) :
  put_hash h X (put_hash h X s) = put_hash h X s.
Proof.
  unfold put_hash. simpl. f_equal.
  case_decide; [apply delete_delete_eq | apply insert_insert_eq].
Qed.

Lemma filter_ne_twice (k : string) (l : list string) :
  filter (λ x, x ≠ k) (filter (λ x, x ≠ k) l) = filter (λ x, x ≠ k) l.
Proof. by apply list_filter_filter_r. Qed.

Lemma complete_batch_form (t : Z) (q k : string) (s : store) :
  (exec_batch t [LREM (processing q) 0 k; HDEL (payloads q) k] s).2
  = put_hash (payloads q) (delete k (hgetall (payloads q) s))
      (put_list (processing q) (filter (λ x, x ≠ k) (lrange (processing q) s)) s).
Proof. reflexivity. Qed.

Lemma complete_batch_twice (t t' : Z) (q k : string) (s : store) :
  let cs := [LREM (processing q) 0 k; HDEL (payloads q) k] in
  (exec_batch t' cs (exec_batch t cs s).2).2 = (exec_batch t cs s).2.
Proof.
  intros cs. subst cs. rewrite !complete_batch_form.
  rewrite lrange_put_hash, lrange_put_list_eq, filter_ne_twice.
  rewrite hgetall_put_hash_eq, delete_delete_eq.
  rewrite put_list_again. apply put_hash_again.
Qed.

(** X3: calling [Complete] again on the same handle changes nothing in the
    store, once the transaction of the first call has reached the server --
    whatever the connection does to the second call. *)
Theorem Complete_retry_is_harmless (h : Work) (w : World) :
  let w1 := (Complete h w).2 in
  (∀ msg, fault_at 0 w ≠ Some (Refused msg)) →
  db (Complete h w1).2 = db w1.
Proof.
  intros w1 Hf. subst w1. destruct h as [q k].
  unfold Complete, DoExec. rewrite !next_fault_at.
  destruct (fault_at 0 w) as [[m|m]|] eqn:F0; [by destruct (Hf m) | |]; simpl;
    rewrite fault_at_sent;
    destruct (fault_at 1 w) as [[m'|m']|]; simpl; try done;
    apply (complete_batch_twice (now w) (now w) q k (db w)).
Qed.

Lemma Complete_retry_is_harmless_witness :
  let c := NewJobQueue "jobs" in
  let w0 := mkWorld 0 Redis.empty [None; None; None; None; Some (Severed "EOF")] in
  let w := (Get c (λ _, None) (Submit c (mkJob (inl "[1,7]") None) w0).2).2 in
  let h := mkWork "jobs" "[1,7]" in
  (Complete h w).1 = Returns (Some (NetError "EOF"))
  ∧ (Complete h (Complete h w).2).1 = Returns None
  ∧ db (Complete h (Complete h w).2).2 = db (Complete h w).2.
Proof.
  intros c w0 w h. split; [reflexivity |]. split; [reflexivity |].
  apply (Complete_retry_is_harmless h w). intros msg. vm_compute. discriminate.
Defined.

(** X4: [Resubmit] is not repeatable in this way: when two calls on the
    same handle both reach the server, the key stands twice at the head of the
    waiting list (and no longer in the processing list), with the index
    unchanged. *)
Theorem Resubmit_retry_duplicates (q k : string) (w : World) :
  let w1 := (Resubmit (mkWork q k) w).2 in
  let w2 := (Resubmit (mkWork q k) w1).2 in
  (∀ msg, fault_at 0 w ≠ Some (Refused msg)) →
  (∀ msg, fault_at 1 w ≠ Some (Refused msg)) →
  lrange q (db w2) = k :: k :: lrange q (db w)
  ∧ lrange (processing q) (db w2) = filter (λ x, x ≠ k) (lrange (processing q) (db w))
  ∧ hashes (db w2) = hashes (db w).
Proof.
  intros w1 w2 H0 H1. subst w2 w1.
  destruct (Resubmit_cases q k w) as (s1 & E1 & Hh1 & _ & Hc1).
  destruct (Resubmit_cases q k (Resubmit (mkWork q k) w).2) as (s2 & E2 & Hh2 & _ & Hc2).
  rewrite E2. rewrite E1 in Hc2, Hh2 |- *. simpl in *. rewrite fault_at_sent in Hc2.
  assert (R1 : lrange q s1 = k :: lrange q (db w)
               ∧ lrange (processing q) s1 = filter (λ x, x ≠ k) (lrange (processing q) (db w))).
  { destruct (fault_at 0 w) as [[m|m]|]; [by destruct (H0 m) | |]; by destruct Hc1 as [_ [? ?]]. }
  assert (R2 : lrange q s2 = k :: lrange q s1
               ∧ lrange (processing q) s2 = filter (λ x, x ≠ k) (lrange (processing q) s1)).
  { destruct (fault_at 1 w) as [[m|m]|]; [by destruct (H1 m) | |]; by destruct Hc2 as [_ [? ?]]. }
  destruct R1 as [A1 B1], R2 as [A2 B2].
  rewrite A2, A1, B2, B1, filter_ne_twice, Hh2, Hh1. done.
Qed.

Lemma Resubmit_retry_duplicates_witness :
  let c := NewJobQueue "jobs" in
  let w0 := mkWorld 0 Redis.empty [None; None; None; None; Some (Severed "EOF")] in
  let w := (Get c (λ _, None) (Submit c (mkJob (inl "[1,7]") None) w0).2).2 in
  let h := mkWork "jobs" "[1,7]" in
  (Resubmit h w).1 = Returns (Some (NetError "EOF"))
  ∧ lrange "jobs" (db (Resubmit h (Resubmit h w).2).2) = ["[1,7]"; "[1,7]"].
Proof.
  intros c w0 w h. split; [reflexivity |].
  refine (proj1 (Resubmit_retry_duplicates "jobs" "[1,7]" w _ _));
    intros msg; vm_compute; discriminate.
Defined.

(** ** Cleanup on any connection *)
Lemma rpoplpush_effect (t : Z) (src dst : string) (s : store) :
  src ≠ dst →
  let r := (exec t (RPOPLPUSH src dst) s).1 in
  let s' := (exec t (RPOPLPUSH src dst) s).2 in
  lrange src s' ++ lrange dst s' = lrange src s ++ lrange dst s
  ∧ hashes s' = hashes s
  ∧ leases s' = leases s
  ∧ (lrange src s = [] → r = Some Nil ∧ s' = s)
  ∧ (lrange src s ≠ [] →
       (∃ x, r = Some (Bulk x)) ∧ S (length (lrange src s')) = length (lrange src s)).
Proof.
  intros Hne. simpl. destruct (last (lrange src s)) as [x|] eqn:Hlast; simpl.
  - destruct (move_tail src dst x s Hne Hlast) as (M1 & M2 & M3 & M4).
    apply last_Some in Hlast as [P' HP].
    rewrite M1, M2. split_and!; try done.
    + rewrite HP, removelast_last. by rewrite <- app_assoc.
    + rewrite HP. by destruct P'.
    + intros _. split; [eauto |]. rewrite HP, removelast_last, length_app. simpl. lia.
  - apply last_None in Hlast. rewrite Hlast. split_and!; done.
Qed.

Section cleanup_any.
Variable c : JobQueue.
Let q := Queue c.

Lemma Cleanup_any (fuel : nat) : ∀ w,
  length (lrange (processing q) (db w)) < fuel →
  ∃ r w', Cleanup fuel c w = Some (Returns r, w')
    ∧ lrange (processing q) (db w') ++ lrange q (db w')
      = lrange (processing q) (db w) ++ lrange q (db w)
    ∧ hashes (db w') = hashes (db w)
    ∧ leases (db w') = leases (db w)
    ∧ (r = None → lrange (processing q) (db w') = [])
    ∧ (∀ e, r = Some e → ∃ n f, fault_at n w = Some f ∧ e = fault_error f).
Proof.
  induction fuel as [|fuel IH]; intros w Hlen; [lia |].
  pose proof (rpoplpush_effect (now w) (processing q) q (db w) (processing_ne q))
    as (E1 & E2 & E3 & Hnil & Hcons).
  unfold Cleanup. simpl. fold q. unfold Do. rewrite next_fault_at.
  destruct (fault_at 0 w) as [[m|m]|] eqn:F0.
  - eexists _, _. split; [reflexivity |]. simpl. split_and!; try done.
    intros e [= <-]. exists 0, (Refused m). done.
  - eexists _, _. split; [reflexivity |]. simpl. split_and!; try done.
    intros e [= <-]. exists 0, (Severed m). done.
  - destruct (exec (now w) (RPOPLPUSH (processing q) q) (db w)) as [r s'] eqn:Ex.
    simpl in *.
    destruct (lrange (processing q) (db w)) as [|p0 P] eqn:HP.
    + destruct (Hnil eq_refl) as [-> ->].
      eexists _, _. split; [reflexivity |]. simpl. rewrite HP. split_and!; done.
    + destruct (Hcons ltac:(done)) as [[x ->] Hl].
      destruct (IH (mkWorld (now w) s' (sent w))) as (r' & w' & C & H1 & H2 & H3 & H4 & H5).
      { simpl in *. lia. }
      unfold Cleanup in C. rewrite C. exists r', w'. split; [done |].
      simpl in *. split_and!.
      * by rewrite H1, E1.
      * by rewrite H2.
      * by rewrite H3.
      * done.
      * intros e He. destruct (H5 e He) as (n & f & Hf & ->).
        exists (S n), f. by rewrite fault_at_sent in Hf.
Qed.

(** X5: whatever the connection does, [Cleanup] returns (its loop makes at
    most one round more than the processing list has entries), and the
    processing list followed by the waiting list is after the call what it was
    before:
    entries only move from the tail of the first to the head of the second,
    none is lost, duplicated or reordered.  The index is untouched, a tidy
    store stays tidy, a nil result means that the processing list is empty, and
    an error is the error of a round trip that failed. *)
Theorem Cleanup_keeps_every_entry (fuel : nat) (w : World) :
  length (lrange (processing q) (db w)) < fuel →
  ∃ r w', Cleanup fuel c w = Some (Returns r, w')
    ∧ lrange (processing q) (db w') ++ lrange q (db w')
      = lrange (processing q) (db w) ++ lrange q (db w)
    ∧ hashes (db w') = hashes (db w)
    ∧ (tidy q (db w) → tidy q (db w'))
    ∧ (r = None → lrange (processing q) (db w') = [])
    ∧ (∀ e, r = Some e → ∃ n f, fault_at n w = Some f ∧ e = fault_error f).
Proof.
  intros Hlen.
  destruct (Cleanup_any fuel w Hlen) as (r & w' & C & H1 & H2 & _ & H4 & H5).
  exists r, w'. split_and!; try done.
  intros [Hnd Hidx]. split.
  - apply NoDup_app in Hnd as (HW & Hd & HP).
    assert (Hnd' : NoDup (lrange (processing q) (db w') ++ lrange q (db w'))).
    { rewrite H1. apply NoDup_app. split_and!; [done | | done].
      intros x Hx Hx'. by apply (Hd x). }
    apply NoDup_app in Hnd' as (HP' & Hd' & HW').
    apply NoDup_app. split_and!; [done | | done].
    intros x Hx Hx'. by apply (Hd' x).
  - intros k. unfold hgetall. rewrite H2. fold (hgetall (payloads q) (db w)).
    rewrite <- Hidx. rewrite !elem_of_app.
    assert (Hm : k ∈ lrange (processing q) (db w') ++ lrange q (db w')
                 ↔ k ∈ lrange (processing q) (db w) ++ lrange q (db w)) by (by rewrite H1).
    rewrite !elem_of_app in Hm. tauto.
Qed.

End cleanup_any.

Lemma Cleanup_keeps_every_entry_witness :
  let c := NewJobQueue "jobs" in
  let v : Decoder := λ _, None in
  let w0 := mkWorld 0 Redis.empty [None; None; None; None; None; None; None; None;
                                   None; Some (Severed "EOF")] in
  let w1 := (Submit c (mkJob (inl "[1,8]") None) (Submit c (mkJob (inl "[1,7]") None) w0).2).2 in
  let w := (Get c v (Get c v w1).2).2 in
  lrange "jobs:processing" (db w) = ["[1,8]"; "[1,7]"]
  ∧ ∃ r w', Cleanup 3 c w = Some (Returns r, w')
    ∧ lrange "jobs:processing" (db w') ++ lrange "jobs" (db w') = ["[1,8]"; "[1,7]"].
Proof.
  intros c v w0 w1 w. split; [reflexivity |].
  destruct (Cleanup_keeps_every_entry c 3 w) as (r & w' & C & H & _); [vm_compute; lia |].
  exists r, w'. split; [exact C | exact H].
Defined.

(** ** The order of the queue *)
Section fifo.
Variable c : JobQueue.
Let q := Queue c.

Lemma Submit_fresh (p : string) (ky : option string) (w : World) :
  healthy w → hgetall (payloads q) (db w) !! p = None →
  let w' := (Submit c (mkJob (inl p) ky) w).2 in
  (Submit c (mkJob (inl p) ky) w).1 = Returns None
  ∧ healthy w'
  ∧ lrange q (db w') = p :: lrange q (db w)
  ∧ lrange (processing q) (db w') = lrange (processing q) (db w)
  ∧ hgetall (payloads q) (db w') = <[p:=default p ky]> (hgetall (payloads q) (db w)).
Proof.
  intros Hw Hidx. simpl.
  destruct (Submit_cases c p ky w) as (_ & _ & H3). simpl in H3. fold q in H3.
  specialize (H3 Hidx (Hw 0)). rewrite (Hw 1) in H3. destruct H3 as (H31 & H32 & H33 & H34).
  split_and!; [done | | done | done |].
  - assert (Hm : jobQueueMarshal (mkJob (inl p) ky) = (p, default p ky, None))
      by (by destruct ky).
    unfold Submit, IsQueued, bind, Do. rewrite Hm. simpl.
    rewrite (healthy_next w Hw). simpl. fold q. rewrite Hidx. simpl.
    unfold Submit_exec, DoExec. rewrite next_fault_at, fault_at_sent, (Hw 1). simpl.
    by apply healthy_sent, healthy_sent.
  - rewrite H33. by destruct ky.
Qed.

Lemma Submits_effect (jobs : list (string * option string)) : ∀ w,
  healthy w → NoDup (map fst jobs) →
  (∀ p, p ∈ map fst jobs → hgetall (payloads q) (db w) !! p = None) →
  let w' := Submits c (map plain_job jobs) w in
  healthy w'
  ∧ lrange q (db w') = reverse (map fst jobs) ++ lrange q (db w)
  ∧ (∀ p ky, (p, ky) ∈ jobs → hgetall (payloads q) (db w') !! p = Some (default p ky))
  ∧ (∀ k, k ∉ map fst jobs →
          hgetall (payloads q) (db w') !! k = hgetall (payloads q) (db w) !! k).
Proof.
  induction jobs as [|[p ky] jobs IH]; intros w Hw Hnd Hnew.
  - split_and!; [done | done | | done]. by intros p ky ?%elem_of_nil.
  - cbn [map fst] in Hnd, Hnew. apply NoDup_cons in Hnd as [Hp Hnd].
    destruct (Submit_fresh p ky w Hw) as (_ & Hw1 & H1 & _ & H3); [apply Hnew; by left |].
    cbn zeta in Hw1, H1, H3.
    destruct (IH (Submit c (mkJob (inl p) ky) w).2 Hw1 Hnd) as (I1 & I2 & I3 & I4).
    { intros p' Hp'. rewrite H3, lookup_insert_ne by (intros ->; done).
      apply Hnew. by right. }
    cbn zeta in I1, I2, I3, I4.
    change (Submits c (map plain_job ((p, ky) :: jobs)) w)
      with (Submits c (map plain_job jobs) (Submit c (mkJob (inl p) ky) w).2).
    cbn zeta. cbn [map fst]. split_and!.
    + done.
    + rewrite I2, H1, reverse_cons, <- app_assoc. done.
    + intros p' ky' [[= -> ->] | Hin]%elem_of_cons; [| by apply I3].
      rewrite I4 by done. by rewrite H3, lookup_insert_eq.
    + intros k [Hne Hk]%not_elem_of_cons.
      rewrite I4 by done. by rewrite H3, lookup_insert_ne.
Qed.

Lemma Gets_out_fifo (v : Decoder) (ps : list string) : ∀ w,
  healthy w → lrange q (db w) = reverse ps →
  (∀ p, p ∈ ps → ∃ d, hgetall (payloads q) (db w) !! p = Some d ∧ v d = None) →
  Gets_out (length ps) c v w = map (λ p, Returns (Some (mkWork q p), None)) ps.
Proof.
  induction ps as [|p ps IH]; intros w Hw Hq Hidx; [done |].
  rewrite reverse_cons in Hq.
  assert (Hlast : last (lrange q (db w)) = Some p) by (rewrite Hq; apply last_snoc).
  destruct (Get_healthy c v w p Hw Hlast) as (r & w1 & E & Hw1 & Hh & _ & Hok).
  destruct (Hidx p) as (d & Hd & Hv); [by left |].
  destruct (Hok d Hd Hv) as (-> & Hq1 & _).
  cbn [length Gets_out map]. rewrite E. cbn [fst snd]. f_equal.
  apply IH; [done | |].
  - fold q in Hq1. rewrite Hq1, Hq. apply removelast_last.
  - intros p' Hp'. unfold hgetall. rewrite Hh. apply Hidx. by right.
Qed.

(** X6: first in, first out.  On a healthy connection and an empty waiting
    list, jobs with distinct keys that are not yet in the index and whose
    payloads decode are submitted one after the other; as many calls of [Get]
    then return handles for these keys in the order of submission. *)
Theorem Get_follows_Submit_order (v : Decoder) (jobs : list (string * option string))
    (w : World) :
  healthy w →
  lrange q (db w) = [] →
  NoDup (map fst jobs) →
  (∀ p, p ∈ map fst jobs → hgetall (payloads q) (db w) !! p = None) →
  (∀ p ky, (p, ky) ∈ jobs → v (default p ky) = None) →
  Gets_out (length jobs) c v (Submits c (map plain_job jobs) w)
  = map (λ p, Returns (Some (mkWork q p), None)) (map fst jobs).
Proof.
  intros Hw Hq Hnd Hnew Hv.
  destruct (Submits_effect jobs w Hw Hnd Hnew) as (S1 & S2 & S3 & _). cbn zeta in *.
  rewrite Hq, app_nil_r in S2.
  rewrite <- (length_map fst jobs). apply Gets_out_fifo; [done | done |].
  intros p Hp. apply list_elem_of_fmap in Hp as ([p' ky] & -> & Hin).
  exists (default p' ky). split; [by apply S3 | by eapply Hv].
Qed.

End fifo.

Lemma Get_follows_Submit_order_witness :
  let c := NewJobQueue "jobs" in
  let jobs := [("[1,7]", None); ("[1,8]", None); ("[1,9]", None)] in
  Gets_out 3 c (λ _, None) (Submits c (map plain_job jobs) (mkWorld 0 Redis.empty []))
  = [Returns (Some (mkWork "jobs" "[1,7]"), None);
     Returns (Some (mkWork "jobs" "[1,8]"), None);
     Returns (Some (mkWork "jobs" "[1,9]"), None)].
Proof.
  intros c jobs.
  apply (Get_follows_Submit_order c (λ _, None) jobs (mkWorld 0 Redis.empty [])).
  - apply healthy_nil.
  - reflexivity.
  - apply (bool_decide_unpack _). vm_compute. exact I.
  - intros p _. reflexivity.
  - intros p ky _. reflexivity.
Defined.

(** X7: on a healthy connection, [Submit] of a job whose key is not in the
    index returns nil and puts the key at the head of the waiting list;
    submitting the same job again returns [ErrAlreadyQueued] and changes
    nothing; [IsQueued] then answers true, and [Len] has grown by one. *)
Theorem Submit_twice_queues_once (c : JobQueue) (p : string) (ky : option string) (w : World) :
  let q := Queue c in
  let job := mkJob (inl p) ky in
  let w1 := (Submit c job w).2 in
  healthy w →
  hgetall (payloads q) (db w) !! p = None →
  (Submit c job w).1 = Returns None
  ∧ (Submit c job w1).1 = Returns (Some ErrAlreadyQueued)
  ∧ db (Submit c job w1).2 = db w1
  ∧ lrange q (db w1) = p :: lrange q (db w)
  ∧ (IsQueued c job w1).1 = Returns (true, None)
  ∧ (Len c w).1 = Returns (Z.of_nat (size (hgetall (payloads q) (db w))), None)
  ∧ (Len c w1).1 = Returns (Z.of_nat (S (size (hgetall (payloads q) (db w)))), None).
Proof.
  intros q job w1 Hw Hidx. subst w1 job.
  destruct (Submit_fresh c p ky w Hw Hidx) as (H1 & Hw1 & H2 & _ & H3). cbn zeta in *.
  fold q in H2, H3.
  assert (Hin : is_Some (hgetall (payloads q) (db (Submit c (mkJob (inl p) ky) w).2) !! p)).
  { rewrite H3, lookup_insert_eq. eauto. }
  destruct (Submit_queued c p ky _ Hin) as [Q1 Q2].
  split_and!; [done | done | done | done | | |].
  - rewrite IsQueued_indexed by apply Hw1. fold q. by rewrite bool_decide_eq_true_2.
  - by rewrite Len_cases, (Hw 0).
  - rewrite Len_cases, (Hw1 0). cbn [fst]. fold q. rewrite H3.
    by rewrite map_size_insert_None.
Qed.

Lemma Submit_twice_queues_once_witness :
  let c := NewJobQueue "jobs" in
  let job := mkJob (inl "[1,7]") None in
  let w := mkWorld 0 Redis.empty [] in
  (Submit c job w).1 = Returns None
  ∧ (Submit c job (Submit c job w).2).1 = Returns (Some ErrAlreadyQueued)
  ∧ (Len c (Submit c job (Submit c job w).2).2).1 = Returns (1%Z, None).
Proof.
  intros c job w.
  destruct (Submit_twice_queues_once c "[1,7]" None w (healthy_nil _ _) eq_refl)
    as (H1 & H2 & _).
  split; [exact H1 |]. split; [exact H2 | reflexivity].
Defined.

(** X8: for a job that [json.Marshal] rejects, [jobQueueMarshal] returns
    the error with no key and no payload, [IsQueued] returns false with this
    error, and [Submit] returns [ErrAlreadyQueued] instead of it; neither of
    them makes a round trip. *)
Theorem Submit_unserializable (c : JobQueue) (msg : string) (ky : option string) (w : World) :
  let job := mkJob (inr msg) ky in
  jobQueueMarshal job = ("", "", Some (JSONError msg))
  ∧ IsQueued c job w = (Returns (false, Some (JSONError msg)), w)
  ∧ Submit c job w = (Returns (Some ErrAlreadyQueued), w).
Proof. done. Qed.

(** X9: [Get] on an empty waiting list hands out no work and changes
    nothing in the store: with the connection up it blocks (the timeout of
    [BRPOPLPUSH] is 0), and when the round trip fails it returns the error of
    the connection. *)
Theorem Get_on_empty_queue (c : JobQueue) (v : Decoder) (w : World) :
  lrange (Queue c) (db w) = [] →
  db (Get c v w).2 = db w
  ∧ handle_of (Get c v w).1 = None
  ∧ match fault_at 0 w with
    | None => Get c v w = (Blocks, w)
    | Some f => (Get c v w).1 = Returns (None, Some (fault_error f))
    end.
Proof.
  intros Hq. unfold Get, bind, Do. rewrite next_fault_at.
  destruct (fault_at 0 w) as [[m|m]|]; simpl; rewrite ?Hq; simpl; done.
Qed.

Lemma Get_on_empty_queue_witness :
  let c := NewJobQueue "jobs" in
  let w := mkWorld 0 Redis.empty [] in
  Get c (λ _, None) w = (Blocks, w)
  ∧ (Get c (λ _, None) (mkWorld 0 Redis.empty [Some (Refused "EOF")])).1
    = Returns (None, Some (NetError "EOF")).
Proof.
  intros c w. split.
  - exact (proj2 (proj2 (Get_on_empty_queue c (λ _, None) w eq_refl))).
  - exact (proj2 (proj2 (Get_on_empty_queue c (λ _, None)
                           (mkWorld 0 Redis.empty [Some (Refused "EOF")]) eq_refl))).
Defined.

(** X10: [Resubmit] puts the job behind all the jobs that wait: on a
    healthy connection, with [ps] waiting in the order in which [Get] will
    hand them out and all payloads decodable, [Resubmit] of [k] returns nil and
    the next calls of [Get] return [ps] in order and then [k]. *)
Theorem Resubmit_requeues_last (c : JobQueue) (v : Decoder) (k : string)
    (ps : list string) (w : World) :
  let q := Queue c in
  let w1 := (Resubmit (mkWork q k) w).2 in
  healthy w →
  lrange q (db w) = reverse ps →
  (∀ p, p ∈ ps ++ [k] → ∃ d, hgetall (payloads q) (db w) !! p = Some d ∧ v d = None) →
  (Resubmit (mkWork q k) w).1 = Returns None
  ∧ Gets_out (length ps + 1) c v w1
    = map (λ p, Returns (Some (mkWork q p), None)) (ps ++ [k]).
Proof.
  intros q w1 Hw Hq Hidx. subst w1.
  destruct (Resubmit_cases q k w) as (s' & E & Hh & _ & Hc). rewrite (Hw 0) in Hc.
  destruct Hc as (Hr & H1 & _). split; [done |].
  replace (length ps + 1) with (length (ps ++ [k])) by (rewrite length_app; done).
  apply Gets_out_fifo.
  - rewrite E. by apply healthy_sent.
  - rewrite E. cbn [db]. fold q. rewrite H1, Hq, reverse_app. done.
  - intros p Hp. rewrite E. cbn [db]. unfold hgetall. rewrite Hh. by apply Hidx.
Qed.

Lemma Resubmit_requeues_last_witness :
  let c := NewJobQueue "jobs" in
  let v : Decoder := λ _, None in
  let w0 := Submits c (map plain_job [("[1,7]", None); ("[1,8]", None)]) (mkWorld 0 Redis.empty []) in
  let w := (Get c v w0).2 in
  lrange "jobs:processing" (db w) = ["[1,7]"]
  ∧ Gets_out 2 c v (Resubmit (mkWork "jobs" "[1,7]") w).2
    = [Returns (Some (mkWork "jobs" "[1,8]"), None);
       Returns (Some (mkWork "jobs" "[1,7]"), None)].
Proof.
  intros c v w0 w. split; [reflexivity |].
  refine (proj2 (Resubmit_requeues_last c v "[1,7]" ["[1,8]"] w _ eq_refl _)).
  - intros n. by destruct n as [|[|[|[|n]]]].
  - intros p Hp. exists p.
    apply elem_of_cons in Hp as [-> | Hp]; [split; reflexivity |].
    apply elem_of_cons in Hp as [-> | Hp]; [split; reflexivity |].
    by apply elem_of_nil in Hp.
Defined.

(** * Further properties of the lock *)

(** ** The results of LockWait *)

(** What one attempt can answer. *)
Lemma attempt_cases (l : Lock) (w : World) :
  (∃ e w', attempt l w = (Returns (inr e), w') ∧ now w' = now w ∧ e ≠ ErrLockTimeout)
  ∨ (attempt l w = (Returns (inl Nil), mkWorld (now w) (db w) (sent w))
     ∧ live (now w) (Key l) (db w) = true)
  ∨ (attempt l w
     = (Returns (inl (Status "OK")),
        mkWorld (now w) (put_lease (Key l) (now w + px l * nanos_per_milli) (db w)) (sent w))
     ∧ (0 < px l)%Z ∧ live (now w) (Key l) (db w) = false ∧ fault_at 0 w = None).
Proof.
  unfold attempt, Do. rewrite next_fault_at.
  destruct (fault_at 0 w) as [[m|m]|]; simpl.
  - left. eauto.
  - left. eauto.
  - destruct (px l <=? 0)%Z eqn:Hp; simpl; [left; eauto |]. apply Z.leb_gt in Hp.
    destruct (live (now w) (Key l) (db w)) eqn:Hl; simpl; [right; left | right; right]; done.
Qed.

Lemma attempt_free (l : Lock) (w : World) :
  fault_at 0 w = None → (0 < px l)%Z → live (now w) (Key l) (db w) = false →
  attempt l w
  = (Returns (inl (Status "OK")),
     mkWorld (now w) (put_lease (Key l) (now w + px l * nanos_per_milli) (db w)) (sent w)).
Proof.
  intros F0 Hp Hdead.
  destruct (attempt_cases l w) as [(e & w1 & Ea & _) | [[_ Hl] | (Ea & _)]];
    [| congruence | done].
  unfold attempt, Do in Ea. rewrite next_fault_at, F0 in Ea. cbn [exec] in Ea.
  destruct (px l <=? 0)%Z eqn:Hpx; [apply Z.leb_le in Hpx; lia |].
  rewrite Hdead in Ea. done.
Qed.

Lemma attempt_held (l : Lock) (w : World) :
  fault_at 0 w = None → (0 < px l)%Z → live (now w) (Key l) (db w) = true →
  attempt l w = (Returns (inl Nil), mkWorld (now w) (db w) (sent w)).
Proof.
  intros F0 Hp Hlive.
  destruct (attempt_cases l w) as [(e & w1 & Ea & _) | [[Ea _] | (_ & _ & Hl & _)]];
    [| done | congruence].
  unfold attempt, Do in Ea. rewrite next_fault_at, F0 in Ea. cbn [exec] in Ea.
  destruct (px l <=? 0)%Z eqn:Hpx; [apply Z.leb_le in Hpx; lia |].
  rewrite Hlive in Ea. done.
Qed.

Section LockWait_post.
Variable E : Env.

Lemma LockWait_loop_post (fuel : nat) : ∀ l expire w r l' started w',
  LockWait_loop E fuel l expire w = Some (r, l', started, w') →
  (now w <= now w')%Z
  ∧ ∃ ro, r = Returns ro
    ∧ match ro with
      | None =>
          started = true ∧ l' = l ∧ (0 < px l)%Z
          ∧ leases (db w') !! Key l = Some (now w' + px l * nanos_per_milli)%Z
      | Some e =>
          started = false ∧ l' = set_lock false l
          ∧ (e = ErrLockTimeout → (expire < now w')%Z)
      end.
Proof.
  induction fuel as [|fuel IH]; intros l expire w r l' started w' H; [done |].
  simpl in H.
  assert (Hsend : (now w <= now (Send E w))%Z) by (unfold Send, Lapse; simpl; lia).
  destruct (attempt_cases l (Send E w))
    as [(e & w1 & Ea & Hn & He) | [[Ea Hl] | (Ea & Hp & Hl & _)]];
    rewrite Ea in H.
  - injection H as <- <- <- <-. split; [lia |]. exists (Some e). split_and!; try done.
  - destruct (_ <? _)%Z eqn:Ex in H.
    + injection H as <- <- <- <-. apply Z.ltb_lt in Ex. unfold Sleep, Lapse in *.
      cbn [now] in *. split; [lia |]. exists (Some ErrLockTimeout). split_and!; done.
    + apply IH in H as [Hle Hro]. unfold Sleep, Lapse in Hle. cbn [now] in Hle.
      split; [lia | done].
  - injection H as <- <- <- <-. cbn [now db]. split; [lia |]. exists None.
    split_and!; try done. unfold put_lease. simpl. by rewrite lookup_insert_eq.
Qed.

(** X11: what a call of [LockWait] that finds the mutex free and comes
    back can have done.  It has returned (it does not panic, and blocks only on
    the mutex); time has not gone backwards; with a nil result the mutex is
    held, one heartbeat has been started and the key is alive in the store at
    the instant of the return; with an error the mutex is free again, no
    heartbeat has been started, and [ErrLockTimeout] comes only after more than
    [wait] has passed. *)
Theorem LockWait_outcomes (fuel : nat) (wait : Z) (l : Lock) (w : World)
    (r : outcome (option error)) (l' : Lock) (started : bool) (w' : World) :
  lock l = false →
  LockWait E fuel wait l w = Some (r, l', started, w') →
  (now w <= now w')%Z
  ∧ ∃ ro, r = Returns ro
    ∧ match ro with
      | None =>
          started = true ∧ l' = set_lock true l
          ∧ live (now w') (Key l) (db w') = true
      | Some e =>
          started = false ∧ l' = l
          ∧ (e = ErrLockTimeout → (now w + wait < now w')%Z)
      end.
Proof.
  intros Hfree H. unfold LockWait in H. rewrite Hfree in H.
  apply LockWait_loop_post in H as [Hle (ro & -> & Hro)].
  split; [done |]. exists ro. split; [done |].
  destruct ro as [e|].
  - destruct Hro as (-> & -> & Ht). split_and!; [done | by apply relock | done].
  - destruct Hro as (-> & -> & Hp & Hlease). split_and!; [done | done |].
    change (px (set_lock true l)) with (px l) in *.
    change (Key (set_lock true l)) with (Key l) in *.
    unfold live. rewrite Hlease. apply Z.ltb_lt. unfold nanos_per_milli. lia.
Qed.

(** X12: the same for [Lock], which is [LockWait] with a wait of 100000
    hours: [ErrLockTimeout] is possible only after that time. *)
Theorem Lock_outcomes (fuel : nat) (l : Lock) (w : World)
    (r : outcome (option error)) (l' : Lock) (started : bool) (w' : World) :
  lock l = false →
  Lock_ E fuel l w = Some (r, l', started, w') →
  ∃ ro, r = Returns ro
    ∧ match ro with
      | None => started = true ∧ lock l' = true ∧ live (now w') (Key l) (db w') = true
      | Some e =>
          started = false ∧ lock l' = false
          ∧ (e = ErrLockTimeout → (now w + 360000000000000000 < now w')%Z)
      end.
Proof.
  intros Hfree H. unfold Lock_, LockWait in H. rewrite Hfree in H.
  apply LockWait_loop_post in H as [Hle (ro & -> & Hro)].
  exists ro. split; [done |].
  destruct ro as [e|].
  - destruct Hro as (-> & -> & Ht). split_and!; [done | done |].
    intros He. specialize (Ht He). unfold Hour, Second, Millisecond in Ht. lia.
  - destruct Hro as (-> & -> & Hp & Hlease). split_and!; [done | done |].
    change (px (set_lock true l)) with (px l) in *.
    change (Key (set_lock true l)) with (Key l) in *.
    unfold live. rewrite Hlease. apply Z.ltb_lt. unfold nanos_per_milli. lia.
Qed.

End LockWait_post.

Lemma LockWait_outcomes_witness :
  let l := NewLock "lock" in
  let w := mkWorld 0 (put_lease "lock" (3 * Second) Redis.empty) [] in
  ∃ w', LockWait (prompt idle) 3 (5 * Second) l w
        = Some (Returns None, set_lock true l, true, w')
      ∧ (now w <= now w')%Z
      ∧ live (now w') "lock" (db w') = true.
Proof.
  intros l w. eexists.
  split; [reflexivity |].
  destruct (LockWait_outcomes (prompt idle) 3 (5 * Second) l w _ _ _ _ eq_refl eq_refl)
    as (Hle & ro & Hr & Hro).
  split; [exact Hle |].
  injection Hr as <-. exact (proj2 (proj2 Hro)).
Defined.

Lemma Lock_outcomes_witness :
  let l := NewLock "lock" in
  let w := mkWorld 0 Redis.empty [Some (Refused "EOF")] in
  ∃ w', Lock_ (prompt idle) 1 l w = Some (Returns (Some (NetError "EOF")), l, false, w')
      ∧ lock l = false.
Proof.
  intros l w. eexists. split; [reflexivity |].
  destruct (Lock_outcomes (prompt idle) 1 l w _ _ _ _ eq_refl eq_refl) as (ro & Hr & Hro).
  injection Hr as <-. exact (proj1 (proj2 Hro)).
Defined.

(** X13: with a lease of at least a millisecond, the mutex free, the key
    absent or expired when the first command reaches the store and that round
    trip going through, [LockWait] succeeds at once, whatever [wait] is: the
    key expires [Expiry] (rounded down to milliseconds) from that instant, the
    mutex is held and the heartbeat is started.  A further [LockWait] on the
    same handle blocks on the mutex, and an attempt of any other handle on
    this key is refused by the store. *)
Theorem LockWait_acquires_free_key (E : Env) (fuel : nat) (wait : Z)
    (l : Lock) (w : World) :
  let wa := Send E w in
  let w' := mkWorld (now wa) (put_lease (Key l) (now wa + px l * nanos_per_milli) (db wa))
              (sent w) in
  lock l = false →
  (Millisecond <= Expiry l)%Z →
  live (now wa) (Key l) (db wa) = false →
  fault_at 0 w = None →
  LockWait E (S fuel) wait l w = Some (Returns None, set_lock true l, true, w')
  ∧ live (now w') (Key l) (db w') = true
  ∧ (∀ fuel' wait' w'',
       LockWait E fuel' wait' (set_lock true l) w''
       = Some (Blocks, set_lock true l, false, w''))
  ∧ (∀ l2, Key l2 = Key l → acquired (attempt l2 w').1 = false).
Proof.
  intros wa w' Hfree Hms Hdead F0. pose proof (px_pos l Hms) as Hp.
  assert (Hlive : live (now w') (Key l) (db w') = true).
  { unfold w'. cbn [now db]. rewrite live_put_lease, decide_True by done.
    apply Z.ltb_lt. unfold nanos_per_milli. lia. }
  split_and!.
  - unfold LockWait. rewrite Hfree. cbn [LockWait_loop]. fold wa.
    change (attempt (set_lock true l) wa) with (attempt l wa).
    by rewrite (attempt_free l wa F0 Hp Hdead).
  - done.
  - intros fuel' wait' w''. reflexivity.
  - intros l2 HK. destruct (acquired (attempt l2 w').1) eqn:Ha; [| done].
    destruct (acquired_fresh l2 w' Ha) as (Hd & _). rewrite HK in Hd. congruence.
Qed.

Lemma LockWait_acquires_free_key_witness :
  let l := NewLock "lock" in
  let w := mkWorld 0 Redis.empty [] in
  LockWait (prompt idle) 1 0 l w
  = Some (Returns None, set_lock true l, true,
          mkWorld 1 (put_lease "lock" (1 + 2 * Second) Redis.empty) []).
Proof.
  intros l w.
  exact (proj1 (LockWait_acquires_free_key (prompt idle) 0 0 l w eq_refl
                  ltac:(vm_compute; discriminate) eq_refl eq_refl)).
Defined.

(** X14: with [Expiry] below a millisecond the store is asked for [PX 0]
    (or less) and answers with an error; [LockWait] returns it at the first
    attempt, releases the mutex, starts no heartbeat and writes nothing to the
    store. *)
Theorem LockWait_needs_a_millisecond (E : Env) (fuel : nat) (wait : Z)
    (l : Lock) (w : World) :
  lock l = false →
  (Expiry l < Millisecond)%Z →
  fault_at 0 w = None →
  LockWait E (S fuel) wait l w
  = Some (Returns (Some (ServerError "ERR invalid expire time in set")), l, false,
          mkWorld (now (Send E w)) (db (Send E w)) (sent w)).
Proof.
  intros Hfree Hms F0.
  assert (Hp : (px l <= 0)%Z).
  { unfold px. unfold Millisecond in Hms.
    destruct (Z_lt_le_dec (Expiry l) 0) as [Hneg|Hpos].
    - pose proof (Z.quot_opp_l (- Expiry l) 1000000 ltac:(lia)) as Hq.
      rewrite Z.opp_involutive in Hq.
      pose proof (Z.quot_pos (- Expiry l) 1000000 ltac:(lia) ltac:(lia)). lia.
    - rewrite Z.quot_small by lia. lia. }
  unfold LockWait. rewrite Hfree. cbn [LockWait_loop].
  change (attempt (set_lock true l) (Send E w)) with (attempt l (Send E w)).
  unfold attempt, Do. rewrite next_fault_at.
  change (fault_at 0 (Send E w)) with (fault_at 0 w). rewrite F0.
  cbn [exec]. apply Z.leb_le in Hp. rewrite Hp. by rewrite relock.
Qed.

Lemma LockWait_needs_a_millisecond_witness :
  let l := mkLock "lock" 999999 false [] [] [] in
  LockWait (prompt idle) 1 (5 * Second) l (mkWorld 0 Redis.empty [])
  = Some (Returns (Some (ServerError "ERR invalid expire time in set")), l, false,
          mkWorld 1 Redis.empty []).
Proof.
  intros l.
  exact (LockWait_needs_a_millisecond (prompt idle) 0 (5 * Second) l
           (mkWorld 0 Redis.empty []) eq_refl eq_refl eq_refl).
Defined.

(** X15: the key is held by somebody who does not renew it, and its lease
    ends within [Expiry] of the arrival of the caller's first command; nobody
    else touches the store.  [LockWait] sleeps [Expiry] or more after its
    failed first attempt.  When it wakes up after the deadline -- as it does
    whenever [wait <= Expiry] -- it returns [ErrLockTimeout] without a second
    attempt, although the key has expired; when it wakes up by the deadline,
    its second attempt acquires. *)
Theorem LockWait_after_holder_gone (tr : Z → positive) (ov : Z → N) (wait : Z)
    (l : Lock) (w : World) (d : Z) :
  let E := mkEnv idle tr ov in
  let ta := (now w + Z.pos (tr (now w)))%Z in
  let t1 := (ta + Expiry l + Z.of_N (ov ta))%Z in
  let t2 := (t1 + Z.pos (tr t1))%Z in
  lock l = false →
  (Millisecond <= Expiry l)%Z →
  healthy w →
  leases (db w) !! Key l = Some d →
  (ta < d <= ta + Expiry l)%Z →
  ((now w + wait < t1)%Z →
     ∀ fuel, LockWait E (S fuel) wait l w
             = Some (Returns (Some ErrLockTimeout), l, false,
                     mkWorld t1 (db w) (sent w)))
  ∧ ((t1 <= now w + wait)%Z →
     ∀ fuel, LockWait E (S (S fuel)) wait l w
             = Some (Returns None, set_lock true l, true,
                     mkWorld t2 (put_lease (Key l) (t2 + px l * nanos_per_milli) (db w))
                       (sent (mkWorld t1 (db w) (sent w)))))
  ∧ ((wait <= Expiry l)%Z → (now w + wait < t1)%Z).
Proof.
  intros E ta t1 t2 Hfree Hms Hw Hd Hrange. pose proof (px_pos l Hms) as Hp.
  assert (HE : (0 < Expiry l)%Z) by (unfold Millisecond in Hms; lia).
  set (wa := mkWorld ta (db w) (wire w)).
  assert (Hsend : Send E w = wa) by reflexivity.
  assert (Hlive : live (now wa) (Key l) (db wa) = true).
  { unfold live. cbn [now db wa]. rewrite Hd. apply Z.ltb_lt. lia. }
  assert (Hbusy : attempt l wa = (Returns (inl Nil), mkWorld ta (db w) (sent w))).
  { exact (attempt_held l wa (Hw 0) Hp Hlive). }
  assert (Hsleep : Sleep E (Expiry l) (mkWorld ta (db w) (sent w))
                   = mkWorld t1 (db w) (sent w)).
  { unfold Sleep, Lapse, idle, t1. cbn [now db wire E others oversleep].
    rewrite Z.max_l by lia. f_equal. lia. }
  split; [| split].
  - intros Hwait fuel. unfold LockWait. rewrite Hfree. cbn [LockWait_loop].
    rewrite Hsend.
    change (attempt (set_lock true l) wa) with (attempt l wa).
    change (Expiry (set_lock true l)) with (Expiry l).
    rewrite Hbusy. cbn zeta. rewrite Hsleep. cbn [now].
    apply Z.ltb_lt in Hwait. rewrite Hwait. by rewrite relock.
  - intros Hwait fuel. unfold LockWait. rewrite Hfree. cbn [LockWait_loop].
    rewrite Hsend.
    change (attempt (set_lock true l) wa) with (attempt l wa).
    change (Expiry (set_lock true l)) with (Expiry l).
    rewrite Hbusy. cbn zeta. rewrite Hsleep. cbn [now].
    apply Z.ltb_ge in Hwait. rewrite Hwait.
    set (wb := mkWorld t2 (db w) (sent w)).
    assert (Hsend2 : Send E (mkWorld t1 (db w) (sent w)) = wb) by reflexivity.
    rewrite Hsend2.
    change (attempt (set_lock true l) wb) with (attempt l wb).
    assert (Hdead : live (now wb) (Key l) (db wb) = false).
    { unfold live. cbn [now db wb]. rewrite Hd. apply Z.ltb_ge. unfold t2, t1. lia. }
    assert (F1 : fault_at 0 wb = None) by (unfold wb; rewrite fault_at_sent; apply Hw).
    by rewrite (attempt_free l wb F1 Hp Hdead).
  - intros Hwait. unfold t1, ta. lia.
Qed.

Lemma LockWait_after_holder_gone_witness :
  let l := NewLock "lock" in
  let w := mkWorld Second (put_lease "lock" (2 * Second) Redis.empty) [] in
  LockWait (prompt idle) 1 (2 * Second) l w
  = Some (Returns (Some ErrLockTimeout), l, false,
          mkWorld (3 * Second + 1) (db w) [])
  ∧ LockWait (prompt idle) 2 (3 * Second) l w
    = Some (Returns None, set_lock true l, true,
            mkWorld (3 * Second + 2) (put_lease "lock" (5 * Second + 2) (db w)) []).
Proof.
  intros l w.
  destruct (LockWait_after_holder_gone (λ _, 1%positive) (λ _, 0%N) (3 * Second) l w
              (2 * Second) eq_refl
              ltac:(vm_compute; discriminate) (healthy_nil _ _) eq_refl
              ltac:(vm_compute; split; [reflexivity | discriminate])) as (_ & H2 & _).
  destruct (LockWait_after_holder_gone (λ _, 1%positive) (λ _, 0%N) (2 * Second) l w
              (2 * Second) eq_refl
              ltac:(vm_compute; discriminate) (healthy_nil _ _) eq_refl
              ltac:(vm_compute; split; [reflexivity | discriminate])) as (H1 & _ & _).
  split.
  - exact (H1 eq_refl 0).
  - exact (H2 ltac:(vm_compute; discriminate) 0).
Defined.

(** ** The goroutines of a handle *)
(** X16: on a handle that starts with a free mutex and empty channels,
    whatever calls of [LockWait] and [Unlock] are made and however the
    goroutines are scheduled, at most one heartbeat has not returned; none is
    left running while the mutex is free, nor after an error has been put on
    [errors]. *)
Theorem one_heartbeat_at_a_time (s0 s : System) :
  lock (handle s0) = false → errors (handle s0) = [] → stopped (handle s0) = [] →
  beats s0 = [] → unlocks s0 = [] →
  rtc step s0 s →
  (∀ i j hb hb', beats s !! i = Some hb → beats s !! j = Some hb' →
                 pc hb ≠ HbExit → pc hb' ≠ HbExit → i = j)
  ∧ (lock (handle s) = false → ∀ i hb, beats s !! i = Some hb → pc hb = HbExit)
  ∧ (errors (handle s) ≠ [] → ∀ i hb, beats s !! i = Some hb → pc hb = HbExit).
Proof.
  intros Hl He Hs Hb Hu Hr.
  destruct (phase_reachable s0 s Hl He Hs Hb Hu Hr) as [ph Hph].
  assert (Hone : ∀ o, exited_but o (beats s) →
            ∀ i j hb hb', beats s !! i = Some hb → beats s !! j = Some hb' →
                          pc hb ≠ HbExit → pc hb' ≠ HbExit → i = j).
  { intros o Hex i j hb hb' Hi Hj Hpi Hpj.
    pose proof (exited_but_live _ _ _ _ Hex Hi Hpi) as E1.
    pose proof (exited_but_live _ _ _ _ Hex Hj Hpj) as E2. congruence. }
  assert (Hnone : exited_but None (beats s) →
            ∀ i hb, beats s !! i = Some hb → pc hb = HbExit).
  { intros Hex i hb Hi. by eapply Hex. }
  destruct ph as [|i0| |j0|e]; simpl in Hph.
  - destruct Hph as (Hl' & He' & _ & Hex & _).
    split; [by apply (Hone None) | split; [by intros _; apply Hnone | by intros _; apply Hnone]].
  - destruct Hph as (Hl' & He' & _ & _ & Hex & _).
    split; [by apply (Hone (Some i0)) | split; [congruence | congruence]].
  - destruct Hph as (Hl' & He' & _ & Hex & _).
    split; [by apply (Hone None) | split; [by intros _; apply Hnone | by intros _; apply Hnone]].
  - destruct Hph as (Hl' & He' & _ & _ & Hex & _).
    split; [by apply (Hone None) | split; [by intros _; apply Hnone | by intros _; apply Hnone]].
  - destruct Hph as (Hl' & He' & _ & Hex & _).
    split; [by apply (Hone None) | split; [by intros _; apply Hnone | by intros _; apply Hnone]].
Qed.

Lemma one_heartbeat_at_a_time_witness :
  let s0 := mkSystem (mkWorld 0 Redis.empty []) (NewLock "lock") [] [] in
  let s := mkSystem (mkWorld 1 (put_lease "lock" (1 + 2 * Second) Redis.empty) [])
             (set_lock true (NewLock "lock")) [mkHb HbStart None] [] in
  rtc step s0 s
  ∧ ∀ i j hb hb', beats s !! i = Some hb → beats s !! j = Some hb' →
                  pc hb ≠ HbExit → pc hb' ≠ HbExit → i = j.
Proof.
  intros s0 s.
  assert (Hr : rtc step s0 s).
  { eapply rtc_l; [| apply rtc_refl].
    apply (step_LockWait s0 (prompt idle) 1 0 None (set_lock true (NewLock "lock")) true).
    reflexivity. }
  split; [exact Hr |].
  exact (proj1 (one_heartbeat_at_a_time s0 s eq_refl eq_refl eq_refl eq_refl eq_refl Hr)).
Defined.

(** X17: the handle is held, its channels are empty and heartbeat [i]
    waits in its [select].  A call of [Unlock] can then run to its end: it
    sends on [stop], the heartbeat acknowledges on [stopped] and returns, the
    call receives and releases the mutex.  The channels are empty again, the
    other goroutines are where they were, and nothing was sent to the store:
    a key that was alive still is, and still refuses every other handle. *)
Theorem Unlock_rendezvous (s : System) (i j : nat) (hb : Heartbeat) :
  lock (handle s) = true →
  stop (handle s) = [] →
  stopped (handle s) = [] →
  beats s !! i = Some hb → pc hb = HbSelect →
  unlocks s !! j = Some UnSend →
  let s' := mkSystem (Lock.world s) (set_lock false (handle s))
              (<[i:=mkHb HbExit (wait hb)]> (beats s))
              (<[j:=UnReturned]> (unlocks s)) in
  rtc step s s'
  ∧ (live (now (Lock.world s)) (Key (handle s)) (db (Lock.world s)) = true →
     ∀ l2, Key l2 = Key (handle s) → acquired (attempt l2 (Lock.world s')).1 = false).
Proof.
  intros Hl Hst Hsd Hi Hpc Hj s'. split.
  2:{ intros Hlive l2 HK. destruct (acquired (attempt l2 (Lock.world s')).1) eqn:Ha; [| done].
      destruct (acquired_fresh l2 _ Ha) as (Hd & _). rewrite HK in Hd.
      unfold s' in Hd. cbn [Lock.world] in Hd. congruence. }
  assert (Hilen : i < length (beats s)) by (by eapply lookup_lt_Some).
  assert (Hjlen : j < length (unlocks s)) by (by eapply lookup_lt_Some).
  unfold s'. clear s'.
  destruct s as [w l bs us]. cbn [handle beats unlocks Lock.world] in *.
  destruct hb as [p tk]. cbn [pc wait] in *. subst p.
  set (l1 := set_stop [true] l).
  set (l3 := set_stopped [true] (set_stop [] l1)).
  set (bs2 := <[i:=mkHb HbAck tk]> bs).
  set (bs3 := <[i:=mkHb HbExit tk]> bs2).
  set (us1 := <[j:=UnWait]> us).
  set (us4 := <[j:=UnRelease]> us1).
  set (us5 := <[j:=UnReturned]> us4).
  assert (Hi2 : bs2 !! i = Some (mkHb HbAck tk))
    by (by apply list_lookup_insert_eq).
  assert (Hj1 : us1 !! j = Some UnWait)
    by (by apply list_lookup_insert_eq).
  assert (Hj4 : us4 !! j = Some UnRelease)
    by (apply list_lookup_insert_eq; unfold us1; by rewrite length_insert).
  assert (Hend : mkSystem w (set_lock false l) (<[i:=mkHb HbExit tk]> bs) (<[j:=UnReturned]> us)
                 = mkSystem w (set_lock false (set_stopped [] l3)) bs3 us5).
  { unfold bs3, bs2, us5, us4, us1, l3, l1. rewrite !list_insert_insert_eq.
    destruct l; cbn in *; by subst. }
  rewrite Hend.
  eapply rtc_l.
  { apply (step_Unlock (mkSystem w l bs us) j UnSend UnWait l1 Hj).
    cbn. by rewrite Hst. }
  eapply rtc_l.
  { apply (step_heartbeat (mkSystem w l1 bs us1) i true
             (mkHb HbSelect tk) (mkHb HbAck tk) (set_stop [] l1) w Hi).
    reflexivity. }
  eapply rtc_l.
  { apply (step_heartbeat (mkSystem w (set_stop [] l1) bs2 us1) i true
             (mkHb HbAck tk) (mkHb HbExit tk) l3 w Hi2).
    unfold heartbeat_step. cbn. by rewrite Hsd. }
  eapply rtc_l.
  { apply (step_Unlock (mkSystem w l3 bs3 us1) j UnWait UnRelease
             (set_stopped [] l3) Hj1).
    reflexivity. }
  eapply rtc_l.
  { apply (step_Unlock (mkSystem w (set_stopped [] l3) bs3 us4) j UnRelease UnReturned
             (set_lock false (set_stopped [] l3)) Hj4).
    cbn. by rewrite Hl. }
  apply rtc_refl.
Qed.

Lemma Unlock_rendezvous_witness :
  let l := set_lock true (NewLock "lock") in
  let w := mkWorld 5 (put_lease "lock" (2 * Second) Redis.empty) [] in
  let tk := Tick (Z.quot (2 * Second) 4) 0 in
  let s := mkSystem w l [mkHb HbSelect tk] [UnSend] in
  rtc step s (mkSystem w (set_lock false l) [mkHb HbExit tk] [UnReturned])
  ∧ acquired (attempt (NewLock "lock") w).1 = false.
Proof.
  intros l w tk s.
  pose proof (Unlock_rendezvous s 0 0 (mkHb HbSelect tk)
                eq_refl eq_refl eq_refl eq_refl eq_refl eq_refl) as [Hr Hk].
  split; [exact Hr |].
  exact (Hk eq_refl (NewLock "lock") eq_refl).
Defined.

(** ** Renewals in time *)
Lemma Do_SET_healthy (k v : string) (cnd : cond) (p : Z) (w : World) :
  healthy w →
  now (Do (SET k v cnd p) w).2 = now w
  ∧ db (Do (SET k v cnd p) w).2 = (exec (now w) (SET k v cnd p) (db w)).2
  ∧ healthy (Do (SET k v cnd p) w).2.
Proof.
  intros H. unfold Do. rewrite (healthy_next w H).
  destruct (exec (now w) (SET k v cnd p) (db w)) as [[r|] s] eqn:E.
  - assert (Hh : healthy (mkWorld (now w) s (sent w))) by (by apply healthy_sent).
    destruct r; simpl; done.
  - simpl in E. destruct (p <=? 0)%Z; [done |].
    by destruct (match cnd with NX => _ | XX => _ end).
Qed.

Lemma paced_step (key : string) (e : event) (es : list event) (w : World) (d : Z) :
  healthy w → leases (db w) !! key = Some d → (now w < d)%Z →
  paced key (d - now w) (e :: es) = true →
  ∃ d', healthy (run_event w e)
    ∧ leases (db (run_event w e)) !! key = Some d'
    ∧ (now (run_event w e) < d')%Z
    ∧ paced key (d' - now (run_event w e)) es = true.
Proof.
  intros H Hd Hlt Hp.
  assert (Hlive : live (now w) key (db w) = true).
  { unfold live. rewrite Hd. by apply Z.ltb_lt. }
  destruct e as [l|l|l|n]; cbn [run_event paced] in *.
  - destruct (Do_SET_healthy (Key l) "1" NX (px l) w H) as (En & Es & Hh).
    fold (attempt l) in En, Es, Hh. exists d. rewrite En, Es.
    split; [done |]. split; [| done].
    simpl. destruct (px l <=? 0)%Z; [done |].
    destruct (decide (Key l = key)) as [->|Hne].
    + by rewrite Hlive.
    + destruct (negb (live (now w) (Key l) (db w))); [| done].
      simpl. by rewrite lookup_insert_ne.
  - destruct (Do_SET_healthy (Key l) "1" XX (px l) w H) as (En & Es & Hh).
    fold (renew l) in En, Es, Hh. rewrite En, Es. simpl.
    destruct (decide (Key l = key)) as [HK|Hne].
    + destruct (px l <=? 0)%Z eqn:Hpx; [by exists d |].
      apply Z.leb_gt in Hpx. rewrite HK, Hlive. simpl.
      exists (now w + px l * nanos_per_milli)%Z. rewrite lookup_insert_eq.
      split; [done |]. split; [done |]. split; [unfold nanos_per_milli; lia |].
      by replace (now w + px l * nanos_per_milli - now w)%Z
        with (px l * nanos_per_milli)%Z by lia.
    + exists d. split; [done |]. split; [| done].
      destruct (px l <=? 0)%Z; [done |].
      destruct (live (now w) (Key l) (db w)); [| done].
      simpl. by rewrite lookup_insert_ne.
  - by exists d.
  - apply andb_true_iff in Hp as [Hn Hp]. apply Z.ltb_lt in Hn.
    exists d. cbn [now db]. split; [exact H |]. split; [done |]. split; [lia |].
    by replace (d - (now w + Z.of_N n))%Z with (d - now w - Z.of_N n)%Z by lia.
Qed.

Lemma paced_prefix (key : string) (es1 es2 : list event) : ∀ (w : World) (d : Z),
  healthy w → leases (db w) !! key = Some d → (now w < d)%Z →
  paced key (d - now w) (es1 ++ es2) = true →
  ∃ d', healthy (run es1 w)
    ∧ leases (db (run es1 w)) !! key = Some d'
    ∧ (now (run es1 w) < d')%Z
    ∧ paced key (d' - now (run es1 w)) es2 = true.
Proof.
  induction es1 as [|e es1 IH]; intros w d H Hd Hlt Hp.
  - by exists d.
  - destruct (paced_step key e (es1 ++ es2) w d H Hd Hlt Hp) as (d' & H' & Hd' & Hlt' & Hp').
    exact (IH _ d' H' Hd' Hlt' Hp').
Qed.

(** X18: on a healthy connection, callers of [LockWait], heartbeats and
    calls of [Unlock] of any handles act on the store in any order while time
    passes.  As long as each passing of time ends before the lease of [key]
    does, counted from the last renewal of [key] that the server accepted
    (the schedule is [paced]), the key is alive at every instant of the run
    and every attempt on it is refused. *)
Theorem lease_kept_alive (key : string) (es : list event) (w : World) (d : Z) :
  healthy w →
  leases (db w) !! key = Some d → (now w < d)%Z →
  paced key (d - now w) es = true →
  (∀ es1 es2, es = es1 ++ es2 →
     live (now (run es1 w)) key (db (run es1 w)) = true)
  ∧ (∀ es1 l es2, es = es1 ++ Attempt l :: es2 → Key l = key →
       acquired (attempt l (run es1 w)).1 = false).
Proof.
  intros H Hd Hlt Hp.
  assert (Hall : ∀ es1 es2, es = es1 ++ es2 →
            live (now (run es1 w)) key (db (run es1 w)) = true).
  { intros es1 es2 ->.
    destruct (paced_prefix key es1 es2 w d H Hd Hlt Hp) as (d' & _ & Hd' & Hlt' & _).
    unfold live. rewrite Hd'. by apply Z.ltb_lt. }
  split; [exact Hall |].
  intros es1 l es2 E HK.
  destruct (acquired (attempt l (run es1 w)).1) eqn:Ha; [| done].
  destruct (acquired_fresh l _ Ha) as (Hdead & _).
  rewrite HK, (Hall es1 _ E) in Hdead. done.
Qed.

Lemma lease_kept_alive_witness :
  let a := set_lock true (NewLock "lock") in
  let b := NewLock "lock" in
  let w := mkWorld 0 (put_lease "lock" (2 * Second) Redis.empty) [] in
  let es := [Pass 500000000; Beat a; Attempt b; Pass 1999999999; Beat a;
             Pass 1500000000; Attempt b] in
  live (now (run es w)) "lock" (db (run es w)) = true
  ∧ acquired (attempt b (run [Pass 500000000; Beat a] w)).1 = false.
Proof.
  intros a b w es.
  pose proof (lease_kept_alive "lock" es w (2 * Second) (healthy_nil _ _)
                eq_refl eq_refl eq_refl) as [Hlive Hno].
  split.
  - exact (Hlive es [] eq_refl).
  - exact (Hno [Pass 500000000; Beat a] b
             [Pass 1999999999; Beat a; Pass 1500000000; Attempt b] eq_refl eq_refl).
Defined.
